(** * Synapse [LruCache]: a shallow embedding and its verification

    Source: [synapse/util/caches/lrucache.py].

    The cache is a closure over a circular doubly-linked list of [_Node]
    objects (the recency list, closed by the sentinel [list_root]), a key
    index [cache] (a [dict] or a [TreeCache]), and the one-cell list
    [cached_cache_len].  The embedding keeps that shape: nodes live in an
    object store addressed by natural numbers, [list_root] is the object at
    address [0], and every pointer assignment of the source is a store
    update.  Operations run in a state-and-exception monad; the eviction
    loop takes fuel.

    The mutex of [synchronized] is taken and released around every
    operation and has no sequential content; it is not modelled. *)

From Stdlib Require Import ZArith Floats.
From stdpp Require Import base decidable option list numbers strings sets.

#[local] Set Warnings "-clear-no-such-hyp,-register-all".

(** ** Python values that the cache handles *)

(** Invalidation callbacks are compared by identity ([callback not in
    self.callbacks]); an identity is a number. *)
Definition Cb := nat.

Inductive exn : Type :=
| KeyError
| TypeError
| ValueError
| OverflowError
| CallbackError (c : Cb).

(** What [get] and [pop] hand back: the content of the node's [value] slot,
    or the caller's default. *)
Inductive looked (V D : Type) : Type :=
| Found (v : option V)
| Default (d : D).
Arguments Found {V D} v.
Arguments Default {V D} d.

(** [self.sentinel = object()]: a value no caller can have stored. *)
Inductive sentinel_t : Type := Sentinel.

(** *** [int * float] and [int(float)] *)

Definition float_of_int (n : Z) : float :=
  SF2Prim (SpecFloat.binary_normalize 53 1024 n 0 false).

(** [int(x)]: truncation toward zero; [ValueError] on NaN, [OverflowError]
    on an infinity. *)
Definition py_int (x : float) : exn + Z :=
  match Prim2SF x with
  | S754_zero _ => inr 0%Z
  | S754_infinity _ => inl OverflowError
  | S754_nan => inl ValueError
  | S754_finite sgn m e =>
      let mag := Z.shiftl (Z.pos m) e in
      inr (if sgn then (- mag)%Z else mag)
  end.

(** [int(n * factor)] for an [int] n and a [float] factor. *)
Definition scaled_size (n : Z) (factor : float) : exn + Z :=
  match Prim2SF (float_of_int n) with
  | S754_infinity _ => inl OverflowError
  | _ => py_int (PrimFloat.mul (float_of_int n) factor)
  end.

(** The value of a finite float as a fraction: numerator and denominator,
    the denominator a power of two. *)
Definition float_value (x : float) : option (Z * Z) :=
  match Prim2SF x with
  | S754_zero _ => Some (0, 1)%Z
  | S754_finite sgn m e =>
      let num := if sgn then Z.neg m else Z.pos m in
      if (0 <=? e)%Z then Some (num * 2 ^ e, 1)%Z
      else Some (num, 2 ^ (- e))%Z
  | _ => None
  end.

(** Truncation of a fraction toward zero. *)
Definition truncate (q : Z * Z) : Z := Z.quot q.1 q.2.

(** *** The metrics handle

    Modelled from the spec: the [CacheMetric] handle returned by
    [register_cache] ([synapse/util/caches/__init__.py] is not among the
    sources).  The spec gives it six operations: [inc_hits], [inc_misses],
    [inc_evictions(cost)], [inc_memory_usage(bytes)],
    [dec_memory_usage(bytes)] and [clear_memory_usage]; they are counters. *)
Record CacheMetric : Type := mkMetric {
  hits : Z;
  misses : Z;
  evicted_size : Z;
  memory_usage : Z
}.

Definition inc_hits (m : CacheMetric) : CacheMetric :=
  mkMetric (hits m + 1) (misses m) (evicted_size m) (memory_usage m).
Definition inc_misses (m : CacheMetric) : CacheMetric :=
  mkMetric (hits m) (misses m + 1) (evicted_size m) (memory_usage m).
Definition inc_evictions (n : Z) (m : CacheMetric) : CacheMetric :=
  mkMetric (hits m) (misses m) (evicted_size m + n) (memory_usage m).
Definition inc_memory_usage (n : Z) (m : CacheMetric) : CacheMetric :=
  mkMetric (hits m) (misses m) (evicted_size m) (memory_usage m + n).
Definition dec_memory_usage (n : Z) (m : CacheMetric) : CacheMetric :=
  mkMetric (hits m) (misses m) (evicted_size m) (memory_usage m - n).
Definition clear_memory_usage (m : CacheMetric) : CacheMetric :=
  mkMetric (hits m) (misses m) (evicted_size m) 0.

(** *** [cache_type]

    What [cache.pop(key)] removes: in a [dict] the stored key equal to
    [key]; in a [TreeCache] (modelled from the spec, see the key index
    below) every stored key that the tuple [key] is a prefix of. *)
Definition dict_covers {K} `{EqDecision K} (k1 k2 : K) : bool :=
  bool_decide (k1 = k2).

Definition tree_covers {A} `{EqDecision A} (p k : list A) : bool :=
  bool_decide (p `prefix_of` k).

(** ** The cache *)

Section LruCache.

Context {K V : Type} `{EqDecision K, EqDecision V}.

(** Constructor arguments and module constants that the closures capture. *)

(** [cache_type]: which stored keys [cache.pop(key)] removes.  For [dict]
    the stored key equal to [key]; for [TreeCache] every stored key that
    [key] is a prefix of. *)
Variable covers : K → K → bool.

(** [size_callback].  It is applied to whatever sits in a node's [value]
    slot, which is [None] for [list_root]. *)
Variable size_callback : option (option V → Z).

(** Which callbacks raise when they are called. *)
Variable raises : Cb → bool.

(** The iteration order of [set(callbacks)] for a collection that is not
    empty. *)
Variable set_order : list Cb → list Cb.

(** [caches.TRACK_MEMORY_USAGE], and the [pympler] estimate that
    [_Node.__init__] stores in [memory]. *)
Variable TRACK_MEMORY_USAGE : bool.
Variable node_size_of : option K → option V → option (list Cb) → Z.

(** [cache_config.properties.default_factor_size]. *)
Variable default_factor_size : float.

(** *** [_Node] *)

Record _Node : Type := mkNode {
  prev_node : nat;
  next_node : nat;
  key : option K;
  value : option V;
  callbacks : option (list Cb);
  memory : Z
}.

#[export] Instance _Node_inhabited : Inhabited _Node :=
  populate (mkNode 0 0 None None None 0).

Definition set_prev_node (p : nat) (n : _Node) : _Node :=
  mkNode p (next_node n) (key n) (value n) (callbacks n) (memory n).
Definition set_next_node (x : nat) (n : _Node) : _Node :=
  mkNode (prev_node n) x (key n) (value n) (callbacks n) (memory n).
Definition set_value (v : option V) (n : _Node) : _Node :=
  mkNode (prev_node n) (next_node n) (key n) v (callbacks n) (memory n).
Definition set_callbacks (c : option (list Cb)) (n : _Node) : _Node :=
  mkNode (prev_node n) (next_node n) (key n) (value n) c (memory n).

(** [_Node.add_callbacks]: nothing for an empty collection; otherwise the
    stored list (a fresh one when it is [None] or empty) gets every callback
    it does not already hold, appended in iteration order. *)
Definition merge_callbacks (cur : option (list Cb)) (cbs : list Cb)
  : option (list Cb) :=
  match cbs with
  | [] => cur
  | _ :: _ =>
      Some (foldl (λ acc c, if decide (c ∈ acc) then acc else acc ++ [c])
                  (default [] cur) cbs)
  end.

(** [_Node.__init__]. *)
Definition new_node (p x : nat) (k : option K) (v : option V)
    (cbs : list Cb) : _Node :=
  let stored := merge_callbacks None cbs in
  mkNode p x k v stored
         (if TRACK_MEMORY_USAGE then node_size_of k v stored else 0%Z).

(** *** The object *)

Record LruCache : Type := mkLru {
  heap : list _Node;                 (* object store; [list_root] is at 0 *)
  cache : list (K * nat);            (* key index, in insertion order *)
  cached_cache_len : Z;              (* [cached_cache_len[0]] *)
  max_size : Z;
  _original_max_size : Z;
  apply_cache_factor_from_config : bool;
  _on_resize : bool;                 (* whether [_on_resize] is set *)
  metrics : option CacheMetric;
  fired : list Cb                    (* callbacks called so far, in order *)
}.

Definition list_root : nat := 0.

Definition upd_heap (f : list _Node → list _Node) (s : LruCache) : LruCache :=
  mkLru (f (heap s)) (cache s) (cached_cache_len s) (max_size s)
        (_original_max_size s) (apply_cache_factor_from_config s)
        (_on_resize s) (metrics s) (fired s).
Definition upd_cache (f : list (K * nat) → list (K * nat)) (s : LruCache)
  : LruCache :=
  mkLru (heap s) (f (cache s)) (cached_cache_len s) (max_size s)
        (_original_max_size s) (apply_cache_factor_from_config s)
        (_on_resize s) (metrics s) (fired s).
Definition upd_cached_len (f : Z → Z) (s : LruCache) : LruCache :=
  mkLru (heap s) (cache s) (f (cached_cache_len s)) (max_size s)
        (_original_max_size s) (apply_cache_factor_from_config s)
        (_on_resize s) (metrics s) (fired s).
Definition set_max_size (n : Z) (s : LruCache) : LruCache :=
  mkLru (heap s) (cache s) (cached_cache_len s) n
        (_original_max_size s) (apply_cache_factor_from_config s)
        (_on_resize s) (metrics s) (fired s).
Definition upd_metrics (f : CacheMetric → CacheMetric) (s : LruCache)
  : LruCache :=
  mkLru (heap s) (cache s) (cached_cache_len s) (max_size s)
        (_original_max_size s) (apply_cache_factor_from_config s)
        (_on_resize s) (f <$> metrics s) (fired s).
Definition log_fired (c : Cb) (s : LruCache) : LruCache :=
  mkLru (heap s) (cache s) (cached_cache_len s) (max_size s)
        (_original_max_size s) (apply_cache_factor_from_config s)
        (_on_resize s) (metrics s) (fired s ++ [c]).

(** Field reads and writes on the object at an address. *)
Definition node_at (s : LruCache) (a : nat) : _Node := heap s !!! a.
Definition upd_node (a : nat) (f : _Node → _Node) (s : LruCache) : LruCache :=
  upd_heap (alter f a) s.

(** *** The key index

    [dict] keeps insertion order, which [cache.values()] exposes.

    Modelled from the spec: the hierarchical index ([TreeCache],
    [synapse/util/caches/treecache.py] is not among the sources).  The spec
    gives it the contract of the flat index plus removal by prefix:
    [remove(prefix)] returns the removed subtree and a companion function
    flattens it into its leaf entries.  Here both indexes are one insertion
    ordered association from full keys to nodes, and they differ in
    [covers] only. *)
Definition index_get (k : K) (c : list (K * nat)) : option nat :=
  snd <$> List.find (λ p, bool_decide (p.1 = k)) c.

Definition index_set (k : K) (a : nat) (c : list (K * nat)) : list (K * nat) :=
  match index_get k c with
  | Some _ => (λ p, if decide (p.1 = k) then (k, a) else p) <$> c
  | None => c ++ [(k, a)]
  end.

(** [cache.pop(key, None)]: the removed entries (none: [None]) and what is
    left.  [iterate_tree_cache_entry] of the result is its nodes. *)
Definition index_pop (k : K) (c : list (K * nat))
  : list (K * nat) * list (K * nat) :=
  (List.filter (λ p, covers k p.1) c, List.filter (λ p, negb (covers k p.1)) c).

Definition iterate_tree_cache_entry (popped : list (K * nat)) : list nat :=
  popped.*2.

(** [cache.pop(node.key, None)] where the key is read from a node: the
    root's key is [None], which no index holds. *)
Definition index_pop_key (k : option K) (c : list (K * nat)) : list (K * nat) :=
  match k with
  | Some k => (index_pop k c).2
  | None => c
  end.

(** *** The monad *)

Inductive outcome (A : Type) : Type :=
| Returns (a : A) (s : LruCache)
| Raises (e : exn) (s : LruCache)
| Diverges.
Arguments Returns {A} a s.
Arguments Raises {A} e s.
Arguments Diverges {A}.

Definition M (A : Type) : Type := LruCache → outcome A.

Definition ret {A} (a : A) : M A := λ s, Returns a s.
Definition bind {A B} (m : M A) (k : A → M B) : M B :=
  λ s, match m s with
       | Returns a s' => k a s'
       | Raises e s' => Raises e s'
       | Diverges => Diverges
       end.
Definition modify (f : LruCache → LruCache) : M unit := λ s, Returns tt (f s).
Definition raise {A} (e : exn) : M A := λ s, Raises e s.

Notation "x ←' m ; k" := (bind m (λ x, k))
  (at level 20, m at level 100, k at level 200, only parsing, right associativity).
Notation "m ;;' k" := (bind m (λ _, k))
  (at level 100, k at level 200, only parsing, right associativity).

(** *** [_Node.run_and_clear_callbacks] *)

Fixpoint run_callbacks (cbs : list Cb) : M unit :=
  match cbs with
  | [] => ret tt
  | c :: rest =>
      λ s, let s' := log_fired c s in
           if raises c then Raises (CallbackError c) s'
           else run_callbacks rest s'
  end.

Definition run_and_clear_callbacks (a : nat) : M unit :=
  λ s, match callbacks (node_at s a) with
       | None | Some [] => Returns tt s
       | Some cbs =>
           (run_callbacks cbs ;;'
            modify (upd_node a (set_callbacks None))) s
       end.

(** *** The closures of [__init__] *)

Definition cache_len (s : LruCache) : Z :=
  match size_callback with
  | Some _ => cached_cache_len s
  | None => Z.of_nat (length (cache s))
  end.

Definition add_node (k : K) (v : V) (cbs : list Cb) : M unit :=
  modify (λ s,
    let prev := list_root in
    let next := next_node (node_at s prev) in
    let node := length (heap s) in
    let s := upd_heap (λ h, h ++ [new_node prev next (Some k) (Some v) cbs]) s in
    let s := upd_node prev (set_next_node node) s in
    let s := upd_node next (set_prev_node node) s in
    let s := upd_cache (index_set k node) s in
    let s := match size_callback with
             | Some f => upd_cached_len (λ n, n + f (value (node_at s node)))%Z s
             | None => s
             end in
    if TRACK_MEMORY_USAGE
    then upd_metrics (inc_memory_usage (memory (node_at s node))) s
    else s).

Definition move_node_to_front (node : nat) : M unit :=
  modify (λ s,
    let prev := prev_node (node_at s node) in
    let next := next_node (node_at s node) in
    let s := upd_node prev (set_next_node next) s in
    let s := upd_node next (set_prev_node prev) s in
    let prev := list_root in
    let next := next_node (node_at s prev) in
    let s := upd_node node (set_prev_node prev) s in
    let s := upd_node node (set_next_node next) s in
    let s := upd_node prev (set_next_node node) s in
    upd_node next (set_prev_node node) s).

(** The assignments of [delete_node] that come before the callbacks. *)
Definition unlink_node (node : nat) (s : LruCache) : LruCache :=
  let prev := prev_node (node_at s node) in
  let next := next_node (node_at s node) in
  let s := upd_node prev (set_next_node next) s in
  upd_node next (set_prev_node prev) s.

Definition deleted_len_of (node : nat) (s : LruCache) : Z :=
  match size_callback with
  | Some f => f (value (node_at s node))
  | None => 1%Z
  end.

Definition delete_node (node : nat) : M Z :=
  λ s,
    let s := unlink_node node s in
    let deleted_len := deleted_len_of node s in
    let s := match size_callback with
             | Some _ => upd_cached_len (λ n, n - deleted_len)%Z s
             | None => s
             end in
    (run_and_clear_callbacks node ;;'
     modify (λ s, if TRACK_MEMORY_USAGE
                  then upd_metrics (dec_memory_usage (memory (node_at s node))) s
                  else s) ;;'
     ret deleted_len) s.

(** [evict]: the [while] loop, one iteration per unit of fuel. *)
Fixpoint evict (fuel : nat) : M unit :=
  λ s,
    if bool_decide (cache_len s > max_size s)%Z then
      match fuel with
      | O => Diverges
      | S fuel' =>
          let todelete := prev_node (node_at s list_root) in
          (evicted_len ←' delete_node todelete ;
           modify (λ s, upd_cache (index_pop_key (key (node_at s todelete))) s) ;;'
           modify (upd_metrics (inc_evictions evicted_len)) ;;'
           evict fuel') s
      end
    else Returns tt s.

Definition cache_get {D} (k : K) (default : D) (cbs : list Cb)
    (update_metrics : bool) : M (looked V D) :=
  λ s, match index_get k (cache s) with
       | Some node =>
           (move_node_to_front node ;;'
            modify (upd_node node (λ n, set_callbacks (merge_callbacks (callbacks n) cbs) n)) ;;'
            modify (λ s, if update_metrics then upd_metrics inc_hits s else s) ;;'
            (λ s, Returns (Found (value (node_at s node))) s)) s
       | None =>
           (modify (λ s, if update_metrics then upd_metrics inc_misses s else s) ;;'
            ret (Default default)) s
       end.

(** [set(callbacks)]: empty for an empty collection. *)
Definition py_set (cbs : list Cb) : list Cb :=
  match cbs with
  | [] => []
  | _ :: _ => set_order cbs
  end.

Definition cache_set (fuel : nat) (k : K) (v : V) (cbs : list Cb) : M unit :=
  λ s, match index_get k (cache s) with
       | Some node =>
           ((if decide (Some v ≠ value (node_at s node))
             then run_and_clear_callbacks node else ret tt) ;;'
            modify (λ s, match size_callback with
                         | Some f =>
                             let s := upd_cached_len (λ n, n - f (value (node_at s node)))%Z s in
                             upd_cached_len (λ n, n + f (Some v))%Z s
                         | None => s
                         end) ;;'
            modify (upd_node node (λ n, set_callbacks (merge_callbacks (callbacks n) cbs) n)) ;;'
            move_node_to_front node ;;'
            modify (upd_node node (set_value (Some v))) ;;'
            evict fuel) s
       | None =>
           (add_node k v (py_set cbs) ;;' evict fuel) s
       end.

Definition cache_set_default (fuel : nat) (k : K) (v : V) : M (option V) :=
  λ s, match index_get k (cache s) with
       | Some node => Returns (value (node_at s node)) s
       | None => (add_node k v [] ;;' evict fuel ;;' ret (Some v)) s
       end.

Definition cache_pop {D} (k : K) (default : D) : M (looked V D) :=
  λ s, match index_get k (cache s) with
       | Some node =>
           (delete_node node ;;'
            modify (λ s, upd_cache (index_pop_key (key (node_at s node))) s) ;;'
            (λ s, Returns (Found (value (node_at s node))) s)) s
       | None => Returns (Default default) s
       end.

Fixpoint delete_nodes (leaves : list nat) : M unit :=
  match leaves with
  | [] => ret tt
  | leaf :: rest => delete_node leaf ;;' delete_nodes rest
  end.

Definition cache_del_multi (k : K) : M unit :=
  λ s, let '(popped, rest) := index_pop k (cache s) in
       match popped with
       | [] => Returns tt s
       | _ :: _ =>
           delete_nodes (iterate_tree_cache_entry popped)
                        (upd_cache (λ _, rest) s)
       end.

Fixpoint clear_callbacks (nodes : list nat) : M unit :=
  match nodes with
  | [] => ret tt
  | node :: rest => run_and_clear_callbacks node ;;' clear_callbacks rest
  end.

Definition cache_clear : M unit :=
  modify (upd_node list_root (set_next_node list_root)) ;;'
  modify (upd_node list_root (set_prev_node list_root)) ;;'
  (λ s, clear_callbacks (cache s).*2 s) ;;'
  modify (upd_cache (λ _, [])) ;;'
  modify (λ s, match size_callback with
               | Some _ => upd_cached_len (λ _, 0%Z) s
               | None => s
               end) ;;'
  modify (λ s, if TRACK_MEMORY_USAGE then upd_metrics clear_memory_usage s else s).

Definition cache_contains (k : K) (s : LruCache) : bool :=
  bool_decide (is_Some (index_get k (cache s))).

(** [LruCache.__init__]: the object as it leaves the constructor. *)
Definition __init__ (size : Z) (cache_name : option string)
    (apply_factor : bool) : exn + LruCache :=
  match (if apply_factor then scaled_size size default_factor_size
         else inr size) with
  | inl e => inl e
  | inr m =>
      inr (mkLru [set_next_node list_root
                    (set_prev_node list_root (new_node 0 0 None None []))]
                 [] 0 m size
                 apply_factor true
                 (match cache_name with
                  | Some _ => Some (mkMetric 0 0 0 0)
                  | None => None
                  end)
                 [])
  end.

(** *** The methods *)

Definition __getitem__ (k : K) : M (option V) :=
  result ←' cache_get k Sentinel [] true ;
  match result with
  | Default Sentinel => raise KeyError
  | Found v => ret v
  end.


(** [def __delitem__(self, key, value)]: the body, for a call that binds
    both parameters. *)
Definition __delitem__ (k : K) (v : V) : M unit :=
  result ←' cache_pop k Sentinel ;
  match result with
  | Default Sentinel => raise KeyError
  | Found _ => ret tt
  end.

(** Binding the positional arguments of a call to a two-parameter method:
    a missing argument is a [TypeError], raised before the body runs. *)
Definition call2 {A B R} (f : A → B → M R) (a : option A) (b : option B)
  : M R :=
  match a, b with
  | Some a, Some b => f a b
  | _, _ => raise TypeError
  end.

(** The statement [del cache[key]], which Python runs as
    [type(cache).__delitem__(cache, key)]. *)
Definition del_subscript (k : K) : M unit :=
  call2 __delitem__ (Some k) None.

Definition __len__ (s : LruCache) : Z := cache_len s.
Definition __contains__ (k : K) (s : LruCache) : bool := cache_contains k s.

Definition set_cache_factor (fuel : nat) (factor : float) : M bool :=
  λ s,
    if negb (apply_cache_factor_from_config s) then Returns false s
    else
      match scaled_size (_original_max_size s) factor with
      | inl e => Raises e s
      | inr new_size =>
          if decide (new_size ≠ max_size s) then
            ((modify (set_max_size new_size)) ;;'
             (λ s, if _on_resize s then evict fuel s else Returns tt s) ;;'
             ret true) s
          else Returns false s
      end.

(** The operations that change the cache, and a run of one of them with
    its result dropped. *)
Inductive op : Type :=
| OpGet (k : K) (cbs : list Cb) (update_metrics : bool)
| OpSet (k : K) (v : V) (cbs : list Cb)
| OpSetDefault (k : K) (v : V)
| OpPop (k : K)
| OpDelMulti (k : K)
| OpClear
| OpSetCacheFactor (factor : float).

Definition exec (fuel : nat) (o : op) : M unit :=
  match o with
  | OpGet k cbs um => cache_get k tt cbs um ;;' ret tt
  | OpSet k v cbs => cache_set fuel k v cbs
  | OpSetDefault k v => cache_set_default fuel k v ;;' ret tt
  | OpPop k => cache_pop k tt ;;' ret tt
  | OpDelMulti k => cache_del_multi k
  | OpClear => cache_clear
  | OpSetCacheFactor factor => set_cache_factor fuel factor ;;' ret tt
  end.

(** Whether a call gets to [evict()]: [set] always does, [setdefault] for
    a key that is not stored, [set_cache_factor] when the new size differs
    from the current one. *)
Definition runs_evict (o : op) (s : LruCache) : bool :=
  match o with
  | OpSet _ _ _ => true
  | OpSetDefault k _ => bool_decide (index_get k (cache s) = None)
  | OpSetCacheFactor factor =>
      apply_cache_factor_from_config s &&
      match scaled_size (_original_max_size s) factor with
      | inr new_size => bool_decide (new_size ≠ max_size s) && _on_resize s
      | inl _ => false
      end
  | _ => false
  end.

(** ** Reading the recency list off the store *)

(** Follow [next_node] from the root until the root comes round again. *)
Fixpoint walk (fuel : nat) (h : list _Node) (a : nat) : list nat :=
  match fuel with
  | O => []
  | S fuel' =>
      if decide (a = list_root) then []
      else a :: walk fuel' h (next_node (h !!! a))
  end.

(** Nodes from most to least recently used. *)
Definition recency (s : LruCache) : list nat :=
  walk (length (heap s)) (heap s) (next_node (node_at s list_root)).

Definition recency_keys (s : LruCache) : list (option K) :=
  (λ a, key (node_at s a)) <$> recency s.

(** [invalidate] is [del_multi] under another name. *)
Definition invalidate : K → M unit := cache_del_multi.

(** What a value [v] weighs once stored. *)
Definition cost_of_value (v : V) : Z :=
  match size_callback with
  | Some f => f (Some v)
  | None => 1%Z
  end.

(** Costs are never negative: one unit per entry, or a [size_callback]
    whose results are not negative. *)
Definition nonneg_costs : Prop :=
  ∀ f, size_callback = Some f → ∀ ov, (0 ≤ f ov)%Z.

(** ** Runs of operations *)

(** [set(k, v)] for each pair in turn, with no callbacks. *)
Fixpoint set_all (fuel : nat) (kvs : list (K * V)) : M unit :=
  match kvs with
  | [] => ret tt
  | (k, v) :: rest => cache_set fuel k v [] ;;' set_all fuel rest
  end.

(** ** Well-formed caches *)

Definition nxt (h : list _Node) (a : nat) : nat := next_node (h !!! a).
Definition prv (h : list _Node) (a : nat) : nat := prev_node (h !!! a).

(** [lseg h x l z]: starting at [x], the [next_node] pointers run through
    [l] and reach [z], and the [prev_node] pointers run back. *)
Fixpoint lseg (h : list _Node) (x : nat) (l : list nat) (z : nat) : Prop :=
  match l with
  | [] => nxt h x = z ∧ prv h z = x
  | y :: l' => nxt h x = y ∧ prv h y = x ∧ lseg h y l' z
  end.

(** The store holds the circular list [list_root, l, list_root]. *)
Definition Repr (h : list _Node) (l : list nat) : Prop :=
  NoDup (list_root :: l) ∧
  Forall (λ a, a < length h) (list_root :: l) ∧
  lseg h list_root l list_root.

(** The index holds exactly the nodes of the list, each under its own key,
    and no stored key covers another one. *)
Definition IndexOK (c : list (K * nat)) (h : list _Node) (l : list nat) : Prop :=
  NoDup c.*1 ∧
  NoDup c.*2 ∧
  Forall (λ a, a ∈ l) c.*2 ∧
  Forall (λ a, a ∈ c.*2) l ∧
  Forall (λ p, key (h !!! p.2) = Some p.1) c ∧
  Forall (λ k, Forall (λ k', covers k k' = true → k = k') c.*1) c.*1.

Definition cost_sum (f : option V → Z) (h : list _Node) (l : list nat) : Z :=
  foldr (λ a acc, f (value (h !!! a)) + acc)%Z 0%Z l.

(** [cached_cache_len[0]] is the sum of the costs of the listed values. *)
Definition CostOK (s : LruCache) (l : list nat) : Prop :=
  match size_callback with
  | Some f => cached_cache_len s = cost_sum f (heap s) l
  | None => True
  end.

Definition Inv (s : LruCache) (l : list nat) : Prop :=
  Repr (heap s) l ∧ IndexOK (cache s) (heap s) l ∧ CostOK s l ∧
  _on_resize s = true.

(** A cache between two operations. *)
Definition wf (s : LruCache) : Prop := Inv s (recency s).

#[export] Instance lseg_dec h x l z : Decision (lseg h x l z).
Proof. revert x; induction l as [|y l IH]; intros x; simpl; apply _. Defined.

#[export] Instance Repr_dec h l : Decision (Repr h l).
Proof. unfold Repr; apply _. Defined.

#[export] Instance IndexOK_dec c h l : Decision (IndexOK c h l).
Proof. unfold IndexOK; apply _. Defined.

#[export] Instance CostOK_dec s l : Decision (CostOK s l).
Proof. unfold CostOK; destruct size_callback; apply _. Defined.

#[export] Instance wf_dec s : Decision (wf s).
Proof. unfold wf, Inv; apply _. Defined.

(** ** The store *)

Section Store.
Implicit Types (h : list _Node) (a x y z : nat) (l : list nat).

Lemma nxt_set_next h a v x :
  nxt (alter (set_next_node v) a h) x
  = if decide (a = x ∧ a < length h) then v else nxt h x.
Proof.
  unfold nxt. rewrite list_lookup_total_alter.
  case_decide as Hc; [by destruct Hc as [-> ?]|done].
Qed.

Lemma prv_set_prev h a v x :
  prv (alter (set_prev_node v) a h) x
  = if decide (a = x ∧ a < length h) then v else prv h x.
Proof.
  unfold prv. rewrite list_lookup_total_alter.
  case_decide as Hc; [by destruct Hc as [-> ?]|done].
Qed.

Lemma next_node_alter f a h x :
  (∀ n, next_node (f n) = next_node n) →
  next_node (alter f a h !!! x) = next_node (h !!! x).
Proof.
  intros Hf. rewrite list_lookup_total_alter.
  case_decide as Hc; [destruct Hc as [-> ?]; apply Hf|done].
Qed.

Lemma prev_node_alter f a h x :
  (∀ n, prev_node (f n) = prev_node n) →
  prev_node (alter f a h !!! x) = prev_node (h !!! x).
Proof.
  intros Hf. rewrite list_lookup_total_alter.
  case_decide as Hc; [destruct Hc as [-> ?]; apply Hf|done].
Qed.

Lemma key_alter f a h x :
  (∀ n, key (f n) = key n) → key (alter f a h !!! x) = key (h !!! x).
Proof.
  intros Hf. rewrite list_lookup_total_alter.
  case_decide as Hc; [destruct Hc as [-> ?]; apply Hf|done].
Qed.

Lemma value_alter f a h x :
  (∀ n, value (f n) = value n) → value (alter f a h !!! x) = value (h !!! x).
Proof.
  intros Hf. rewrite list_lookup_total_alter.
  case_decide as Hc; [destruct Hc as [-> ?]; apply Hf|done].
Qed.

Lemma callbacks_alter f a h x :
  (∀ n, callbacks (f n) = callbacks n) →
  callbacks (alter f a h !!! x) = callbacks (h !!! x).
Proof.
  intros Hf. rewrite list_lookup_total_alter.
  case_decide as Hc; [destruct Hc as [-> ?]; apply Hf|done].
Qed.

Lemma nxt_set_prev h a v x : nxt (alter (set_prev_node v) a h) x = nxt h x.
Proof. by apply next_node_alter. Qed.

Lemma prv_set_next h a v x : prv (alter (set_next_node v) a h) x = prv h x.
Proof. by apply prev_node_alter. Qed.

Lemma last_cons_default {A} (y : A) (l' : list A) (x : A) :
  List.last (y :: l') x = List.last l' y.
Proof.
  revert x y; induction l' as [|w l' IH]; intros x y; [done|].
  change (List.last (y :: w :: l') x) with (List.last (w :: l') x).
  by rewrite !IH.
Qed.

Lemma last_default_elem {A} (l' : list A) (x : A) : List.last l' x ∈ x :: l'.
Proof.
  revert x; induction l' as [|y l' IH]; intros x; [by left|].
  rewrite last_cons_default. right. apply IH.
Qed.

(** *** Segments *)

Lemma lseg_nxt h x l z : lseg h x l z → nxt h x = List.hd z l.
Proof. destruct l; simpl; naive_solver. Qed.

Lemma lseg_prv h x l z : lseg h x l z → prv h z = List.last l x.
Proof.
  revert x; induction l as [|y l IH]; intros x; simpl; [naive_solver|].
  intros (_ & _ & Hl). rewrite (IH _ Hl).
  symmetry. apply (last_cons_default y l x).
Qed.

Lemma lseg_app h x l1 y l2 z :
  lseg h x (l1 ++ y :: l2) z ↔ lseg h x l1 y ∧ lseg h y l2 z.
Proof.
  revert x; induction l1 as [|w l1 IH]; intros x; simpl; [naive_solver|].
  rewrite IH. naive_solver.
Qed.

(** A segment only reads [next_node] of its sources and [prev_node] of its
    targets. *)
Lemma lseg_frame h h' x l z :
  (∀ a, a ∈ x :: l → nxt h' a = nxt h a) →
  (∀ a, a ∈ l ++ [z] → prv h' a = prv h a) →
  lseg h x l z → lseg h' x l z.
Proof.
  revert x; induction l as [|y l IH]; intros x Hn Hp; simpl.
  - intros [H1 H2]. rewrite Hn, Hp by set_solver. done.
  - intros (H1 & H2 & Hl). rewrite Hn, Hp by set_solver.
    split_and!; [done..|].
    apply IH; [| |done]; intros a Ha; [apply Hn|apply Hp]; set_solver.
Qed.

(** Redirecting the end of a segment: its last source now points to [z'],
    and [z'] points back. *)
Lemma lseg_retarget h x l z z' :
  lseg h x l z → NoDup (x :: l) → z' ∉ l →
  List.last l x < length h → z' < length h →
  lseg (alter (set_prev_node (List.last l x)) z'
          (alter (set_next_node z') (List.last l x) h)) x l z'.
Proof.
  revert x; induction l as [|y l IH]; intros x Hl Hnd Hz Hp Hz'.
  - simpl in *.
    rewrite nxt_set_prev, nxt_set_next, prv_set_prev, length_alter.
    rewrite !decide_True by done. done.
  - rewrite last_cons_default in Hp |- *.
    destruct Hl as (Hxy & Hyx & Hl).
    apply NoDup_cons in Hnd as [Hx Hnd].
    simpl; split_and!.
    + rewrite nxt_set_prev, nxt_set_next, decide_False; [done|].
      intros [Heq _]. apply Hx. rewrite <- Heq. apply last_default_elem.
    + rewrite prv_set_prev, decide_False, prv_set_next; [done|].
      intros [-> _]. apply Hz. by left.
    + apply IH; [done..| |done|done]. set_solver.
Qed.

End Store.

(** ** The recency list in the store *)

Section Recency.
Implicit Types (h : list _Node) (a x y z : nat) (l : list nat).

Definition unlink_h (a : nat) (h : list _Node) : list _Node :=
  alter (set_prev_node (prv h a)) (nxt h a)
        (alter (set_next_node (nxt h a)) (prv h a) h).

Definition link_front_h (a : nat) (h : list _Node) : list _Node :=
  alter (set_prev_node a) (nxt h list_root)
        (alter (set_next_node a) list_root h).

Lemma Repr_nil_init n :
  prev_node n = list_root → next_node n = list_root → Repr [n] [].
Proof.
  intros Hp Hn. split_and!.
  - apply NoDup_singleton.
  - repeat constructor.
  - done.
Qed.

Lemma Repr_root_valid h l : Repr h l → list_root < length h.
Proof. intros (_ & Hv & _). by apply Forall_cons in Hv as [? _]. Qed.

Lemma Repr_valid h l a : Repr h l → a ∈ l → a < length h.
Proof.
  intros (_ & Hv & _) Ha. apply Forall_cons in Hv as [_ Hv].
  by apply (proj1 (Forall_forall _ _) Hv).
Qed.

Lemma Repr_not_root h l : Repr h l → list_root ∉ l.
Proof. intros (Hnd & _). by apply NoDup_cons in Hnd as [? _]. Qed.

Lemma Repr_NoDup h l : Repr h l → NoDup l.
Proof. intros (Hnd & _). by apply NoDup_cons in Hnd as [_ ?]. Qed.

Lemma Repr_nxt_root h l : Repr h l → nxt h list_root = List.hd list_root l.
Proof. intros (_ & _ & Hl). by apply lseg_nxt in Hl. Qed.

Lemma Repr_prv_root h l : Repr h l → prv h list_root = List.last l list_root.
Proof. intros (_ & _ & Hl). by apply lseg_prv in Hl. Qed.

Lemma Repr_frame h h' l :
  Repr h l → length h ≤ length h' →
  (∀ a, a ∈ list_root :: l → nxt h' a = nxt h a ∧ prv h' a = prv h a) →
  Repr h' l.
Proof.
  intros (Hnd & Hv & Hl) Hlen Hsame. split_and!; [done| |].
  - eapply Forall_impl; [exact Hv|]. intros a Ha. simpl in *. lia.
  - eapply lseg_frame; [| |exact Hl]; intros a Ha; apply Hsame; set_solver.
Qed.

Lemma Repr_unlink h l1 a l2 :
  Repr h (l1 ++ a :: l2) → Repr (unlink_h a h) (l1 ++ l2).
Proof.
  intros (Hnd & Hv & Hl). unfold unlink_h.
  apply lseg_app in Hl as [Hl1 Hl2].
  rewrite (lseg_prv _ _ _ _ Hl1), (lseg_nxt _ _ _ _ Hl2).
  assert (Hnd' : NoDup (list_root :: l1 ++ l2)).
  { apply NoDup_cons in Hnd as [H0 Hnd]. apply NoDup_cons. split; [set_solver|].
    apply NoDup_app in Hnd as (? & ? & Hnd2). apply NoDup_cons in Hnd2 as [? ?].
    apply NoDup_app. split_and!; [done|set_solver|done]. }
  assert (Hlast : List.last l1 list_root < length h).
  { apply (proj1 (Forall_forall _ _) Hv).
    pose proof (last_default_elem l1 list_root). set_solver. }
  assert (Hvalid : ∀ b, b ∈ list_root :: l1 ++ a :: l2 → b < length h).
  { intros b. by apply (proj1 (Forall_forall _ _) Hv). }
  split_and!; [done| |].
  - rewrite !length_alter. eapply Forall_forall. intros b Hb.
    apply Hvalid. set_solver.
  - apply NoDup_cons in Hnd as [H0 Hnd].
    apply NoDup_app in Hnd as (Hnd1 & Hdisj & Hnd2).
    apply NoDup_cons in Hnd2 as [Ha2 Hnd2].
    destruct l2 as [|n l2]; simpl.
    + rewrite app_nil_r. eapply lseg_retarget; [exact Hl1| | |done|].
      * apply NoDup_cons. set_solver.
      * set_solver.
      * apply Hvalid. set_solver.
    + apply lseg_app. split.
      * eapply lseg_retarget; [exact Hl1| | |done|].
        -- apply NoDup_cons. set_solver.
        -- intros Hn. apply (Hdisj n); set_solver.
        -- apply Hvalid. set_solver.
      * destruct Hl2 as (_ & _ & Hl2).
        apply NoDup_cons in Hnd2 as [Hn2 Hnd2].
        eapply lseg_frame; [| |exact Hl2].
        -- intros b Hb. rewrite nxt_set_prev, nxt_set_next, decide_False; [done|].
           intros [Heq _]. pose proof (last_default_elem l1 list_root) as Hin.
           rewrite Heq in Hin. apply elem_of_cons in Hin as [->|Hin].
           ++ set_solver.
           ++ apply (Hdisj b); set_solver.
        -- intros b Hb. rewrite prv_set_prev, decide_False, prv_set_next; [done|].
           intros [<- _]. set_solver.
Qed.

Lemma Repr_link_front h l a :
  Repr h l → a ∉ list_root :: l → a < length h →
  prv h a = list_root → nxt h a = nxt h list_root →
  Repr (link_front_h a h) (a :: l).
Proof.
  intros HR Ha Hlt Hpa Hna. pose proof HR as (Hnd & Hv & Hl).
  pose proof (Repr_root_valid _ _ HR) as H0.
  unfold link_front_h. split_and!.
  - apply NoDup_cons in Hnd as [? ?]. apply NoDup_cons. split; [set_solver|].
    apply NoDup_cons. set_solver.
  - rewrite !length_alter. apply Forall_cons in Hv as [? ?].
    by repeat (apply Forall_cons; split).
  - assert (Hhd : nxt h list_root ≠ a).
    { rewrite (Repr_nxt_root _ _ HR). destruct l; set_solver. }
    simpl. split_and!.
    + by rewrite nxt_set_prev, nxt_set_next, decide_True.
    + rewrite prv_set_prev, decide_False, prv_set_next; [done|]. by intros [? _].
    + assert (Hnext_a : nxt (alter (set_prev_node a) (nxt h list_root)
                            (alter (set_next_node a) list_root h)) a
                        = nxt h list_root).
      { rewrite nxt_set_prev, nxt_set_next, decide_False; [done|].
        intros [<- _]. set_solver. }
      destruct l as [|n l]; simpl in *.
      * destruct Hl as [Hn0 Hp0]. rewrite Hnext_a. split; [done|].
        rewrite prv_set_prev, decide_True; [done|]. rewrite length_alter. by rewrite Hn0.
      * destruct Hl as (Hn0 & Hpn & Hl). rewrite Hnext_a, Hn0.
        assert (n < length h).
        { apply Forall_cons in Hv as [_ Hv]. by apply Forall_cons in Hv as [? _]. }
        split_and!; [done| |].
        -- rewrite prv_set_prev, decide_True; [done|]. by rewrite length_alter.
        -- apply NoDup_cons in Hnd as [Hr Hnd]. apply NoDup_cons in Hnd as [Hn Hnd].
           eapply lseg_frame; [| |exact Hl].
           ++ intros b Hb. rewrite nxt_set_prev, nxt_set_next, decide_False; [done|].
              intros [<- _]. set_solver.
           ++ intros b Hb. rewrite prv_set_prev, decide_False, prv_set_next; [done|].
              intros [<- _]. set_solver.
Qed.

Lemma NoDup_bounded_length l n :
  NoDup l → Forall (λ a, a < n) l → length l ≤ n.
Proof.
  intros Hnd Hb. assert (Hs : length (seq 0 n) = n) by apply length_seq.
  apply Nat.le_trans with (length (seq 0 n)); [|by rewrite Hs].
  apply submseteq_length.
  apply NoDup_submseteq; [done|]. intros a Ha. apply elem_of_seq.
  pose proof (proj1 (Forall_forall _ _) Hb a Ha). simpl in *. lia.
Qed.

Lemma walk_lseg h fuel x l :
  lseg h x l list_root → list_root ∉ l → length l < fuel →
  walk fuel h (nxt h x) = l.
Proof.
  revert x fuel; induction l as [|y l IH]; intros x fuel Hl H0 Hf.
  - destruct Hl as [-> _]. destruct fuel; [simpl in Hf; lia|done].
  - destruct Hl as (-> & _ & Hl). destruct fuel; [simpl in Hf; lia|].
    simpl. rewrite decide_False by set_solver. f_equal.
    apply IH; [done|set_solver|simpl in Hf; lia].
Qed.

Lemma Repr_walk h l : Repr h l → walk (length h) h (nxt h list_root) = l.
Proof.
  intros (Hnd & Hv & Hl). apply walk_lseg; [done|by apply NoDup_cons in Hnd as [? _]|].
  pose proof (NoDup_bounded_length _ _ Hnd Hv) as Hlen. simpl in Hlen. lia.
Qed.

End Recency.

(** ** The key index *)

Section Index.
Implicit Types (h : list _Node) (a x : nat) (l : list nat)
  (c : list (K * nat)) (k : K).

Lemma index_get_None k c : index_get k c = None ↔ k ∉ c.*1.
Proof.
  unfold index_get. induction c as [|[k' a] c IH]; simpl.
  - split; [set_solver|done].
  - case_bool_decide; simpl in *; [subst; set_solver|].
    rewrite IH. set_solver.
Qed.

Lemma index_get_Some k a c :
  NoDup c.*1 → index_get k c = Some a ↔ (k, a) ∈ c.
Proof.
  unfold index_get. induction c as [|[k' a'] c IH]; simpl; intros Hnd.
  - split; [done|set_solver].
  - apply NoDup_cons in Hnd as [Hk Hnd]. case_bool_decide; simpl in *.
    + subst k'. split; [intros [= ->]; by left|].
      intros [[= ->]|Hin]%elem_of_cons; [done|].
      exfalso. apply Hk. apply list_elem_of_fmap. by exists (k, a).
    + rewrite (IH Hnd). split; [by right|].
      intros [[= -> ->]|Hin]%elem_of_cons; done.
Qed.

Lemma index_set_new k a c :
  index_get k c = None → index_set k a c = c ++ [(k, a)].
Proof. unfold index_set. by intros ->. Qed.

Lemma IndexOK_key c h l k a :
  IndexOK c h l → index_get k c = Some a → a ∈ l ∧ key (h !!! a) = Some k.
Proof.
  intros (Hk & _ & Hin & _ & Hkey & _) Hget.
  apply index_get_Some in Hget; [|done]. split.
  - apply (proj1 (Forall_forall _ _) Hin). apply list_elem_of_fmap. by exists (k, a).
  - by apply (proj1 (Forall_forall _ _) Hkey (k, a)).
Qed.

Lemma IndexOK_lookup c h l a :
  IndexOK c h l → a ∈ l →
  ∃ k, key (h !!! a) = Some k ∧ index_get k c = Some a.
Proof.
  intros (Hk & _ & _ & Hin & Hkey & _) Ha.
  apply (proj1 (Forall_forall _ _) Hin) in Ha.
  apply list_elem_of_fmap in Ha as ([k a'] & -> & Hp). exists k. split.
  - by apply (proj1 (Forall_forall _ _) Hkey (k, a')).
  - by apply index_get_Some.
Qed.

Lemma IndexOK_perm c h l : IndexOK c h l → NoDup l → c.*2 ≡ₚ l.
Proof.
  intros (_ & Hn & Hin & Hin' & _) Hl. apply NoDup_Permutation; [done..|].
  intros a. split; intros Ha.
  - by apply (proj1 (Forall_forall _ _) Hin).
  - by apply (proj1 (Forall_forall _ _) Hin').
Qed.

Lemma IndexOK_length c h l : IndexOK c h l → NoDup l → length c = length l.
Proof.
  intros HI Hl. rewrite <- (IndexOK_perm _ _ _ HI Hl). by rewrite length_fmap.
Qed.

Lemma IndexOK_nil h : IndexOK [] h [].
Proof. unfold IndexOK. simpl. split_and!; constructor. Qed.

(** Pointer updates and reorderings of the list leave the index right. *)
Lemma IndexOK_ext c h h' l l' :
  IndexOK c h l →
  (∀ a, a ∈ l → key (h' !!! a) = key (h !!! a)) →
  (∀ a, a ∈ l' ↔ a ∈ l) →
  IndexOK c h' l'.
Proof.
  intros (Hk & Hn & Hin & Hin' & Hkey & Hac) Hsame Hl. split_and!; [done..| | | |done].
  - eapply Forall_impl; [exact Hin|]. intros a. apply Hl.
  - apply Forall_forall. intros a Ha. apply Hl in Ha.
    by apply (proj1 (Forall_forall _ _) Hin').
  - apply Forall_forall. intros [k a] Hp.
    pose proof (proj1 (Forall_forall _ _) Hkey _ Hp) as Hka. simpl in *.
    rewrite Hsame; [done|]. apply (proj1 (Forall_forall _ _) Hin).
    apply list_elem_of_fmap. by exists (k, a).
Qed.

(** A new node under a new key. *)
Lemma IndexOK_add c h h' l k a :
  (∀ k1 k2, covers k1 k2 = true → k1 = k2) →
  IndexOK c h l → index_get k c = None → a ∉ l →
  key (h' !!! a) = Some k →
  (∀ x, x ∈ l → key (h' !!! x) = key (h !!! x)) →
  IndexOK (index_set k a c) h' (a :: l).
Proof.
  intros Hflat (Hk & Hn & Hin & Hin' & Hkey & Hac) Hget Ha Hka Hsame.
  rewrite index_set_new by done. apply index_get_None in Hget.
  assert (Ha' : a ∉ c.*2).
  { intros Hc. apply Ha. by apply (proj1 (Forall_forall _ _) Hin). }
  unfold IndexOK. rewrite !fmap_app. simpl. split_and!.
  - apply NoDup_app. split_and!; [done|set_solver|apply NoDup_singleton].
  - apply NoDup_app. split_and!; [done|set_solver|apply NoDup_singleton].
  - apply Forall_app. split.
    + eapply Forall_impl; [exact Hin|]. set_solver.
    + repeat constructor.
  - apply Forall_cons. split; [set_solver|].
    eapply Forall_impl; [exact Hin'|]. set_solver.
  - apply Forall_app. split.
    + apply Forall_forall. intros [k' a'] Hp.
      pose proof (proj1 (Forall_forall _ _) Hkey _ Hp) as Hka'. simpl in *.
      rewrite Hsame; [done|]. apply (proj1 (Forall_forall _ _) Hin).
      apply list_elem_of_fmap. by exists (k', a').
    + by repeat constructor.
  - apply Forall_forall. intros k1 _. apply Forall_forall. intros k2 _.
    apply Hflat.
Qed.

(** Removing the entries whose key satisfies [g], and their nodes. *)
Lemma IndexOK_remove (g : K → bool) c h h' l l' :
  IndexOK c h l →
  (∀ a, a ∈ l → key (h' !!! a) = key (h !!! a)) →
  (∀ a, a ∈ l' ↔ a ∈ l ∧ a ∉ (List.filter (λ p, g p.1) c).*2) →
  IndexOK (List.filter (λ p, negb (g p.1)) c) h' l'.
Proof.
  intros (Hk & Hn & Hin & Hin' & Hkey & Hac) Hsame Hl.
  assert (Hsub : ∀ p, p ∈ List.filter (λ p, negb (g p.1)) c → p ∈ c).
  { intros p Hp. apply list_elem_of_In, filter_In in Hp as [Hp _].
    by apply list_elem_of_In. }
  assert (Hsl : ∀ f : K * nat → bool, sublist (List.filter f c) c).
  { intros f. clear. induction c as [|p c IH]; simpl; [done|].
    destruct (f p); by constructor. }
  split_and!.
  - apply (sublist_NoDup _ c.*1 Hk). apply fmap_sublist, Hsl.
  - apply (sublist_NoDup _ c.*2 Hn). apply fmap_sublist, Hsl.
  - apply Forall_forall. intros a Ha.
    apply list_elem_of_fmap in Ha as ([k a'] & -> & Hp). simpl.
    pose proof Hp as Hp'. apply list_elem_of_In, filter_In in Hp' as [Hpc Hg].
    apply list_elem_of_In in Hpc. simpl in Hg.
    apply Hl. split.
    + apply (proj1 (Forall_forall _ _) Hin). apply list_elem_of_fmap. by exists (k, a').
    + intros Hq. apply list_elem_of_fmap in Hq as ([k2 a2] & Heq & Hq). simpl in Heq. subst a2.
      apply list_elem_of_In, filter_In in Hq as [Hq Hg2]. apply list_elem_of_In in Hq.
      simpl in Hg2.
      assert (k2 = k); [|subst k2; by rewrite Hg2 in Hg].
      pose proof (proj1 (Forall_forall _ _) Hkey _ Hq) as H1.
      pose proof (proj1 (Forall_forall _ _) Hkey _ Hpc) as H2. simpl in *. congruence.
  - apply Forall_forall. intros a Ha. apply Hl in Ha as [Ha Hna].
    apply (proj1 (Forall_forall _ _) Hin') in Ha.
    apply list_elem_of_fmap in Ha as ([k a'] & -> & Hp). simpl in *.
    apply list_elem_of_fmap. exists (k, a'). split; [done|].
    apply list_elem_of_In, filter_In. split; [by apply list_elem_of_In|]. simpl.
    destruct (g k) eqn:Hg; [|done]. exfalso. apply Hna.
    apply list_elem_of_fmap. exists (k, a'). split; [done|].
    apply list_elem_of_In, filter_In. split; [by apply list_elem_of_In|done].
  - apply Forall_forall. intros [k a] Hp.
    pose proof (proj1 (Forall_forall _ _) Hkey _ (Hsub _ Hp)) as Hka. simpl in *.
    rewrite Hsame; [done|]. apply (proj1 (Forall_forall _ _) Hin).
    apply list_elem_of_fmap. exists (k, a). split; [done|]. by apply Hsub.
  - assert (Hsubk : ∀ k, k ∈ (List.filter (λ p, negb (g p.1)) c).*1 → k ∈ c.*1).
    { intros k Hk'. apply list_elem_of_fmap in Hk' as (p & -> & Hp).
      apply list_elem_of_fmap. exists p. split; [done|]. by apply Hsub. }
    apply Forall_forall. intros k1 Hk1. apply Forall_forall. intros k2 Hk2.
    apply Hsubk in Hk1, Hk2.
    by apply (proj1 (Forall_forall _ _) (proj1 (Forall_forall _ _) Hac _ Hk1)).
Qed.

(** With reflexive [covers] and no stored key covering another, popping a
    stored key removes that key and nothing else. *)
Lemma IndexOK_pop_one c h l k a :
  (∀ k, covers k k = true) →
  IndexOK c h l → index_get k c = Some a →
  List.filter (λ p, covers k p.1) c = [(k, a)].
Proof.
  intros Hrefl (Hk & _ & _ & _ & _ & Hac) Hget.
  apply index_get_Some in Hget; [|done].
  assert (Hkin : k ∈ c.*1) by (apply list_elem_of_fmap; by exists (k, a)).
  assert (Hcov : ∀ p, p ∈ c → covers k p.1 = true → p.1 = k).
  { intros p Hp Hc. symmetry.
    apply (proj1 (Forall_forall _ _) (proj1 (Forall_forall _ _) Hac _ Hkin)); [|done].
    apply list_elem_of_fmap. by exists p. }
  clear Hac Hkin. induction c as [|[k' a'] c IH]; [set_solver|].
  simpl in *. apply NoDup_cons in Hk as [Hk' Hk].
  apply elem_of_cons in Hget as [[= <- <-]|Hget].
  - rewrite Hrefl. f_equal.
    assert (Hnone : ∀ p, p ∈ c → covers k p.1 = false).
    { intros p Hp. destruct (covers k p.1) eqn:Hc; [|done].
      exfalso. apply Hk'. apply list_elem_of_fmap. exists p. split; [|done].
      symmetry. apply Hcov; [by right|done]. }
    clear -Hnone. induction c as [|p c IH]; [done|]. simpl.
    rewrite Hnone by (by left). apply IH. intros q Hq. apply Hnone. by right.
  - destruct (covers k k') eqn:Hc.
    + exfalso. apply Hk'. apply list_elem_of_fmap. exists (k, a). split; [|done].
      simpl. apply (Hcov (k', a')); [by left|done].
    + apply IH; [done..|]. intros p Hp. apply Hcov. by right.
Qed.

(** *** Costs *)

Lemma cost_sum_app f h l1 l2 :
  cost_sum f h (l1 ++ l2) = (cost_sum f h l1 + cost_sum f h l2)%Z.
Proof. induction l1 as [|a l1 IH]; simpl; [done|]. rewrite IH. lia. Qed.

Lemma cost_sum_ext f h h' l :
  (∀ a, a ∈ l → value (h' !!! a) = value (h !!! a)) →
  cost_sum f h' l = cost_sum f h l.
Proof.
  induction l as [|a l IH]; intros Hs; simpl; [done|].
  rewrite Hs by (by left). rewrite IH; [done|]. intros b Hb. apply Hs. by right.
Qed.

Lemma cost_sum_nonneg f h l : (∀ ov, 0 ≤ f ov)%Z → (0 ≤ cost_sum f h l)%Z.
Proof.
  intros Hf. induction l as [|a l IH]; simpl; [done|].
  pose proof (Hf (value (h !!! a))). lia.
Qed.

End Index.

(** ** Moving, adding and removing nodes *)

Section Nodes.
Implicit Types (h : list _Node) (a x : nat) (l : list nat).

(** The pointer assignments of [move_node_to_front]. *)
Definition mtf_h (a : nat) (h : list _Node) : list _Node :=
  let h1 := unlink_h a h in
  let next := nxt h1 list_root in
  alter (set_prev_node a) next
    (alter (set_next_node a) list_root
       (alter (set_next_node next) a (alter (set_prev_node list_root) a h1))).

(** The allocation and the pointer assignments of [add_node]. *)
Definition add_h (nd : _Node) (h : list _Node) : list _Node :=
  alter (set_prev_node (length h)) (nxt h list_root)
    (alter (set_next_node (length h)) list_root (h ++ [nd])).

(** The callbacks a node holds, [None] read as none. *)
Definition cbs_of (h : list _Node) (a : nat) : list Cb :=
  default [] (callbacks (h !!! a)).

Definition merged (old new : list Cb) : list Cb :=
  foldl (λ acc c, if decide (c ∈ acc) then acc else acc ++ [c]) old new.

Lemma merge_callbacks_default cur new :
  default [] (merge_callbacks cur new) = merged (default [] cur) new.
Proof. by destruct new. Qed.

Lemma filter_ne_split l1 a l2 :
  NoDup (l1 ++ a :: l2) → filter (λ x, x ≠ a) (l1 ++ a :: l2) = l1 ++ l2.
Proof.
  intros Hnd. apply NoDup_app in Hnd as (_ & Hd & Hnd).
  apply NoDup_cons in Hnd as [Ha _].
  rewrite filter_app, filter_cons_False by (intros Hc; by apply Hc).
  f_equal.
  - clear -Hd. induction l1 as [|b l1 IH]; [done|].
    rewrite filter_cons_True by (intros ->; apply (Hd a); set_solver).
    f_equal. apply IH. intros x Hx. apply Hd. by right.
  - clear -Ha. induction l2 as [|b l2 IH]; [done|].
    rewrite filter_cons_True by (intros ->; apply Ha; by left).
    f_equal. apply IH. set_solver.
Qed.

Lemma unlink_h_key a h x : key (unlink_h a h !!! x) = key (h !!! x).
Proof. unfold unlink_h. by rewrite !key_alter. Qed.
Lemma unlink_h_value a h x : value (unlink_h a h !!! x) = value (h !!! x).
Proof. unfold unlink_h. by rewrite !value_alter. Qed.
Lemma unlink_h_callbacks a h x :
  callbacks (unlink_h a h !!! x) = callbacks (h !!! x).
Proof. unfold unlink_h. by rewrite !callbacks_alter. Qed.
Lemma unlink_h_length a h : length (unlink_h a h) = length h.
Proof. unfold unlink_h. by rewrite !length_alter. Qed.

Lemma mtf_h_key a h x : key (mtf_h a h !!! x) = key (h !!! x).
Proof. unfold mtf_h. rewrite !key_alter by done. apply unlink_h_key. Qed.
Lemma mtf_h_value a h x : value (mtf_h a h !!! x) = value (h !!! x).
Proof. unfold mtf_h. rewrite !value_alter by done. apply unlink_h_value. Qed.
Lemma mtf_h_callbacks a h x :
  callbacks (mtf_h a h !!! x) = callbacks (h !!! x).
Proof. unfold mtf_h. rewrite !callbacks_alter by done. apply unlink_h_callbacks. Qed.
Lemma mtf_h_length a h : length (mtf_h a h) = length h.
Proof. unfold mtf_h. rewrite !length_alter. apply unlink_h_length. Qed.

Lemma Repr_unlink_filter h l a :
  Repr h l → a ∈ l → Repr (unlink_h a h) (filter (λ x, x ≠ a) l).
Proof.
  intros HR Ha. apply list_elem_of_split in Ha as (l1 & l2 & ->).
  rewrite filter_ne_split by (by apply Repr_NoDup in HR).
  by apply Repr_unlink.
Qed.

Lemma Repr_mtf h l1 a l2 :
  Repr h (l1 ++ a :: l2) → Repr (mtf_h a h) (a :: l1 ++ l2).
Proof.
  intros HR. pose proof (Repr_unlink _ _ _ _ HR) as HR1.
  assert (Ha : a ∉ list_root :: l1 ++ l2).
  { destruct HR as (Hnd & _). apply NoDup_cons in Hnd as [H0 Hnd].
    apply NoDup_app in Hnd as (_ & Hd & Hnd). apply NoDup_cons in Hnd as [Ha _].
    intros [->|[Hin|Hin]%elem_of_app]%elem_of_cons.
    - apply H0. set_solver.
    - apply (Hd a Hin). by left.
    - done. }
  assert (Hlt : a < length h) by (apply (Repr_valid _ _ _ HR); set_solver).
  unfold mtf_h.
  set (h1 := unlink_h a h) in *.
  set (h3 := alter (set_next_node (nxt h1 list_root)) a
               (alter (set_prev_node list_root) a h1)).
  assert (Hlen3 : length h3 = length h1) by (unfold h3; by rewrite !length_alter).
  assert (Hlen1 : length h1 = length h) by apply unlink_h_length.
  assert (Hn0 : nxt h3 list_root = nxt h1 list_root).
  { unfold h3. rewrite nxt_set_next, decide_False, nxt_set_prev; [done|].
    intros [-> _]. apply Ha. by left. }
  assert (HR3 : Repr h3 (l1 ++ l2)).
  { eapply Repr_frame; [exact HR1|lia|]. intros b Hb. unfold h3. split.
    - rewrite nxt_set_next, decide_False, nxt_set_prev; [done|].
      intros [-> _]. by apply Ha.
    - rewrite prv_set_next, prv_set_prev, decide_False; [done|].
      intros [-> _]. by apply Ha. }
  rewrite <- Hn0. apply Repr_link_front; [done|done|lia| |].
  - unfold h3. rewrite prv_set_next, prv_set_prev, decide_True; [done|]. split; [done|lia].
  - rewrite Hn0. unfold h3. rewrite nxt_set_next, decide_True; [done|].
    split; [done|]. rewrite length_alter. lia.
Qed.

Lemma Repr_mtf_filter h l a :
  Repr h l → a ∈ l → Repr (mtf_h a h) (a :: filter (λ x, x ≠ a) l).
Proof.
  intros HR Ha. apply list_elem_of_split in Ha as (l1 & l2 & ->).
  rewrite filter_ne_split by (by apply Repr_NoDup in HR).
  by apply Repr_mtf.
Qed.

Lemma add_h_length nd h : length (add_h nd h) = S (length h).
Proof. unfold add_h. rewrite !length_alter, length_app. simpl. lia. Qed.

Lemma add_h_lookup_new nd h :
  key (add_h nd h !!! length h) = key nd ∧
  value (add_h nd h !!! length h) = value nd ∧
  callbacks (add_h nd h !!! length h) = callbacks nd.
Proof.
  unfold add_h.
  rewrite !key_alter, !value_alter, !callbacks_alter by done.
  by rewrite list_lookup_total_middle.
Qed.

Lemma add_h_lookup_old nd h x :
  x < length h →
  key (add_h nd h !!! x) = key (h !!! x) ∧
  value (add_h nd h !!! x) = value (h !!! x) ∧
  callbacks (add_h nd h !!! x) = callbacks (h !!! x).
Proof.
  intros Hx. unfold add_h.
  rewrite !key_alter, !value_alter, !callbacks_alter by done.
  by rewrite lookup_total_app_l.
Qed.

Lemma Repr_add nd h l :
  Repr h l → prev_node nd = list_root → next_node nd = nxt h list_root →
  Repr (add_h nd h) (length h :: l).
Proof.
  intros HR Hp Hn. pose proof (Repr_root_valid _ _ HR) as H0.
  assert (Hn0 : nxt (h ++ [nd]) list_root = nxt h list_root).
  { unfold nxt. by rewrite lookup_total_app_l. }
  unfold add_h. rewrite <- Hn0. apply Repr_link_front.
  - eapply Repr_frame; [exact HR|rewrite length_app; lia|].
    intros b Hb. unfold nxt, prv. rewrite lookup_total_app_l; [done|].
    destruct HR as (_ & Hv & _). by apply (proj1 (Forall_forall _ _) Hv).
  - intros Hin. destruct HR as (_ & Hv & _).
    apply (proj1 (Forall_forall _ _) Hv) in Hin. simpl in Hin. lia.
  - rewrite length_app. simpl. lia.
  - unfold prv. by rewrite list_lookup_total_middle.
  - rewrite Hn0. unfold nxt at 1. by rewrite list_lookup_total_middle.
Qed.

End Nodes.

(** ** Callbacks and [delete_node] *)

Section Delete.
Implicit Types (h : list _Node) (a x : nat) (l : list nat) (s : LruCache).

Lemma memory_alter f a h x :
  (∀ n, memory (f n) = memory n) → memory (alter f a h !!! x) = memory (h !!! x).
Proof.
  intros Hf. rewrite list_lookup_total_alter.
  case_decide as Hc; [destruct Hc as [-> ?]; apply Hf|done].
Qed.

Lemma LruCache_eta s :
  s = mkLru (heap s) (cache s) (cached_cache_len s) (max_size s)
        (_original_max_size s) (apply_cache_factor_from_config s)
        (_on_resize s) (metrics s) (fired s).
Proof. by destruct s. Qed.

Definition add_fired (cs : list Cb) (s : LruCache) : LruCache :=
  mkLru (heap s) (cache s) (cached_cache_len s) (max_size s)
        (_original_max_size s) (apply_cache_factor_from_config s)
        (_on_resize s) (metrics s) (fired s ++ cs).

(** The callbacks that get called out of a list: all of them up to and
    including the first one that raises. *)
Fixpoint called (cbs : list Cb) : list Cb :=
  match cbs with
  | [] => []
  | c :: rest => c :: (if raises c then [] else called rest)
  end.

Lemma called_no_raise cbs : List.find raises cbs = None → called cbs = cbs.
Proof.
  induction cbs as [|c cbs IH]; simpl; [done|].
  destruct (raises c); [done|]. intros Hf. by rewrite IH.
Qed.

Lemma find_never_raises cbs : (∀ c, raises c = false) → List.find raises cbs = None.
Proof.
  intros Hq. induction cbs as [|c cbs IH]; simpl; [done|]. by rewrite Hq.
Qed.

Lemma run_callbacks_eq cbs s :
  run_callbacks cbs s =
  match List.find raises cbs with
  | Some c => Raises (CallbackError c) (add_fired (called cbs) s)
  | None => Returns tt (add_fired cbs s)
  end.
Proof.
  revert s; induction cbs as [|c cbs IH]; intros s; simpl.
  - unfold ret, add_fired. rewrite app_nil_r. by rewrite <- LruCache_eta.
  - destruct (raises c) eqn:Hc; [done|]. rewrite IH.
    assert (Hlog : ∀ cs, add_fired cs (log_fired c s) = add_fired (c :: cs) s).
    { intros cs. unfold add_fired, log_fired. simpl. by rewrite <- app_assoc. }
    by rewrite !Hlog.
Qed.

Definition clear_cb_h (a : nat) (h : list _Node) : list _Node :=
  match callbacks (h !!! a) with
  | None | Some [] => h
  | Some (_ :: _) => alter (set_callbacks None) a h
  end.

Lemma run_and_clear_callbacks_eq a s :
  run_and_clear_callbacks a s =
  match List.find raises (cbs_of (heap s) a) with
  | Some c => Raises (CallbackError c) (add_fired (called (cbs_of (heap s) a)) s)
  | None => Returns tt (upd_heap (clear_cb_h a) (add_fired (cbs_of (heap s) a) s))
  end.
Proof.
  unfold run_and_clear_callbacks, cbs_of, clear_cb_h, node_at.
  destruct (callbacks (heap s !!! a)) as [[|c cbs]|] eqn:Hcb.
  - unfold upd_heap, add_fired. simpl. rewrite Hcb, app_nil_r. by rewrite <- LruCache_eta.
  - unfold bind. rewrite run_callbacks_eq. cbn [default id].
    destruct (List.find raises (c :: cbs)); [done|].
    unfold modify, upd_node, upd_heap, add_fired. simpl. by rewrite Hcb.
  - unfold upd_heap, add_fired. simpl. rewrite Hcb, app_nil_r. by rewrite <- LruCache_eta.
Qed.

Lemma clear_cb_h_length a h : length (clear_cb_h a h) = length h.
Proof. unfold clear_cb_h. repeat case_match; by rewrite ?length_alter. Qed.
Lemma clear_cb_h_next a h x : next_node (clear_cb_h a h !!! x) = next_node (h !!! x).
Proof. unfold clear_cb_h. repeat case_match; by rewrite ?next_node_alter. Qed.
Lemma clear_cb_h_prev a h x : prev_node (clear_cb_h a h !!! x) = prev_node (h !!! x).
Proof. unfold clear_cb_h. repeat case_match; by rewrite ?prev_node_alter. Qed.
Lemma clear_cb_h_key a h x : key (clear_cb_h a h !!! x) = key (h !!! x).
Proof. unfold clear_cb_h. repeat case_match; by rewrite ?key_alter. Qed.
Lemma clear_cb_h_value a h x : value (clear_cb_h a h !!! x) = value (h !!! x).
Proof. unfold clear_cb_h. repeat case_match; by rewrite ?value_alter. Qed.
Lemma clear_cb_h_memory a h x : memory (clear_cb_h a h !!! x) = memory (h !!! x).
Proof. unfold clear_cb_h. repeat case_match; by rewrite ?memory_alter. Qed.

Lemma clear_cb_h_cbs_ne a h x : x ≠ a → cbs_of (clear_cb_h a h) x = cbs_of h x.
Proof.
  intros Hx. unfold clear_cb_h, cbs_of. repeat case_match; try done.
  by rewrite list_lookup_total_alter_ne.
Qed.

Lemma clear_cb_h_cbs_eq a h : a < length h → cbs_of (clear_cb_h a h) a = [].
Proof.
  intros Ha. unfold clear_cb_h, cbs_of.
  destruct (callbacks (h !!! a)) as [[|c cbs]|] eqn:Hcb; simpl.
  - by rewrite Hcb.
  - by rewrite list_lookup_total_alter_eq.
  - by rewrite Hcb.
Qed.

Lemma unlink_h_memory a h x : memory (unlink_h a h !!! x) = memory (h !!! x).
Proof. unfold unlink_h. by rewrite !memory_alter. Qed.

Lemma unlink_h_cbs a h x : cbs_of (unlink_h a h) x = cbs_of h x.
Proof. unfold cbs_of. by rewrite unlink_h_callbacks. Qed.

(** What a node weighs in [cache_len]. *)
Definition node_cost (h : list _Node) (a : nat) : Z :=
  match size_callback with
  | Some f => f (value (h !!! a))
  | None => 1%Z
  end.

Definition less_cost (h : list _Node) (a : nat) (n : Z) : Z :=
  match size_callback with
  | Some f => (n - f (value (h !!! a)))%Z
  | None => n
  end.

(** The cache after [delete_node a] has run to its end. *)
Definition deleted (a : nat) (s : LruCache) : LruCache :=
  mkLru (clear_cb_h a (unlink_h a (heap s))) (cache s)
        (less_cost (heap s) a (cached_cache_len s))
        (max_size s) (_original_max_size s)
        (apply_cache_factor_from_config s) (_on_resize s)
        (if TRACK_MEMORY_USAGE
         then dec_memory_usage (memory (heap s !!! a)) <$> metrics s
         else metrics s)
        (fired s ++ cbs_of (heap s) a).

(** The cache as [delete_node a] leaves it when a callback raises. *)
Definition interrupted (a : nat) (s : LruCache) : LruCache :=
  mkLru (unlink_h a (heap s)) (cache s)
        (less_cost (heap s) a (cached_cache_len s))
        (max_size s) (_original_max_size s)
        (apply_cache_factor_from_config s) (_on_resize s)
        (metrics s)
        (fired s ++ called (cbs_of (heap s) a)).

Lemma delete_node_eq a s :
  delete_node a s =
  match List.find raises (cbs_of (heap s) a) with
  | Some c => Raises (CallbackError c) (interrupted a s)
  | None => Returns (node_cost (heap s) a) (deleted a s)
  end.
Proof.
  unfold delete_node, bind. rewrite run_and_clear_callbacks_eq.
  unfold deleted_len_of, interrupted, deleted, less_cost, node_cost, node_at.
  change (heap (unlink_node a s)) with (unlink_h a (heap s)).
  destruct size_callback as [f|] eqn:Hsz.
  - cbn [heap upd_cached_len]. change (heap (unlink_node a s)) with (unlink_h a (heap s)).
    rewrite unlink_h_cbs, unlink_h_value.
    destruct (List.find raises (cbs_of (heap s) a)); [done|].
    unfold modify, ret, node_at. cbn [heap upd_heap add_fired upd_cached_len].
    rewrite clear_cb_h_memory.
    change (heap (unlink_node a s)) with (unlink_h a (heap s)).
    rewrite unlink_h_memory.
    destruct TRACK_MEMORY_USAGE; done.
  - change (heap (unlink_node a s)) with (unlink_h a (heap s)).
    rewrite unlink_h_cbs.
    destruct (List.find raises (cbs_of (heap s) a)); [done|].
    unfold modify, ret, node_at. cbn [heap upd_heap add_fired upd_cached_len].
    rewrite clear_cb_h_memory.
    change (heap (unlink_node a s)) with (unlink_h a (heap s)).
    rewrite unlink_h_memory.
    destruct TRACK_MEMORY_USAGE; done.
Qed.

End Delete.

(** ** Removing an entry *)

Section Remove.
Implicit Types (h : list _Node) (a x : nat) (l : list nat) (s : LruCache).

(** [cache_len] read off the list. *)
Definition len_of (h : list _Node) (l : list nat) : Z :=
  match size_callback with
  | Some f => cost_sum f h l
  | None => Z.of_nat (length l)
  end.

Lemma Inv_cache_len s l : Inv s l → cache_len s = len_of (heap s) l.
Proof.
  intros (HR & HI & HC & _). unfold cache_len, len_of, CostOK in *.
  destruct size_callback; [done|].
  by rewrite (IndexOK_length _ _ _ HI (Repr_NoDup _ _ HR)).
Qed.

Lemma Inv_wf s l : Inv s l → wf s.
Proof.
  intros HI. unfold wf, recency, node_at.
  pose proof HI as (HR & _). fold (nxt (heap s) list_root).
  by rewrite (Repr_walk _ _ HR).
Qed.

Lemma Inv_recency s l : Inv s l → recency s = l.
Proof. intros (HR & _). unfold recency. by apply Repr_walk. Qed.

Lemma wf_Inv s : wf s → Inv s (recency s).
Proof. done. Qed.

Lemma cost_sum_remove f h l a :
  NoDup l → a ∈ l →
  cost_sum f h (filter (λ x, x ≠ a) l) = (cost_sum f h l - f (value (h !!! a)))%Z.
Proof.
  intros Hnd Ha. apply list_elem_of_split in Ha as (l1 & l2 & ->).
  rewrite filter_ne_split by done. rewrite !cost_sum_app. simpl. lia.
Qed.

Lemma deleted_Repr a s l :
  Repr (heap s) l → a ∈ l → Repr (heap (deleted a s)) (filter (λ x, x ≠ a) l).
Proof.
  intros HR Ha. simpl.
  pose proof (Repr_unlink_filter _ _ _ HR Ha) as HR1.
  eapply Repr_frame; [exact HR1| |].
  - by rewrite clear_cb_h_length.
  - intros b _. unfold nxt, prv. by rewrite clear_cb_h_next, clear_cb_h_prev.
Qed.

(** The cache after the entry of node [a] is gone from list and index:
    [delete_node] followed by [cache.pop(node.key, None)]. *)
Definition removed (a : nat) (s : LruCache) : LruCache :=
  upd_cache (index_pop_key (key (heap s !!! a))) (deleted a s).

Lemma removed_Inv a s l :
  (∀ k, covers k k = true) →
  Inv s l → a ∈ l → Inv (removed a s) (filter (λ x, x ≠ a) l).
Proof.
  intros Hrefl (HR & HI & HC & Hres) Ha.
  destruct (IndexOK_lookup _ _ _ _ HI Ha) as (k & Hk & Hget).
  unfold removed. rewrite Hk. split_and!.
  - by apply deleted_Repr.
  - simpl. apply (IndexOK_remove (covers k) _ (heap s) _ l); [done| |].
    + intros b _. by rewrite clear_cb_h_key, unlink_h_key.
    + intros b. rewrite (IndexOK_pop_one _ _ _ _ _ Hrefl HI Hget). simpl.
      rewrite list_elem_of_filter. set_solver.
  - unfold CostOK in *. simpl. unfold less_cost.
    destruct size_callback as [f|]; [|done].
    rewrite HC. rewrite <- (cost_sum_remove f (heap s) l a);
      [|by apply Repr_NoDup in HR|done].
    symmetry. apply cost_sum_ext. intros b _.
    by rewrite clear_cb_h_value, unlink_h_value.
  - done.
Qed.

Lemma Inv_upd_metrics g s l : Inv s l → Inv (upd_metrics g s) l.
Proof. done. Qed.

Lemma removed_entry a s x :
  key (heap (removed a s) !!! x) = key (heap s !!! x) ∧
  value (heap (removed a s) !!! x) = value (heap s !!! x) ∧
  (x ≠ a → cbs_of (heap (removed a s)) x = cbs_of (heap s) x).
Proof.
  simpl. rewrite clear_cb_h_key, unlink_h_key, clear_cb_h_value, unlink_h_value.
  split_and!; [done..|]. intros Hx.
  by rewrite clear_cb_h_cbs_ne, unlink_h_cbs.
Qed.

Lemma cache_pop_eq {D} k (d : D) s :
  cache_pop k d s =
  match index_get k (cache s) with
  | Some a =>
      match List.find raises (cbs_of (heap s) a) with
      | Some c => Raises (CallbackError c) (interrupted a s)
      | None => Returns (Found (value (heap s !!! a))) (removed a s)
      end
  | None => Returns (Default d) s
  end.
Proof.
  unfold cache_pop. destruct (index_get k (cache s)) as [a|]; [|done].
  unfold bind. rewrite delete_node_eq.
  destruct (List.find raises (cbs_of (heap s) a)); [done|].
  unfold modify, removed, node_at. simpl.
  by rewrite !clear_cb_h_key, !unlink_h_key, clear_cb_h_value, unlink_h_value.
Qed.

(** One turn of the loop of [evict]. *)
Definition evicted (s : LruCache) : LruCache :=
  let a := prv (heap s) list_root in
  upd_metrics (inc_evictions (node_cost (heap s) a)) (removed a s).

Lemma evict_step fuel s :
  (cache_len s > max_size s)%Z →
  evict (S fuel) s =
  match List.find raises (cbs_of (heap s) (prv (heap s) list_root)) with
  | Some c => Raises (CallbackError c) (interrupted (prv (heap s) list_root) s)
  | None => evict fuel (evicted s)
  end.
Proof.
  intros Hgt. cbn [evict]. rewrite bool_decide_eq_true_2 by done.
  unfold bind, node_at. fold (prv (heap s) list_root). rewrite delete_node_eq.
  destruct (List.find raises (cbs_of (heap s) (prv (heap s) list_root))); [done|].
  unfold modify, evicted, removed, node_at. simpl.
  by rewrite !clear_cb_h_key, !unlink_h_key.
Qed.

Lemma evict_done fuel s :
  ¬ (cache_len s > max_size s)%Z → evict fuel s = Returns tt s.
Proof. intros Hle. destruct fuel; simpl; by rewrite bool_decide_eq_false_2. Qed.

Lemma evict_out_of_fuel s :
  (cache_len s > max_size s)%Z → evict 0 s = Diverges.
Proof. intros Hgt. simpl. by rewrite bool_decide_eq_true_2. Qed.

Lemma evict_max_size fuel s s' :
  evict fuel s = Returns tt s' → max_size s' = max_size s.
Proof.
  revert s. induction fuel as [|fuel IH]; intros s Hev.
  - destruct (decide (cache_len s > max_size s)%Z) as [Hgt|Hle].
    + by rewrite evict_out_of_fuel in Hev.
    + rewrite evict_done in Hev by done. by injection Hev as <-.
  - destruct (decide (cache_len s > max_size s)%Z) as [Hgt|Hle].
    + rewrite evict_step in Hev by done.
      destruct (List.find raises _); [done|]. by apply IH in Hev.
    + rewrite evict_done in Hev by done. by injection Hev as <-.
Qed.

Lemma evict_Raises_max_size fuel s e s' :
  evict fuel s = Raises e s' → max_size s' = max_size s.
Proof.
  revert s. induction fuel as [|fuel IH]; intros s Hev.
  - destruct (decide (cache_len s > max_size s)%Z) as [Hgt|Hle].
    + by rewrite evict_out_of_fuel in Hev.
    + by rewrite evict_done in Hev.
  - destruct (decide (cache_len s > max_size s)%Z) as [Hgt|Hle].
    + rewrite evict_step in Hev by done.
      destruct (List.find raises _); [by injection Hev as _ <-|].
      by apply IH in Hev.
    + by rewrite evict_done in Hev.
Qed.

Lemma evicted_Inv s l a :
  (∀ k, covers k k = true) →
  Inv s (l ++ [a]) → Inv (evicted s) l.
Proof.
  intros Hrefl HI. pose proof HI as (HR & _).
  unfold evicted. rewrite (Repr_prv_root _ _ HR), last_last.
  apply Inv_upd_metrics.
  assert (Hf : filter (λ x, x ≠ a) (l ++ [a]) = l).
  { rewrite (filter_ne_split l a []), app_nil_r; [done|]. by apply Repr_NoDup in HR. }
  pose proof (removed_Inv a s _ Hrefl HI) as Hrem. rewrite Hf in Hrem.
  apply Hrem. set_solver.
Qed.

End Remove.

(** ** The eviction loop *)

Section Evict.
Implicit Types (h : list _Node) (a x : nat) (l : list nat) (s : LruCache).

Lemma len_of_ext h h' l :
  (∀ a, value (h' !!! a) = value (h !!! a)) → len_of h' l = len_of h l.
Proof.
  intros Hv. unfold len_of. destruct size_callback; [|done].
  apply cost_sum_ext. intros a _. apply Hv.
Qed.

Lemma elem_of_drop_in {A} (x : A) n (l' : list A) : x ∈ drop n l' → x ∈ l'.
Proof.
  revert n; induction l' as [|y l' IH]; intros [|n]; simpl; try done.
  intros Hx. right. by apply (IH n).
Qed.

Lemma elem_of_take_in {A} (x : A) n (l' : list A) : x ∈ take n l' → x ∈ l'.
Proof.
  intros (i & Hi & _)%elem_of_take. by apply list_elem_of_lookup_2 in Hi.
Qed.

Lemma evicted_frame s :
  max_size (evicted s) = max_size s ∧
  _original_max_size (evicted s) = _original_max_size s ∧
  apply_cache_factor_from_config (evicted s) = apply_cache_factor_from_config s.
Proof. done. Qed.

(** When [evict] returns, it has cut the list down to a prefix that fits,
    and to the longest one. *)
Lemma evict_Returns fuel s l s' :
  (∀ k, covers k k = true) →
  Inv s l → (0 ≤ max_size s)%Z →
  evict fuel s = Returns tt s' →
  ∃ j, j ≤ length l ∧ Inv s' (take j l) ∧
       (cache_len s' ≤ max_size s')%Z ∧
       (j < length l → (len_of (heap s) (take (S j) l) > max_size s)%Z) ∧
       max_size s' = max_size s ∧
       _original_max_size s' = _original_max_size s ∧
       apply_cache_factor_from_config s' = apply_cache_factor_from_config s ∧
       fired s' = fired s ++ concat (cbs_of (heap s) <$> reverse (drop j l)) ∧
       (∀ x, key (heap s' !!! x) = key (heap s !!! x)) ∧
       (∀ x, value (heap s' !!! x) = value (heap s !!! x)) ∧
       (∀ x, x ∈ take j l → cbs_of (heap s') x = cbs_of (heap s) x).
Proof.
  intros Hrefl. revert s l. induction fuel as [|fuel IH]; intros s l HI Hmax Hev.
  - destruct (decide (cache_len s > max_size s)%Z) as [Hgt|Hle].
    { by rewrite evict_out_of_fuel in Hev. }
    rewrite evict_done in Hev by done. injection Hev as <-.
    exists (length l). rewrite firstn_all, drop_all. simpl. rewrite app_nil_r.
    split_and!; try done; lia.
  - destruct (decide (cache_len s > max_size s)%Z) as [Hgt|Hle]; cycle 1.
    { rewrite evict_done in Hev by done. injection Hev as <-.
      exists (length l). rewrite firstn_all, drop_all. simpl. rewrite app_nil_r.
      split_and!; try done; lia. }
    rewrite evict_step in Hev by done.
    destruct (List.find raises _) eqn:Hfind; [done|].
    destruct l as [|b l0] using rev_ind.
    { rewrite (Inv_cache_len _ _ HI) in Hgt. unfold len_of in Hgt.
      destruct size_callback; simpl in Hgt; lia. }
    clear IHl0. rename l0 into l, b into a.
    pose proof (evicted_Inv _ _ _ Hrefl HI) as HI1.
    destruct (IH _ _ HI1 Hmax Hev)
      as (j & Hj & HIj & Hlen & Hmaxj & Hm & Ho & Hap & Hf & Hk & Hv & Hc).
    pose proof HI as (HR & _).
    assert (Hlast : prv (heap s) list_root = a).
    { by rewrite (Repr_prv_root _ _ HR), last_last. }
    assert (Hev_entry : ∀ x,
      key (heap (evicted s) !!! x) = key (heap s !!! x) ∧
      value (heap (evicted s) !!! x) = value (heap s !!! x) ∧
      (x ≠ a → cbs_of (heap (evicted s)) x = cbs_of (heap s) x)).
    { intros x. unfold evicted. rewrite Hlast. apply removed_entry. }
    assert (Hnotin : a ∉ l).
    { apply Repr_NoDup in HR. apply NoDup_app in HR as (_ & Hd & _).
      intros Hin. apply (Hd a Hin). by left. }
    exists j. rewrite length_app. simpl.
    rewrite take_app_le by done. split_and!; try done.
    + lia.
    + intros Hlt. destruct (decide (j < length l)) as [Hjl|Hjl].
      * rewrite take_app_le by lia.
        rewrite <- (len_of_ext (heap s) (heap (evicted s)));
          [by apply Hmaxj|]. intros x. apply Hev_entry.
      * assert (j = length l) as -> by lia.
        rewrite firstn_all2 by (rewrite length_app; simpl; lia).
        rewrite <- (Inv_cache_len _ _ HI). done.
    + rewrite Hf. unfold evicted at 1. simpl. rewrite Hlast.
      rewrite <- app_assoc. f_equal.
      rewrite drop_app_le by done. rewrite reverse_app. simpl.
      f_equal. f_equal. apply list_fmap_ext. intros i x Hx.
      rewrite clear_cb_h_cbs_ne, unlink_h_cbs; [done|]. intros ->. apply Hnotin.
      apply list_elem_of_lookup_2 in Hx. apply (proj1 (elem_of_reverse _ _)) in Hx.
      by apply elem_of_drop_in in Hx.
    + intros x. rewrite Hk. by destruct (Hev_entry x) as (-> & _).
    + intros x. rewrite Hv. by destruct (Hev_entry x) as (_ & -> & _).
    + intros x Hx. rewrite (Hc x Hx). destruct (Hev_entry x) as (_ & _ & He).
      apply He. intros ->. apply Hnotin. by apply elem_of_take_in in Hx.
Qed.

(** Where no callback of a listed node raises, [evict] returns, given one
    unit of fuel per node beyond a prefix that fits. *)
Lemma evict_total fuel s l j0 :
  (∀ k, covers k k = true) →
  Inv s l →
  (len_of (heap s) (take j0 l) ≤ max_size s)%Z →
  (∀ a, a ∈ l → List.find raises (cbs_of (heap s) a) = None) →
  length l ≤ j0 + fuel →
  ∃ s', evict fuel s = Returns tt s'.
Proof.
  intros Hrefl. revert s l. induction fuel as [|fuel IH]; intros s l HI Hfit Hq Hf.
  - exists s. apply evict_done. rewrite firstn_all2 in Hfit by lia.
    rewrite (Inv_cache_len _ _ HI). lia.
  - destruct (decide (cache_len s > max_size s)%Z) as [Hgt|Hle]; cycle 1.
    { exists s. by apply evict_done. }
    destruct l as [|b l0] using rev_ind.
    { rewrite (Inv_cache_len _ _ HI) in Hgt. by destruct j0. }
    clear IHl0. rename l0 into l, b into a.
    pose proof HI as (HR & _).
    assert (Hj0 : j0 ≤ length l).
    { destruct (decide (j0 ≤ length l)) as [|Hn]; [done|].
      rewrite firstn_all2 in Hfit by (rewrite length_app; simpl; lia).
      rewrite (Inv_cache_len _ _ HI) in Hgt. lia. }
    assert (Hlast : prv (heap s) list_root = a).
    { by rewrite (Repr_prv_root _ _ HR), last_last. }
    rewrite evict_step by done. rewrite Hlast, Hq by set_solver.
    apply (IH _ l).
    + by apply (evicted_Inv _ _ a).
    + rewrite take_app_le in Hfit by done.
      rewrite (len_of_ext (heap s)); [done|].
      intros x. unfold evicted. rewrite Hlast.
      change (heap (upd_metrics (inc_evictions (node_cost (heap s) a)) (removed a s)))
        with (heap (removed a s)).
      by destruct (removed_entry a s x) as (_ & -> & _).
    + intros x Hx. unfold evicted. rewrite Hlast.
      destruct (removed_entry a s x) as (_ & _ & Hc).
      change (heap (upd_metrics (inc_evictions (node_cost (heap s) a)) (removed a s)))
        with (heap (removed a s)).
      rewrite Hc.
      * apply Hq. set_solver.
      * intros ->. apply Repr_NoDup in HR. apply NoDup_app in HR as (_ & Hd & _).
        apply (Hd a Hx). by left.
    + rewrite length_app in Hf. simpl in Hf. lia.
Qed.

(** With one unit per entry the prefix kept is the first [max_size]. *)
Lemma unit_cost_prefix (m : Z) l j :
  size_callback = None → (0 ≤ m)%Z → j ≤ length l →
  (Z.of_nat (length (take j l)) ≤ m)%Z →
  (j < length l → (Z.of_nat (length (take (S j) l)) > m)%Z) →
  take j l = take (Z.to_nat m) l.
Proof.
  intros _ Hm Hj Hle Hgt. rewrite length_take in Hle.
  destruct (decide (j < length l)) as [Hlt|Hge].
  - specialize (Hgt Hlt). rewrite length_take in Hgt.
    f_equal. lia.
  - assert (j = length l) as -> by lia.
    rewrite firstn_all. symmetry. apply firstn_all2. lia.
Qed.

End Evict.

(** ** [add_node], [cache_get] and the update of [cache_set] *)

Section Touch.
Implicit Types (h : list _Node) (a x : nat) (l : list nat) (s : LruCache)
  (k : K) (v : V).

Definition added_cost (v : V) (n : Z) : Z :=
  match size_callback with
  | Some f => (n + f (Some v))%Z
  | None => n
  end.

(** The cache after [add_node]. *)
Definition added (k : K) (v : V) (cbs : list Cb) (s : LruCache) : LruCache :=
  let nd := new_node list_root (nxt (heap s) list_root) (Some k) (Some v) cbs in
  mkLru (add_h nd (heap s)) (index_set k (length (heap s)) (cache s))
        (added_cost v (cached_cache_len s))
        (max_size s) (_original_max_size s)
        (apply_cache_factor_from_config s) (_on_resize s)
        (if TRACK_MEMORY_USAGE
         then inc_memory_usage (memory nd) <$> metrics s
         else metrics s)
        (fired s).

Lemma add_h_memory_new nd h : memory (add_h nd h !!! length h) = memory nd.
Proof.
  unfold add_h. rewrite !memory_alter by done.
  by rewrite list_lookup_total_middle.
Qed.

Lemma add_node_eq k v cbs s : add_node k v cbs s = Returns tt (added k v cbs s).
Proof.
  unfold add_node, modify, added, added_cost, node_at. f_equal.
  fold (nxt (heap s) list_root).
  set (nd := new_node list_root (nxt (heap s) list_root) (Some k) (Some v) cbs).
  destruct size_callback as [f|] eqn:Hsz.
  - cbn [heap upd_cached_len upd_cache upd_node upd_heap].
    fold (add_h nd (heap s)).
    destruct (add_h_lookup_new nd (heap s)) as (_ & -> & _).
    rewrite add_h_memory_new.
    destruct TRACK_MEMORY_USAGE; done.
  - cbn [heap upd_cached_len upd_cache upd_node upd_heap].
    fold (add_h nd (heap s)). rewrite add_h_memory_new.
    destruct TRACK_MEMORY_USAGE; done.
Qed.

Lemma added_Inv k v cbs s l :
  (∀ k1 k2, covers k1 k2 = true → k1 = k2) →
  Inv s l → index_get k (cache s) = None →
  Inv (added k v cbs s) (length (heap s) :: l).
Proof.
  intros Hflat (HR & HI & HC & Hres) Hget.
  set (nd := new_node list_root (nxt (heap s) list_root) (Some k) (Some v) cbs).
  assert (Hfresh : length (heap s) ∉ l).
  { intros Hin. apply (Repr_valid _ _ _ HR) in Hin. lia. }
  assert (Hold : ∀ x, x ∈ l →
            key (add_h nd (heap s) !!! x) = key (heap s !!! x) ∧
            value (add_h nd (heap s) !!! x) = value (heap s !!! x) ∧
            callbacks (add_h nd (heap s) !!! x) = callbacks (heap s !!! x)).
  { intros x Hx. apply add_h_lookup_old. by apply (Repr_valid _ _ _ HR). }
  destruct (add_h_lookup_new nd (heap s)) as (Hk & Hv & _).
  split_and!.
  - by apply Repr_add.
  - apply (IndexOK_add _ (heap s)); [done..|]. intros x Hx. by apply Hold.
  - unfold CostOK in *. cbn [cached_cache_len heap added]. unfold added_cost.
    destruct size_callback as [f|]; [|done]. cbn [cost_sum foldr]. fold nd.
    fold (cost_sum f (add_h nd (heap s)) l).
    rewrite Hv, HC. rewrite (cost_sum_ext f (heap s) (add_h nd (heap s))); [simpl; lia|].
    intros x Hx. by apply Hold.
  - done.
Qed.

(** The cache after a hit of [cache_get] on node [a]. *)
Definition touched (a : nat) (cbs : list Cb) (um : bool) (s : LruCache)
  : LruCache :=
  mkLru (alter (λ n, set_callbacks (merge_callbacks (callbacks n) cbs) n) a
               (mtf_h a (heap s)))
        (cache s) (cached_cache_len s)
        (max_size s) (_original_max_size s)
        (apply_cache_factor_from_config s) (_on_resize s)
        (if um then inc_hits <$> metrics s else metrics s)
        (fired s).

Lemma cache_get_eq {D} k (d : D) cbs um s :
  cache_get k d cbs um s =
  match index_get k (cache s) with
  | Some a => Returns (Found (value (heap s !!! a))) (touched a cbs um s)
  | None => Returns (Default d) (if um then upd_metrics inc_misses s else s)
  end.
Proof.
  unfold cache_get. destruct (index_get k (cache s)) as [a|]; [|done].
  unfold bind, modify, touched, node_at.
  change (move_node_to_front a s) with (Returns tt (upd_heap (mtf_h a) s)).
  cbv beta iota. destruct um; cbn [heap upd_node upd_heap upd_metrics];
    by rewrite value_alter, mtf_h_value.
Qed.

Lemma Inv_front_ext s s' l a :
  Inv s l → a ∈ l →
  Repr (heap s') (a :: filter (λ x, x ≠ a) l) →
  cache s' = cache s → _on_resize s' = _on_resize s →
  (∀ x, key (heap s' !!! x) = key (heap s !!! x)) →
  (match size_callback with
   | Some f => cached_cache_len s' =
               (cached_cache_len s - f (value (heap s !!! a))
                + f (value (heap s' !!! a)))%Z
   | None => True
   end) →
  (∀ x, x ≠ a → value (heap s' !!! x) = value (heap s !!! x)) →
  Inv s' (a :: filter (λ x, x ≠ a) l).
Proof.
  intros (HR & HI & HC & Hres) Ha HR' Hc Hr Hk Hcost Hv. split_and!.
  - done.
  - rewrite Hc. apply (IndexOK_ext _ (heap s) _ l); [done|by intros|].
    intros x. rewrite elem_of_cons, list_elem_of_filter.
    destruct (decide (x = a)) as [->|]; naive_solver.
  - unfold CostOK in *. destruct size_callback as [f|]; [|done].
    rewrite Hcost, HC. cbn [cost_sum foldr].
    fold (cost_sum f (heap s') (filter (λ x, x ≠ a) l)).
    rewrite (cost_sum_ext f (heap s) (heap s')).
    + rewrite cost_sum_remove; [lia|by apply Repr_NoDup in HR|done].
    + intros x Hx. apply Hv. by apply list_elem_of_filter in Hx as [? _].
  - by rewrite Hr.
Qed.

Lemma touched_Inv a cbs um s l :
  Inv s l → a ∈ l → Inv (touched a cbs um s) (a :: filter (λ x, x ≠ a) l).
Proof.
  intros HI Ha. pose proof HI as (HR & _).
  apply (Inv_front_ext s); try done.
  - cbn [heap touched]. eapply Repr_frame; [by apply Repr_mtf_filter| |].
    + by rewrite length_alter.
    + intros b _. unfold nxt, prv. by rewrite next_node_alter, prev_node_alter.
  - intros x. cbn [heap touched]. by rewrite key_alter, mtf_h_key.
  - cbn [heap touched cached_cache_len]. destruct size_callback; [|done].
    rewrite value_alter, mtf_h_value by done. lia.
  - intros x _. cbn [heap touched]. by rewrite value_alter, mtf_h_value.
Qed.


(** The cache after [cache_set] has updated node [a] in place, before it
    calls [evict]. *)
Definition updated (a : nat) (v : V) (cbs : list Cb) (s : LruCache) : LruCache :=
  let changed := bool_decide (Some v ≠ value (heap s !!! a)) in
  let h0 := if changed then clear_cb_h a (heap s) else heap s in
  mkLru (alter (set_value (Some v)) a
           (mtf_h a
              (alter (λ n, set_callbacks (merge_callbacks (callbacks n) cbs) n) a h0)))
        (cache s)
        (match size_callback with
         | Some f => (cached_cache_len s - f (value (heap s !!! a)) + f (Some v))%Z
         | None => cached_cache_len s
         end)
        (max_size s) (_original_max_size s)
        (apply_cache_factor_from_config s) (_on_resize s)
        (metrics s)
        (fired s ++ if changed then cbs_of (heap s) a else []).

Lemma cache_set_eq fuel k v cbs s :
  cache_set fuel k v cbs s =
  match index_get k (cache s) with
  | Some a =>
      if bool_decide (Some v ≠ value (heap s !!! a)) then
        match List.find raises (cbs_of (heap s) a) with
        | Some c =>
            Raises (CallbackError c) (add_fired (called (cbs_of (heap s) a)) s)
        | None => evict fuel (updated a v cbs s)
        end
      else evict fuel (updated a v cbs s)
  | None => evict fuel (added k v (py_set cbs) s)
  end.
Proof.
  unfold cache_set. destruct (index_get k (cache s)) as [a|]; cycle 1.
  { unfold bind. by rewrite add_node_eq. }
  unfold node_at, updated. case_decide as Hch.
  - rewrite bool_decide_eq_true_2 by done.
    unfold bind at 1. rewrite run_and_clear_callbacks_eq.
    destruct (List.find raises (cbs_of (heap s) a)); [done|].
    unfold bind, modify, node_at.
    change (move_node_to_front a ?s') with (Returns tt (upd_heap (mtf_h a) s')).
    cbv beta iota. f_equal.
    destruct size_callback as [f|] eqn:Hsz;
      unfold upd_node, upd_heap, upd_cached_len, add_fired; simpl;
      by rewrite ?clear_cb_h_value.
  - rewrite bool_decide_eq_false_2 by (by intros ?).
    unfold bind, modify, ret, node_at.
    change (move_node_to_front a ?s') with (Returns tt (upd_heap (mtf_h a) s')).
    cbv beta iota. f_equal.
    destruct size_callback as [f|] eqn:Hsz;
      unfold upd_node, upd_heap, upd_cached_len, add_fired; simpl;
      by rewrite app_nil_r.
Qed.

Lemma updated_Inv a v cbs s l :
  Inv s l → a ∈ l → Inv (updated a v cbs s) (a :: filter (λ x, x ≠ a) l).
Proof.
  intros HI Ha. pose proof HI as (HR & _).
  pose proof (Repr_valid _ _ _ HR Ha) as Hlt.
  set (h0 := if bool_decide (Some v ≠ value (heap s !!! a))
             then clear_cb_h a (heap s) else heap s).
  set (h1 := alter (λ n, set_callbacks (merge_callbacks (callbacks n) cbs) n) a h0).
  assert (Hlen0 : length h0 = length (heap s)).
  { unfold h0. case_bool_decide; by rewrite ?clear_cb_h_length. }
  assert (HR1 : Repr h1 l).
  { eapply Repr_frame; [exact HR| |].
    - unfold h1. rewrite length_alter. lia.
    - intros b _. unfold h1, nxt, prv. rewrite next_node_alter, prev_node_alter by done.
      unfold h0. case_bool_decide; by rewrite ?clear_cb_h_next, ?clear_cb_h_prev. }
  assert (Hk1 : ∀ x, key (h1 !!! x) = key (heap s !!! x)).
  { intros x. unfold h1. rewrite key_alter by done.
    unfold h0. case_bool_decide; by rewrite ?clear_cb_h_key. }
  assert (Hv1 : ∀ x, value (h1 !!! x) = value (heap s !!! x)).
  { intros x. unfold h1. rewrite value_alter by done.
    unfold h0. case_bool_decide; by rewrite ?clear_cb_h_value. }
  apply (Inv_front_ext s); try done.
  - cbn [heap updated]. fold h0. fold h1.
    eapply Repr_frame; [by apply Repr_mtf_filter| |].
    + by rewrite length_alter.
    + intros b _. unfold nxt, prv. by rewrite next_node_alter, prev_node_alter.
  - intros x. cbn [heap updated]. fold h0. fold h1.
    by rewrite key_alter, mtf_h_key.
  - cbn [heap updated cached_cache_len]. destruct size_callback; [|done].
    rewrite list_lookup_total_alter_eq; [done|].
    rewrite mtf_h_length, length_alter.
    case_bool_decide; by rewrite ?clear_cb_h_length.
  - intros x Hx. cbn [heap updated]. fold h0. fold h1.
    rewrite list_lookup_total_alter_ne by done. by rewrite mtf_h_value.
Qed.

Lemma updated_entry a v cbs s x :
  a < length (heap s) →
  key (heap (updated a v cbs s) !!! x) = key (heap s !!! x) ∧
  value (heap (updated a v cbs s) !!! x)
  = (if decide (x = a) then Some v else value (heap s !!! x)) ∧
  cbs_of (heap (updated a v cbs s)) x
  = (if decide (x = a)
     then merged (if bool_decide (Some v ≠ value (heap s !!! a)) then []
                  else cbs_of (heap s) a) cbs
     else cbs_of (heap s) x).
Proof.
  intros Hlt. cbn [heap updated].
  set (h0 := if bool_decide (Some v ≠ value (heap s !!! a))
             then clear_cb_h a (heap s) else heap s).
  assert (Hlen0 : length h0 = length (heap s)).
  { unfold h0. case_bool_decide; by rewrite ?clear_cb_h_length. }
  split_and!.
  - rewrite key_alter, mtf_h_key, key_alter by done.
    unfold h0. case_bool_decide; by rewrite ?clear_cb_h_key.
  - case_decide as Hx.
    + subst x. rewrite list_lookup_total_alter_eq; [done|].
      rewrite mtf_h_length, length_alter. lia.
    + rewrite list_lookup_total_alter_ne by done.
      rewrite mtf_h_value, value_alter by done.
      unfold h0. case_bool_decide; by rewrite ?clear_cb_h_value.
  - unfold cbs_of. rewrite callbacks_alter, mtf_h_callbacks by done.
    case_decide as Hx.
    + subst x. rewrite list_lookup_total_alter_eq by lia. simpl.
      rewrite merge_callbacks_default. f_equal.
      unfold h0. case_bool_decide; [|done]. by apply clear_cb_h_cbs_eq.
    + rewrite list_lookup_total_alter_ne by done.
      unfold h0. case_bool_decide; [|done]. by apply clear_cb_h_cbs_ne.
Qed.

End Touch.

(** ** Construction *)

Section Init.
Implicit Types (s : LruCache).

Lemma init_Inv size name af s0 :
  __init__ size name af = inr s0 →
  Inv s0 [] ∧ cache s0 = [] ∧ fired s0 = [] ∧ _original_max_size s0 = size ∧
  apply_cache_factor_from_config s0 = af.
Proof.
  unfold __init__.
  destruct (if af then scaled_size size default_factor_size else inr size)
    as [e|m]; [done|].
  intros [= <-]. split_and!; try done.
  split_and!; [by apply Repr_nil_init|apply IndexOK_nil| |done].
  unfold CostOK. by destruct size_callback.
Qed.

Lemma init_max_size size name af s0 :
  __init__ size name af = inr s0 →
  (if af then scaled_size size default_factor_size else inr size)
  = inr (max_size s0).
Proof.
  unfold __init__.
  destruct (if af then scaled_size size default_factor_size else inr size)
    as [e|m]; [done|].
  by intros [= <-].
Qed.

End Init.

(** ** Insertion of new keys (claim C1) *)

Section Dict.
Implicit Types (h : list _Node) (a x : nat) (l : list nat) (s : LruCache)
  (k : K) (v : V).

(** The index is a [dict]. *)
Hypothesis dict_index : ∀ k1 k2, covers k1 k2 = bool_decide (k1 = k2).

Lemma dict_refl k : covers k k = true.
Proof. rewrite dict_index. by apply bool_decide_eq_true_2. Qed.

Lemma dict_flat k1 k2 : covers k1 k2 = true → k1 = k2.
Proof. rewrite dict_index. by intros ?%bool_decide_eq_true_1. Qed.

Section Fill.

(** No [size_callback]: one unit per entry. *)
Hypothesis unit_cost : size_callback = None.


Lemma take_cons_take {A} n (y : A) (r : list A) :
  take n (y :: take n r) = take n (y :: r).
Proof.
  destruct n as [|n]; [done|]. simpl. f_equal.
  rewrite take_take. f_equal. lia.
Qed.





End Fill.

(** ** A capacity below zero *)

Section Negative.

Lemma evicted_empty_Inv s :
  size_callback = None → Inv s [] → Inv (evicted s) [].
Proof.
  intros Hunit (HR & HIx & _ & Hres).
  pose proof (Repr_root_valid _ _ HR) as H0.
  pose proof (Repr_prv_root _ _ HR) as Hp. pose proof (Repr_nxt_root _ _ HR) as Hn.
  simpl in Hp, Hn.
  assert (Hc : cache s = []).
  { destruct HIx as (_ & _ & Hin & _). destruct (cache s) as [|p c]; [done|].
    apply Forall_cons in Hin as [Hin _]. by apply elem_of_nil in Hin. }
  unfold evicted. rewrite Hp. apply Inv_upd_metrics. split_and!.
  - split_and!.
    + apply NoDup_singleton.
    + cbn [heap removed deleted upd_cache]. rewrite clear_cb_h_length.
      unfold unlink_h. rewrite !length_alter. by repeat constructor.
    + simpl. unfold nxt, prv. rewrite clear_cb_h_next, clear_cb_h_prev.
      unfold unlink_h. rewrite Hp, Hn.
      fold (nxt (alter (set_prev_node list_root) list_root
                   (alter (set_next_node list_root) list_root (heap s))) list_root).
      fold (prv (alter (set_prev_node list_root) list_root
                   (alter (set_next_node list_root) list_root (heap s))) list_root).
      rewrite nxt_set_prev, nxt_set_next, prv_set_prev.
      rewrite !decide_True; [done|by rewrite ?length_alter..].
  - cbn [cache removed deleted upd_cache]. rewrite Hc.
    assert (Hnil : index_pop_key (key (heap s !!! list_root)) [] = [])
      by (by destruct (key _)).
    rewrite Hnil. apply IndexOK_nil.
  - unfold CostOK. by rewrite Hunit.
  - done.
Qed.

Lemma evict_below_zero fuel s l :
  size_callback = None → (∀ c, raises c = false) →
  Inv s l → (max_size s < 0)%Z → evict fuel s = Diverges.
Proof.
  intros Hunit Hq. revert s l. induction fuel as [|fuel IH]; intros s l HI Hneg.
  - apply evict_out_of_fuel. unfold cache_len. rewrite Hunit. lia.
  - rewrite evict_step by (unfold cache_len; rewrite Hunit; lia).
    rewrite find_never_raises by done.
    destruct l as [|a l0] using rev_ind.
    + apply (IH _ []); [by apply evicted_empty_Inv|done].
    + apply (IH _ l0); [|done]. by apply (evicted_Inv _ _ a dict_refl).
Qed.

End Negative.

(** ** A value that costs more than the capacity *)

Section Oversize.

Lemma len_of_nonneg h l : nonneg_costs → (0 ≤ len_of h l)%Z.
Proof.
  intros Hf. unfold len_of. destruct size_callback as [f|] eqn:Hsz; [|lia].
  apply cost_sum_nonneg. by apply Hf.
Qed.

Lemma len_of_cons h a l : len_of h (a :: l) = (node_cost h a + len_of h l)%Z.
Proof.
  unfold len_of, node_cost. destruct size_callback; [done|].
  cbn [length]. lia.
Qed.

Lemma Inv_nil_empty s :
  Inv s [] → recency s = [] ∧ cache s = [] ∧ cache_len s = 0%Z.
Proof.
  intros HI. pose proof HI as (_ & HIx & _). split_and!.
  - by apply Inv_recency.
  - destruct HIx as (_ & _ & Hin & _). destruct (cache s) as [|p c]; [done|].
    apply Forall_cons in Hin as [Hin _]. by apply elem_of_nil in Hin.
  - rewrite (Inv_cache_len _ _ HI). unfold len_of. by destruct size_callback.
Qed.

(** While the front entry alone costs more than the capacity, [evict]
    goes on: it returns with no entry left. *)
Lemma oversize_evicts_all fuel s1 l a s' :
  nonneg_costs → Inv s1 (a :: l) → (0 ≤ max_size s1)%Z →
  (node_cost (heap s1) a > max_size s1)%Z →
  evict fuel s1 = Returns tt s' →
  Inv s' [] ∧ max_size s' = max_size s1.
Proof.
  intros Hf HI Hmax Hbig Hev.
  destruct (evict_Returns fuel s1 (a :: l) s' dict_refl HI Hmax Hev) as
    (j & Hj & HIj & Hle & _ & Hm & _ & _ & _ & _ & Hv & _).
  destruct j as [|j]; [by split|]. exfalso.
  rewrite (Inv_cache_len _ _ HIj), Hm in Hle. cbn [take] in Hle.
  rewrite len_of_cons in Hle.
  assert (Hsame : node_cost (heap s') a = node_cost (heap s1) a).
  { unfold node_cost. destruct size_callback; [|done]. by rewrite Hv. }
  pose proof (len_of_nonneg (heap s') (take j l) Hf). lia.
Qed.

End Oversize.

(** ** [get] (claim C4) *)

Section Get.

Lemma survives_evict fuel s1 l a s' :
  Inv s1 (a :: l) → (0 ≤ max_size s1)%Z →
  (node_cost (heap s1) a ≤ max_size s1)%Z →
  evict fuel s1 = Returns tt s' →
  ∃ l', Inv s' (a :: l') ∧
        key (heap s' !!! a) = key (heap s1 !!! a) ∧
        value (heap s' !!! a) = value (heap s1 !!! a).
Proof.
  intros HI Hmax Hcost Hev.
  destruct (evict_Returns fuel s1 (a :: l) s' dict_refl HI Hmax Hev) as
    (j & Hj & HIj & _ & Hmaxj & _ & _ & _ & _ & Hk & Hv & _).
  destruct j as [|j].
  - exfalso. assert (Hlt : 0 < length (a :: l)) by (simpl; lia).
    specialize (Hmaxj Hlt). unfold len_of, node_cost in *. simpl in Hmaxj.
    destruct size_callback; simpl in *; lia.
  - exists (take j l). by split_and!.
Qed.

Lemma Inv_index_at s l a k :
  Inv s l → a ∈ l → key (heap s !!! a) = Some k → index_get k (cache s) = Some a.
Proof.
  intros (_ & HIx & _) Ha Hk.
  destruct (IndexOK_lookup _ _ _ _ HIx Ha) as (k' & Hk' & Hget). congruence.
Qed.


End Get.

(** ** [set] on a stored key (claim C5) and [setdefault] (claim C6) *)

Section SetStored.




End SetStored.

(** ** Resizing (claim C7) and the capacity bound (claim C2) *)

Section Capacity.

Lemma Inv_set_max_size n s l : Inv s l → Inv (set_max_size n s) l.
Proof. done. Qed.



Lemma evict_Returns_le fuel s s' :
  evict fuel s = Returns tt s' → (cache_len s' ≤ max_size s')%Z.
Proof.
  revert s. induction fuel as [|fuel IH]; intros s Hev.
  - destruct (decide (cache_len s > max_size s)%Z) as [Hgt|Hle].
    + by rewrite evict_out_of_fuel in Hev.
    + rewrite evict_done in Hev by done. injection Hev as <-. lia.
  - destruct (decide (cache_len s > max_size s)%Z) as [Hgt|Hle].
    + rewrite evict_step in Hev by done.
      destruct (List.find raises _); [done|]. by apply IH in Hev.
    + rewrite evict_done in Hev by done. injection Hev as <-. lia.
Qed.

Lemma delete_nodes_le f ds s s' :
  size_callback = Some f → (∀ ov, 0 ≤ f ov)%Z →
  delete_nodes ds s = Returns tt s' →
  (cached_cache_len s' ≤ cached_cache_len s)%Z ∧ max_size s' = max_size s.
Proof.
  intros Hsz Hf. revert s. induction ds as [|a ds IH]; intros s Hdel.
  - injection Hdel as <-. split; [lia|done].
  - cbn [delete_nodes] in Hdel. unfold bind in Hdel. rewrite delete_node_eq in Hdel.
    destruct (List.find raises _); [done|].
    apply IH in Hdel as [Hle Hm]. cbn [cached_cache_len max_size deleted] in *.
    unfold less_cost in Hle. rewrite Hsz in Hle.
    pose proof (Hf (value (heap s !!! a))). split; [lia|done].
Qed.

Lemma clear_callbacks_frame ns s s' :
  clear_callbacks ns s = Returns tt s' →
  max_size s' = max_size s ∧ cached_cache_len s' = cached_cache_len s.
Proof.
  revert s. induction ns as [|a ns IH]; intros s Hc.
  - by injection Hc as <-.
  - cbn [clear_callbacks] in Hc. unfold bind in Hc.
    rewrite run_and_clear_callbacks_eq in Hc.
    destruct (List.find raises _); [done|]. by apply IH in Hc.
Qed.

(** C2 (amended).  With a cost function that is never negative, on a well
    formed cache: a call that gets to [evict] and returns leaves [len()] at
    most the capacity; any other call that returns leaves the capacity as
    it was and [len()] no larger than it was.  So [len()] is at most the
    capacity after a call wherever it was before it.  No entry is too big
    to be evicted: where the capacity is not negative, a [set] of a value
    that costs more than the capacity returns with the cache empty. *)
Theorem C2_len_within_capacity
    (f : option V → Z) (s s' : LruCache) (o : op) (fuel : nat) :
  size_callback = Some f →
  (∀ ov, 0 ≤ f ov)%Z →
  wf s →
  exec fuel o s = Returns tt s' →
  (runs_evict o s = true → (cache_len s' ≤ max_size s')%Z) ∧
  (runs_evict o s = false →
   (cache_len s' ≤ cache_len s)%Z ∧ max_size s' = max_size s) ∧
  ((cache_len s ≤ max_size s)%Z → (cache_len s' ≤ max_size s')%Z) ∧
  (∀ k v cbs, o = OpSet k v cbs →
     (0 ≤ max_size s)%Z → (f (Some v) > max_size s)%Z →
     recency s' = [] ∧ cache s' = [] ∧ cache_len s' = 0%Z).
Proof.
  intros Hsz Hf Hwf Hex. apply wf_Inv in Hwf. set (l := recency s) in *.
  pose proof Hwf as (HR & HIx & HC & Hres).
  assert (Hlen : ∀ s0, cache_len s0 = cached_cache_len s0).
  { intros s0. unfold cache_len. by rewrite Hsz. }
  assert (H0 : (0 ≤ cached_cache_len s)%Z).
  { unfold CostOK in HC. rewrite Hsz in HC. rewrite HC. by apply cost_sum_nonneg. }
  assert (Hcosts : nonneg_costs).
  { intros f' Hf'. rewrite Hsz in Hf'. by injection Hf' as <-. }
  assert (Hboth :
    (runs_evict o s = true → (cache_len s' ≤ max_size s')%Z) ∧
    (runs_evict o s = false →
     (cache_len s' ≤ cache_len s)%Z ∧ max_size s' = max_size s)).
  { destruct o as [k cbs um|k v cbs|k v|k|k| |factor]; cbn [exec runs_evict] in *.
    - split; [done|]. intros _. unfold bind in Hex. rewrite cache_get_eq in Hex.
      destruct (index_get k (cache s)); injection Hex as <-;
        rewrite !Hlen; [done|by destruct um].
    - split; [|done]. intros _. rewrite cache_set_eq in Hex.
      apply (evict_Returns_le fuel) with (s :=
        match index_get k (cache s) with
        | Some a => updated a v cbs s
        | None => added k v (py_set cbs) s
        end).
      destruct (index_get k (cache s)); [|done].
      case_bool_decide; [|done]. by destruct (List.find raises _).
    - unfold bind, cache_set_default in Hex.
      destruct (index_get k (cache s)) as [a|].
      + rewrite bool_decide_eq_false_2 by done. split; [done|]. intros _.
        injection Hex as <-. split; [lia|done].
      + rewrite bool_decide_eq_true_2 by done. split; [|done]. intros _.
        unfold bind in Hex. rewrite add_node_eq in Hex.
        destruct (evict fuel (added k v [] s)) as [[] s1|e s1|] eqn:Hev; [|done..].
        injection Hex as <-. by apply evict_Returns_le in Hev.
    - split; [done|]. intros _. unfold bind in Hex. rewrite cache_pop_eq in Hex.
      destruct (index_get k (cache s)) as [a|];
        [|injection Hex as <-; split; [lia|done]].
      destruct (List.find raises _); [done|]. injection Hex as <-.
      rewrite !Hlen. cbn [cached_cache_len max_size removed deleted upd_cache].
      unfold less_cost. rewrite Hsz. pose proof (Hf (value (heap s !!! a))).
      split; [lia|done].
    - split; [done|]. intros _.
      unfold cache_del_multi in Hex. destruct (index_pop k (cache s)) as [popped rest].
      destruct popped as [|p popped]; [injection Hex as <-; split; [lia|done]|].
      apply (delete_nodes_le f) in Hex as [Hle Hm]; [|done..].
      rewrite !Hlen. cbn [cached_cache_len max_size upd_cache] in *. done.
    - split; [done|]. intros _.
      unfold cache_clear, bind, modify in Hex.
      destruct (clear_callbacks _ _) as [[] s1|e s1|] eqn:Hcl; [|done..].
      apply clear_callbacks_frame in Hcl as [Hm _].
      injection Hex as <-. rewrite Hsz, !Hlen.
      destruct TRACK_MEMORY_USAGE;
        cbn [cached_cache_len max_size upd_metrics upd_cached_len upd_cache];
        rewrite Hm; cbn [max_size upd_node upd_heap]; split; [lia|done|lia|done].
    - unfold bind, set_cache_factor in Hex. rewrite Hres.
      destruct (apply_cache_factor_from_config s); simpl in *;
        [|injection Hex as <-; split; [done|]; intros _; split; [lia|done]].
      destruct (scaled_size _ _) as [e|n]; [done|].
      case_decide as Hn.
      + rewrite bool_decide_eq_true_2 by done. simpl. split; [|done]. intros _.
        unfold bind, modify in Hex.
        change (_on_resize (set_max_size n s)) with (_on_resize s) in Hex.
        rewrite Hres in Hex.
        destruct (evict fuel (set_max_size n s)) as [[] s1|e s1|] eqn:Hev; [|done..].
        injection Hex as <-. by apply evict_Returns_le in Hev.
      + rewrite bool_decide_eq_false_2 by (intros Hc; by apply Hc). simpl.
        split; [done|]. intros _. injection Hex as <-. split; [lia|done]. }
  destruct Hboth as [Hev Hother]. split; [done|]. split; [done|]. split.
  - intros Hcap. destruct (runs_evict o s) eqn:Hr.
    + by apply Hev.
    + destruct (Hother eq_refl) as [Hle Hm]. rewrite Hm. lia.
  - intros k v cbs -> Hmax Hbig. cbn [exec] in Hex. rewrite cache_set_eq in Hex.
    assert (Hgoal : ∀ s1 a l1, Inv s1 (a :: l1) → max_size s1 = max_size s →
              value (heap s1 !!! a) = Some v →
              evict fuel s1 = Returns tt s' →
              recency s' = [] ∧ cache s' = [] ∧ cache_len s' = 0%Z).
    { intros s1 a l1 HI1 Hm1 Hv1 Hev1.
      destruct (oversize_evicts_all fuel s1 l1 a s' Hcosts HI1) as [HI' _];
        [lia| |done|by apply Inv_nil_empty].
      unfold node_cost. rewrite Hsz, Hv1, Hm1. done. }
    destruct (index_get k (cache s)) as [a|] eqn:Hget.
    + destruct (IndexOK_key _ _ _ _ _ HIx Hget) as [Ha Hka].
      pose proof (Repr_valid _ _ _ HR Ha) as Hlt.
      destruct (updated_entry a v cbs s a Hlt) as (_ & Hv1 & _).
      rewrite decide_True in Hv1 by done.
      apply (Hgoal (updated a v cbs s) a _ (updated_Inv a v cbs s l Hwf Ha)); [done..|].
      case_bool_decide; [|done]. by destruct (List.find raises _).
    + set (nd := new_node list_root (nxt (heap s) list_root) (Some k) (Some v) (py_set cbs)).
      destruct (add_h_lookup_new nd (heap s)) as (_ & Hv1 & _).
      by apply (Hgoal (added k v (py_set cbs) s) _ _
                 (added_Inv k v (py_set cbs) s l dict_flat Hwf Hget)).
Qed.

End Capacity.

End Dict.

(** ** [del_multi] (claim C8) *)

Section DelMulti.
Implicit Types (h : list _Node) (a x : nat) (l : list nat) (s : LruCache)
  (k : K) (v : V).

Lemma deleted_CostOK a s l :
  CostOK s l → NoDup l → a ∈ l → CostOK (deleted a s) (filter (λ x, x ≠ a) l).
Proof.
  intros HC Hnd Ha. unfold CostOK in *. cbn [cached_cache_len heap deleted].
  unfold less_cost. destruct size_callback as [f|]; [|done].
  rewrite HC, <- (cost_sum_remove f (heap s) l a) by done.
  symmetry. apply cost_sum_ext. intros b _.
  by rewrite clear_cb_h_value, unlink_h_value.
Qed.

Lemma filter_filter_notin (ds : list nat) a l :
  filter (λ x, x ∉ ds) (filter (λ x, x ≠ a) l) = filter (λ x, x ∉ a :: ds) l.
Proof.
  induction l as [|b l IH]; [done|].
  destruct (decide (b = a)) as [->|Hne].
  - rewrite (filter_cons_False (λ x, x ≠ a)) by (intros Hc; by apply Hc).
    rewrite (filter_cons_False (λ x, x ∉ a :: ds)); [done|].
    intros Hc. apply Hc. by left.
  - rewrite (filter_cons_True (λ x, x ≠ a)) by done.
    destruct (decide (b ∈ ds)) as [Hin|Hnin].
    + rewrite (filter_cons_False (λ x, x ∉ ds)) by (intros Hc; by apply Hc).
      rewrite (filter_cons_False (λ x, x ∉ a :: ds)); [done|].
      intros Hc. apply Hc. by right.
    + rewrite (filter_cons_True (λ x, x ∉ ds)) by done.
      rewrite (filter_cons_True (λ x, x ∉ a :: ds)); [by f_equal|].
      intros [?|?]%elem_of_cons; done.
Qed.

Lemma filter_notin_nil l : filter (λ x, x ∉ @nil nat) l = l.
Proof.
  induction l as [|b l IH]; [done|].
  rewrite filter_cons_True by apply not_elem_of_nil. by f_equal.
Qed.

Lemma delete_nodes_spec ds s l :
  Repr (heap s) l → CostOK s l → NoDup ds → (∀ a, a ∈ ds → a ∈ l) →
  (∀ a, a ∈ ds → List.find raises (cbs_of (heap s) a) = None) →
  ∃ s', delete_nodes ds s = Returns tt s' ∧
        Repr (heap s') (filter (λ x, x ∉ ds) l) ∧
        CostOK s' (filter (λ x, x ∉ ds) l) ∧
        cache s' = cache s ∧ _on_resize s' = _on_resize s ∧
        max_size s' = max_size s ∧
        fired s' = fired s ++ concat (cbs_of (heap s) <$> ds) ∧
        (∀ x, key (heap s' !!! x) = key (heap s !!! x)) ∧
        (∀ x, value (heap s' !!! x) = value (heap s !!! x)) ∧
        (∀ x, x ∉ ds → cbs_of (heap s') x = cbs_of (heap s) x).
Proof.
  revert s l. induction ds as [|a ds IH]; intros s l HR HC Hnd Hsub Hq.
  - exists s. simpl. rewrite app_nil_r.
    rewrite filter_notin_nil.
    by split_and!.
  - apply NoDup_cons in Hnd as [Ha Hnd].
    assert (Hal : a ∈ l) by (apply Hsub; by left).
    pose proof (Repr_NoDup _ _ HR) as Hndl.
    assert (Hcbs : ∀ x, x ≠ a → cbs_of (heap (deleted a s)) x = cbs_of (heap s) x).
    { intros x Hx. cbn [heap deleted]. by rewrite clear_cb_h_cbs_ne, unlink_h_cbs. }
    destruct (IH (deleted a s) (filter (λ x, x ≠ a) l))
      as (s' & Hs' & HR' & HC' & Hc' & Hr' & Hm' & Hf' & Hk' & Hv' & Hcb'); try done.
    + by apply deleted_Repr.
    + by apply deleted_CostOK.
    + intros x Hx. apply list_elem_of_filter. split; [by intros ->|].
      apply Hsub. by right.
    + intros x Hx. rewrite Hcbs by (by intros ->). apply Hq. by right.
    + exists s'. cbn [delete_nodes]. unfold bind at 1.
      rewrite delete_node_eq, Hq by (by left).
      rewrite filter_filter_notin in HR', HC'.
      split_and!; try done.
      * rewrite Hf'. cbn [fired deleted]. rewrite <- app_assoc. f_equal.
        rewrite fmap_cons. cbn [concat]. f_equal. f_equal.
        apply list_fmap_ext. intros i x Hx. apply Hcbs.
        intros ->. apply Ha. by apply list_elem_of_lookup_2 in Hx.
      * intros x. rewrite Hk'. cbn [heap deleted].
        by rewrite clear_cb_h_key, unlink_h_key.
      * intros x. rewrite Hv'. cbn [heap deleted].
        by rewrite clear_cb_h_value, unlink_h_value.
      * intros x Hx. rewrite Hcb'; [apply Hcbs|]; set_solver.
Qed.

Lemma filter_covers_sublist (g : K * nat → bool) (c : list (K * nat)) :
  sublist (List.filter g c) c.
Proof.
  induction c as [|p c IH]; simpl; [done|]. destruct (g p); by constructor.
Qed.



End DelMulti.

(** ** Item access (claim C9) and the scaled capacity (claim C10) *)

Section Items.
Implicit Types (s : LruCache) (k : K) (v : V).

Lemma getitem_absent k s :
  index_get k (cache s) = None →
  __getitem__ k s = Raises KeyError (upd_metrics inc_misses s).
Proof.
  intros Hget. unfold __getitem__, bind. by rewrite cache_get_eq, Hget.
Qed.

Lemma getitem_present k a s :
  index_get k (cache s) = Some a →
  __getitem__ k s = Returns (value (node_at s a)) (touched a [] true s).
Proof.
  intros Hget. unfold __getitem__, bind. by rewrite cache_get_eq, Hget.
Qed.

Lemma delitem_two_arguments k v s :
  __delitem__ k v s =
  match cache_pop k Sentinel s with
  | Returns (Found _) s' => Returns tt s'
  | Returns (Default _) s' => Raises KeyError s'
  | Raises e s' => Raises e s'
  | Diverges => Diverges
  end.
Proof.
  unfold __delitem__, bind.
  destruct (cache_pop k Sentinel s) as [[?|[]] ?|? ?|]; done.
Qed.

(** C9.  [del cache[k]] raises [TypeError] for every key, stored or not,
    and the cache is the one it was: the method takes a second argument
    that the statement does not pass. *)
Theorem C9_del_subscript_raises_TypeError k s :
  del_subscript k s = Raises TypeError s.
Proof. done. Qed.

End Items.

Section Scaled.
Implicit Types (s : LruCache).

Lemma py_int_truncates x z :
  py_int x = inr z → ∃ q, float_value x = Some q ∧ z = truncate q.
Proof.
  unfold py_int, float_value, truncate.
  destruct (Prim2SF x) as [sg|sg| |sg m e]; try done.
  - intros [= <-]. by exists (0, 1)%Z.
  - intros [= <-]. destruct (Z.leb_spec 0 e) as [He|He].
    + eexists. split; [done|]. cbn [fst snd]. rewrite Z.quot_1_r.
      rewrite Z.shiftl_mul_pow2 by done. destruct sg; [|done].
      change (Z.neg m) with (- Z.pos m)%Z. lia.
    + eexists. split; [done|]. cbn [fst snd].
      assert (Hpow : (0 < 2 ^ (- e))%Z) by (apply Z.pow_pos_nonneg; lia).
      assert (Hsh : Z.shiftl (Z.pos m) e = (Z.pos m / 2 ^ (- e))%Z).
      { rewrite <- (Z.opp_involutive e) at 1. rewrite Z.shiftl_opp_r.
        apply Z.shiftr_div_pow2. lia. }
      rewrite Hsh. destruct sg.
      * change (Z.neg m) with (- Z.pos m)%Z. rewrite Z.quot_opp_l by lia.
        f_equal. symmetry. apply Z.quot_div_nonneg; lia.
      * symmetry. apply Z.quot_div_nonneg; lia.
Qed.

Lemma scaled_size_truncates n factor z :
  scaled_size n factor = inr z →
  ∃ q, float_value (PrimFloat.mul (float_of_int n) factor) = Some q ∧
       z = truncate q.
Proof.
  unfold scaled_size. destruct (Prim2SF (float_of_int n)); try done;
    apply py_int_truncates.
Qed.

(** C10.  The capacity is the product of the nominal size and the factor,
    truncated toward zero: at construction when the factor of the
    configuration is applied, and in [set_cache_factor].  There the
    truncated product is the size the cache already has, or it is stored
    and [evict] runs with it; it is the capacity of the cache when the call
    returns and when a callback raises out of it, and [len()] is within it
    after a resize.  Where it is not negative and no stored callback raises
    the call does return. *)
Theorem C10_capacity_is_truncated_product
    (size : Z) (name : option string) (s0 s : LruCache)
    (factor : float) (fuel : nat) (n : Z) :
  __init__ size name true = inr s0 →
  apply_cache_factor_from_config s = true → _on_resize s = true →
  scaled_size (_original_max_size s) factor = inr n →
  (∃ q, float_value (PrimFloat.mul (float_of_int size) default_factor_size)
        = Some q ∧ max_size s0 = truncate q) ∧
  (∃ q, float_value (PrimFloat.mul (float_of_int (_original_max_size s)) factor)
        = Some q ∧ n = truncate q) ∧
  set_cache_factor fuel factor s
  = (if decide (n ≠ max_size s)
     then (evict fuel ;;' ret true) (set_max_size n s)
     else Returns false s) ∧
  max_size (set_max_size n s) = n ∧
  (∀ b s', set_cache_factor fuel factor s = Returns b s' →
     max_size s' = n ∧ b = bool_decide (n ≠ max_size s) ∧
     (b = true → (cache_len s' ≤ n)%Z)) ∧
  (∀ e s', set_cache_factor fuel factor s = Raises e s' → max_size s' = n) ∧
  (wf s → (∀ k, covers k k = true) → (0 ≤ n)%Z →
   (∀ a, a ∈ recency s → List.find raises (cbs_of (heap s) a) = None) →
   length (recency s) ≤ fuel →
   ∃ s', set_cache_factor fuel factor s
         = Returns (bool_decide (n ≠ max_size s)) s' ∧
         max_size s' = n).
Proof.
  intros Hinit Hflag Hres Hscaled.
  assert (Heq : set_cache_factor fuel factor s
                = (if decide (n ≠ max_size s)
                   then (evict fuel ;;' ret true) (set_max_size n s)
                   else Returns false s)).
  { unfold set_cache_factor. rewrite Hflag, Hscaled. simpl.
    case_decide; [|done]. unfold bind, modify.
    change (_on_resize (set_max_size n s)) with (_on_resize s). by rewrite Hres. }
  split_and!.
  - apply init_max_size in Hinit. by apply scaled_size_truncates.
  - by apply scaled_size_truncates.
  - done.
  - done.
  - intros b s' Hret. rewrite Heq in Hret. case_decide as Hn.
    + rewrite bool_decide_eq_true_2 by done. unfold bind in Hret.
      destruct (evict fuel (set_max_size n s)) as [[] s1|e s1|] eqn:Hev; [|done..].
      injection Hret as <- <-.
      pose proof (evict_max_size _ _ _ Hev) as Hm.
      pose proof (evict_Returns_le _ _ _ Hev) as Hle.
      cbn [max_size set_max_size] in Hm. rewrite Hm in Hle. by split_and!.
    + injection Hret as <- <-.
      rewrite bool_decide_eq_false_2 by (intros Hc; by apply Hc). by split_and!.
  - intros e s' Hraise. rewrite Heq in Hraise. case_decide as Hn; [|done].
    unfold bind in Hraise.
    destruct (evict fuel (set_max_size n s)) as [[] s1|e1 s1|] eqn:Hev; [done| |done].
    injection Hraise as <- <-. by apply evict_Raises_max_size in Hev.
  - intros Hwf Hrefl Hn0 Hq Hfuel. apply wf_Inv in Hwf. rewrite Heq.
    case_decide as Hn.
    + rewrite bool_decide_eq_true_2 by done.
      destruct (evict_total fuel (set_max_size n s) (recency s) 0 Hrefl) as [s' Hev];
        try done.
      { unfold len_of. cbn [take max_size set_max_size].
        destruct size_callback; simpl; lia. }
      exists s'. unfold bind. rewrite Hev. split; [done|].
      by apply evict_max_size in Hev.
    + rewrite bool_decide_eq_false_2 by (intros Hc; by apply Hc).
      exists s. by split.
Qed.

End Scaled.

(** ** A callback that raises (claim C3) *)

Section Raising.
Implicit Types (h : list _Node) (a x : nat) (l : list nat) (s : LruCache)
  (k : K) (v : V).

Lemma interrupted_recency a s l :
  Repr (heap s) l → a ∈ l →
  recency (interrupted a s) = filter (λ x, x ≠ a) l.
Proof.
  intros HR Ha. unfold recency, node_at. cbn [heap interrupted].
  fold (nxt (unlink_h a (heap s)) list_root).
  apply Repr_walk. by apply Repr_unlink_filter.
Qed.

Lemma clear_callbacks_raises ns s a c :
  a ∈ ns → List.find raises (cbs_of (heap s) a) = Some c →
  ∃ c' s', clear_callbacks ns s = Raises (CallbackError c') s' ∧
           cache s' = cache s ∧ cached_cache_len s' = cached_cache_len s ∧
           length (heap s') = length (heap s) ∧
           (∀ x, next_node (heap s' !!! x) = next_node (heap s !!! x)).
Proof.
  revert s. induction ns as [|b ns IH]; intros s Ha Hfind.
  { by apply elem_of_nil in Ha. }
  cbn [clear_callbacks]. unfold bind. rewrite run_and_clear_callbacks_eq.
  destruct (List.find raises (cbs_of (heap s) b)) as [c'|] eqn:Hb.
  - by exists c', (add_fired (called (cbs_of (heap s) b)) s).
  - assert (Hne : a ≠ b) by (intros ->; congruence).
    apply elem_of_cons in Ha as [?|Ha]; [done|].
    destruct (IH (upd_heap (clear_cb_h b) (add_fired (cbs_of (heap s) b) s)) Ha)
      as (c' & s' & Hs' & Hc & Hl & Hlen & Hn).
    { cbn [heap upd_heap add_fired]. by rewrite clear_cb_h_cbs_ne. }
    exists c', s'. split_and!; try done.
    + rewrite Hlen. cbn [heap upd_heap add_fired]. apply clear_cb_h_length.
    + intros x. rewrite Hn. cbn [heap upd_heap add_fired]. apply clear_cb_h_next.
Qed.

(** C3 (amended).  A stored key [k] whose node [a] holds a callback that
    raises.  The exception leaves [pop] and [evict] with the node unlinked
    and the key still in the index: with a [size_callback] the cost of the
    entry is out of [len()], without one [len()] counts the indexed keys
    and is what it was.  It leaves [del_multi] with the key out of the
    index as well, and [len()] lower by the cost of the entry either way;
    it leaves [set] of a different value with nothing done; it leaves
    [clear] with the list empty and with index and [len()] as they were.
    [get] calls no callback.  Nothing is undone. *)
Theorem C3_raising_callback_leaves_partial_state
    (s : LruCache) (k : K) (a : nat) (c : Cb) :
  wf s →
  index_get k (cache s) = Some a →
  List.find raises (cbs_of (heap s) a) = Some c →
  let s' := interrupted a s in
  (recency s' = filter (λ x, x ≠ a) (recency s) ∧
   cache_len s' = match size_callback with
                  | Some f => (cache_len s - f (value (node_at s a)))%Z
                  | None => cache_len s
                  end ∧
   fired s' = fired s ++ called (cbs_of (heap s) a) ∧
   index_get k (cache s') = Some a ∧
   __contains__ k s' = true) ∧
  (∀ D (d : D), cache_pop k d s = Raises (CallbackError c) s') ∧
  (∀ fuel, prv (heap s) list_root = a → (cache_len s > max_size s)%Z →
     evict (S fuel) s = Raises (CallbackError c) s') ∧
  ((∀ k0, covers k0 k0 = true) →
   ∃ s2, cache_del_multi k s = Raises (CallbackError c) s2 ∧
         recency s2 = recency s' ∧
         cache_len s2 = (cache_len s - node_cost (heap s) a)%Z ∧
         index_get k (cache s2) = None ∧
         __contains__ k s2 = false) ∧
  (∀ fuel v cbs, Some v ≠ value (node_at s a) →
     ∃ s3, cache_set fuel k v cbs s = Raises (CallbackError c) s3 ∧
           heap s3 = heap s ∧ cache s3 = cache s ∧
           cache_len s3 = cache_len s) ∧
  (∃ c' s4, cache_clear s = Raises (CallbackError c') s4 ∧
            recency s4 = [] ∧ cache s4 = cache s ∧
            cache_len s4 = cache_len s) ∧
  (∀ D (d : D) cbs um, ∃ r s5, cache_get k d cbs um s = Returns r s5).
Proof.
  intros Hwf Hget Hfind s'. apply wf_Inv in Hwf. set (l := recency s) in *.
  pose proof Hwf as (HR & HIx & _).
  destruct (IndexOK_key _ _ _ _ _ HIx Hget) as [Ha Hka].
  split_and!.
  - by apply interrupted_recency.
  - unfold cache_len, s', node_at. cbn [cached_cache_len cache interrupted].
    unfold less_cost. by destruct size_callback.
  - done.
  - done.
  - unfold __contains__, cache_contains. apply bool_decide_eq_true_2.
    exists a. exact Hget.
  - intros D d. by rewrite cache_pop_eq, Hget, Hfind.
  - intros fuel Htail Hgt. rewrite evict_step by done. by rewrite Htail, Hfind.
  - intros Hrefl.
    pose proof (IndexOK_pop_one _ _ _ _ _ Hrefl HIx Hget) as Hone.
    set (rest := List.filter (λ p, negb (covers k p.1)) (cache s)).
    assert (Hgone : index_get k rest = None).
    { apply index_get_None. intros Hin.
      apply list_elem_of_fmap in Hin as ([k' a'] & Hk' & Hin). simpl in Hk'. subst k'.
      apply list_elem_of_In, filter_In in Hin as [_ Hn]. simpl in Hn.
      by rewrite Hrefl in Hn. }
    exists (upd_cache (λ _, rest) s'). split_and!; try done.
    + unfold cache_del_multi, index_pop. rewrite Hone. fold rest.
      cbn [iterate_tree_cache_entry fmap list_fmap snd delete_nodes].
      unfold bind. rewrite delete_node_eq. cbn [heap upd_cache].
      by rewrite Hfind.
    + unfold cache_len, s', node_cost.
      cbn [cached_cache_len cache interrupted upd_cache]. unfold less_cost.
      destruct size_callback; [done|].
      pose proof (List.filter_length (λ p, covers k p.1) (cache s)) as Hl.
      rewrite Hone in Hl. fold rest in Hl. simpl in Hl. lia.
    + unfold __contains__, cache_contains. cbn [cache upd_cache]. rewrite Hgone.
      apply bool_decide_eq_false_2. by intros [? ?].
  - intros fuel v cbs Hne. eexists. split.
    + rewrite cache_set_eq, Hget, Hfind. unfold node_at in Hne.
      by rewrite bool_decide_eq_true_2.
    + done.
  - assert (Hin : a ∈ (cache s).*2).
    { apply index_get_Some in Hget; [|by destruct HIx].
      apply list_elem_of_fmap. by exists (k, a). }
    set (s0 := upd_node list_root (set_prev_node list_root)
                 (upd_node list_root (set_next_node list_root) s)).
    destruct (clear_callbacks_raises (cache s).*2 s0 a c Hin)
      as (c' & s4 & Hs4 & Hc4 & Hl4 & Hlen4 & Hn4).
    { unfold s0, cbs_of. cbn [heap upd_node upd_heap].
      rewrite !callbacks_alter by done. exact Hfind. }
    exists c', s4. split_and!; try done.
    + unfold cache_clear, bind, modify. fold s0.
      change (cache s0) with (cache s). by rewrite Hs4.
    + unfold recency, node_at. rewrite Hn4.
      assert (Hroot : next_node (heap s0 !!! list_root) = list_root).
      { unfold s0. cbn [heap upd_node upd_heap].
        rewrite next_node_alter by done.
        rewrite list_lookup_total_alter_eq; [done|]. by apply (Repr_root_valid _ l). }
      rewrite Hroot. destruct (length (heap s4)); done.
    + unfold cache_len. by rewrite Hc4, Hl4.
  - intros D d cbs um. rewrite cache_get_eq, Hget. by eexists _, _.
Qed.

End Raising.

(** ** Callbacks of a node *)

Section Callbacks.
Implicit Types (cur : option (list Cb)) (cbs old : list Cb) (c : Cb)
  (a : nat) (s : LruCache).

(** [run_and_clear_callbacks] where no callback raises: every stored
    callback is called once, in the order stored, the node is left without
    callbacks, and a second run calls nothing. *)
Theorem callbacks_run_once a s :
  a < length (heap s) →
  List.find raises (cbs_of (heap s) a) = None →
  ∃ s1, run_and_clear_callbacks a s = Returns tt s1 ∧
        fired s1 = fired s ++ cbs_of (heap s) a ∧
        cbs_of (heap s1) a = [] ∧
        run_and_clear_callbacks a s1 = Returns tt s1.
Proof.
  intros Hlt Hq. rewrite run_and_clear_callbacks_eq, Hq.
  eexists. split; [done|]. split; [done|].
  assert (Hc : cbs_of (heap (upd_heap (clear_cb_h a)
                 (add_fired (cbs_of (heap s) a) s))) a = []).
  { cbn [heap upd_heap add_fired]. by apply clear_cb_h_cbs_eq. }
  split; [done|].
  unfold run_and_clear_callbacks, node_at. unfold cbs_of in Hc.
  destruct (callbacks _) as [[|c cbs]|]; done.
Qed.

End Callbacks.

(** ** Item access and the new cache *)

Section Observers.
Implicit Types (h : list _Node) (a x : nat) (l : list nat) (s : LruCache)
  (k : K) (v : V).

(** [cache[key]]: [KeyError], and a miss counted, for a key that is not
    stored; for a stored key the value, with the entry moved to the front,
    a hit counted, and nothing else changed. *)
Theorem getitem_KeyError_iff_absent k s :
  wf s →
  (__contains__ k s = false →
   __getitem__ k s = Raises KeyError (upd_metrics inc_misses s)) ∧
  (∀ a, index_get k (cache s) = Some a →
     ∃ s', __getitem__ k s = Returns (value (node_at s a)) s' ∧
           recency s' = a :: filter (λ x, x ≠ a) (recency s) ∧
           cache s' = cache s ∧
           metrics s' = inc_hits <$> metrics s ∧
           (∀ x, key (node_at s' x) = key (node_at s x) ∧
                 value (node_at s' x) = value (node_at s x) ∧
                 callbacks (node_at s' x) = callbacks (node_at s x)) ∧
           wf s').
Proof.
  intros Hwf. apply wf_Inv in Hwf. pose proof Hwf as (HR & HIx & _). split.
  - unfold __contains__, cache_contains. rewrite bool_decide_eq_false.
    intros Hn. apply getitem_absent.
    destruct (index_get k (cache s)); [|done]. exfalso. by apply Hn.
  - intros a Hget. rewrite (getitem_present _ _ _ Hget). eexists. split; [done|].
    destruct (IndexOK_key _ _ _ _ _ HIx Hget) as [Ha _].
    pose proof (touched_Inv a [] true s _ Hwf Ha) as HI'.
    split_and!; try done.
    + by apply Inv_recency.
    + intros x. unfold node_at. cbn [heap touched]. split_and!.
      * by rewrite key_alter, mtf_h_key.
      * by rewrite value_alter, mtf_h_value.
      * rewrite list_lookup_total_alter. case_decide as Hc.
        -- destruct Hc as [-> _]. simpl. by rewrite mtf_h_callbacks.
        -- by rewrite mtf_h_callbacks.
    + by apply Inv_wf in HI'.
Qed.

(** A cache as the constructor leaves it: well formed, empty, of length
    [0], holding no key, with the capacity it was given when the factor of
    the configuration is not applied. *)
Theorem new_cache_is_empty size name af s0 :
  __init__ size name af = inr s0 →
  wf s0 ∧ recency s0 = [] ∧ __len__ s0 = 0%Z ∧
  (∀ k, __contains__ k s0 = false) ∧
  (af = false → max_size s0 = size) ∧
  _original_max_size s0 = size.
Proof.
  intros Hinit. destruct (init_Inv _ _ _ _ Hinit) as (HI & Hc & _ & Ho & _).
  split_and!.
  - by apply Inv_wf in HI.
  - by apply Inv_recency.
  - unfold __len__. by rewrite (Inv_cache_len _ _ HI); unfold len_of; destruct size_callback.
  - intros k. unfold __contains__, cache_contains. rewrite Hc.
    apply bool_decide_eq_false_2. by intros [? ?].
  - intros ->. apply init_max_size in Hinit. by injection Hinit as ->.
  - done.
Qed.

End Observers.

(** ** [pop] and [clear] *)

Section Removal.
Implicit Types (h : list _Node) (a x : nat) (l : list nat) (s : LruCache)
  (k : K) (v : V).

(** The index is a [dict]. *)
Hypothesis dict_index : ∀ k1 k2, covers k1 k2 = bool_decide (k1 = k2).

Lemma length_filter_ne l a :
  NoDup l → a ∈ l → length l = S (length (filter (λ x, x ≠ a) l)).
Proof.
  intros Hnd Ha. apply list_elem_of_split in Ha as (l1 & l2 & ->).
  rewrite filter_ne_split by done. rewrite !length_app. simpl. lia.
Qed.

Lemma removed_len a s l :
  Inv s l → a ∈ l →
  cache_len (removed a s) = (cache_len s - node_cost (heap s) a)%Z.
Proof.
  intros HI Ha.
  pose proof (removed_Inv a s l (dict_refl dict_index) HI Ha) as HI'.
  pose proof HI as (HR & _).
  rewrite (Inv_cache_len _ _ HI'), (Inv_cache_len _ _ HI).
  unfold len_of, node_cost. destruct size_callback as [f|].
  - rewrite <- (cost_sum_remove f (heap s) l a); [|by apply Repr_NoDup in HR|done].
    apply cost_sum_ext. intros b _. by destruct (removed_entry a s b) as (_ & -> & _).
  - rewrite (length_filter_ne l a); [lia|by apply Repr_NoDup in HR|done].
Qed.

Lemma removed_index a s l k :
  Inv s l → index_get k (cache s) = Some a →
  index_get k (cache (removed a s)) = None.
Proof.
  intros HI Hget. pose proof HI as (HR & HIx & _).
  destruct (IndexOK_key _ _ _ _ _ HIx Hget) as [Ha Hka].
  pose proof (removed_Inv a s l (dict_refl dict_index) HI Ha) as HI'.
  destruct (index_get k (cache (removed a s))) as [a'|] eqn:Hget'; [|done].
  exfalso. pose proof HI' as (_ & HIx' & _).
  destruct (IndexOK_key _ _ _ _ _ HIx' Hget') as [Ha' Hka'].
  apply list_elem_of_filter in Ha' as [Hne Ha'].
  destruct (removed_entry a s a') as (Hk & _). rewrite Hk in Hka'.
  pose proof (Inv_index_at s l a' k HI Ha' Hka') as Hget2. congruence.
Qed.

(** [pop] of a key that is not stored returns the default and the cache
    is the one it was.  [pop] of a stored key whose callbacks do not raise
    returns the value, calls the callbacks, takes the entry out of list and
    index and its cost out of [len()]; a second [pop] returns the default. *)
Theorem pop_removes_entry {D} k (d : D) s :
  wf s →
  (index_get k (cache s) = None → cache_pop k d s = Returns (Default d) s) ∧
  (∀ a, index_get k (cache s) = Some a →
     List.find raises (cbs_of (heap s) a) = None →
     ∃ s', cache_pop k d s = Returns (Found (value (node_at s a))) s' ∧
           recency s' = filter (λ x, x ≠ a) (recency s) ∧
           fired s' = fired s ++ cbs_of (heap s) a ∧
           __contains__ k s' = false ∧
           __len__ s' = (__len__ s - node_cost (heap s) a)%Z ∧
           cache_pop k d s' = Returns (Default d) s' ∧
           wf s').
Proof.
  intros Hwf. apply wf_Inv in Hwf. pose proof Hwf as (HR & HIx & _). split.
  - intros Hget. by rewrite cache_pop_eq, Hget.
  - intros a Hget Hq. rewrite cache_pop_eq, Hget, Hq.
    destruct (IndexOK_key _ _ _ _ _ HIx Hget) as [Ha Hka].
    pose proof (removed_Inv a s _ (dict_refl dict_index) Hwf Ha) as HI'.
    pose proof (removed_index a s _ k Hwf Hget) as Hgone.
    exists (removed a s). split_and!; try done.
    + by apply Inv_recency.
    + unfold __contains__, cache_contains. rewrite Hgone.
      apply bool_decide_eq_false_2. by intros [? ?].
    + by apply (removed_len a s (recency s)).
    + by rewrite cache_pop_eq, Hgone.
    + by apply Inv_wf in HI'.
Qed.

Lemma set_Returns_front fuel k v cbs s l s1 :
  Inv s l → (0 ≤ max_size s)%Z → (cost_of_value v ≤ max_size s)%Z →
  cache_set fuel k v cbs s = Returns tt s1 →
  ∃ a l', Inv s1 (a :: l') ∧ key (heap s1 !!! a) = Some k ∧
          value (heap s1 !!! a) = Some v.
Proof.
  intros HI Hmax Hcost Hset. pose proof HI as (HR & HIx & _).
  rewrite cache_set_eq in Hset.
  destruct (index_get k (cache s)) as [a|] eqn:Hget.
  - destruct (IndexOK_key _ _ _ _ _ HIx Hget) as [Ha Hka].
    pose proof (Repr_valid _ _ _ HR Ha) as Hlt.
    assert (Hev : evict fuel (updated a v cbs s) = Returns tt s1).
    { case_bool_decide; [|done]. by destruct (List.find raises _). }
    destruct (updated_entry a v cbs s a Hlt) as (Hk1 & Hv1 & _).
    rewrite decide_True in Hv1 by done.
    destruct (survives_evict dict_index fuel _ _ a s1 (updated_Inv a v cbs s l HI Ha))
      as (l' & HI1 & Hk' & Hv'); [done| |done|].
    { unfold node_cost, cost_of_value in *. rewrite Hv1.
      change (max_size (updated a v cbs s)) with (max_size s).
      by destruct size_callback. }
    exists a, l'. split_and!; [done|congruence..].
  - set (nd := new_node list_root (nxt (heap s) list_root) (Some k) (Some v) (py_set cbs)).
    destruct (add_h_lookup_new nd (heap s)) as (Hk1 & Hv1 & _).
    destruct (survives_evict dict_index fuel _ _ _ s1
                (added_Inv k v (py_set cbs) s l (dict_flat dict_index) HI Hget))
      as (l' & HI1 & Hk' & Hv'); [done| |done|].
    { unfold node_cost, cost_of_value in *. cbn [heap added]. fold nd. rewrite Hv1.
      change (max_size (added k v (py_set cbs) s)) with (max_size s).
      by destruct size_callback. }
    exists (length (heap s)), l'. split_and!; [done| |].
    + rewrite Hk'. cbn [heap added]. fold nd. by rewrite Hk1.
    + rewrite Hv'. cbn [heap added]. fold nd. by rewrite Hv1.
Qed.

(** Round trip: where no callback raises and the value fits the capacity,
    [pop(k)] after a [set(k, v)] that returned gives [v] back and leaves
    no entry for [k]. *)
Theorem pop_after_set_returns_value {D} k v cbs (d : D) fuel s s1 :
  wf s →
  (∀ c, raises c = false) →
  (0 ≤ max_size s)%Z → (cost_of_value v ≤ max_size s)%Z →
  cache_set fuel k v cbs s = Returns tt s1 →
  ∃ s2, cache_pop k d s1 = Returns (Found (Some v)) s2 ∧
        __contains__ k s2 = false ∧
        (Some k ∉ recency_keys s2) ∧
        wf s2.
Proof.
  intros Hwf Hq Hmax Hcost Hset. apply wf_Inv in Hwf.
  destruct (set_Returns_front fuel k v cbs s _ s1 Hwf Hmax Hcost Hset)
    as (a & l' & HI1 & Hk & Hv).
  assert (Hget : index_get k (cache s1) = Some a).
  { apply (Inv_index_at s1 (a :: l')); [done|by left|done]. }
  rewrite cache_pop_eq, Hget, find_never_raises, Hv by done.
  pose proof (removed_Inv a s1 _ (dict_refl dict_index) HI1 (list_elem_of_here _ _)) as HI2.
  pose proof (removed_index a s1 _ k HI1 Hget) as Hgone.
  exists (removed a s1). split_and!; try done.
  - unfold __contains__, cache_contains. rewrite Hgone.
    apply bool_decide_eq_false_2. by intros [? ?].
  - unfold recency_keys, node_at. rewrite (Inv_recency _ _ HI2).
    intros (a' & Hka' & Ha')%list_elem_of_fmap.
    pose proof (Inv_index_at _ _ a' k HI2 Ha') as Hc. rewrite Hgone in Hc.
    by specialize (Hc (eq_sym Hka')).
  - by apply Inv_wf in HI2.
Qed.

(** *** [clear] *)

Definition cleared_h (ns : list nat) (h : list _Node) : list _Node :=
  foldl (λ h a, clear_cb_h a h) h ns.

Lemma cleared_h_length ns h : length (cleared_h ns h) = length h.
Proof.
  revert h; induction ns as [|a ns IH]; intros h; simpl; [done|].
  by rewrite IH, clear_cb_h_length.
Qed.

Lemma cleared_h_next ns h x :
  next_node (cleared_h ns h !!! x) = next_node (h !!! x).
Proof.
  revert h; induction ns as [|a ns IH]; intros h; simpl; [done|].
  by rewrite IH, clear_cb_h_next.
Qed.

Lemma cleared_h_prev ns h x :
  prev_node (cleared_h ns h !!! x) = prev_node (h !!! x).
Proof.
  revert h; induction ns as [|a ns IH]; intros h; simpl; [done|].
  by rewrite IH, clear_cb_h_prev.
Qed.

Lemma clear_callbacks_eq ns s :
  NoDup ns →
  (∀ a, a ∈ ns → List.find raises (cbs_of (heap s) a) = None) →
  clear_callbacks ns s
  = Returns tt (upd_heap (cleared_h ns)
                  (add_fired (concat (cbs_of (heap s) <$> ns)) s)).
Proof.
  revert s; induction ns as [|a ns IH]; intros s Hnd Hq.
  - simpl. unfold ret, upd_heap, add_fired. simpl. rewrite app_nil_r.
    by rewrite <- LruCache_eta.
  - apply NoDup_cons in Hnd as [Ha Hnd].
    cbn [clear_callbacks]. unfold bind.
    rewrite run_and_clear_callbacks_eq, Hq by (by left).
    assert (Hsame : ∀ x, x ∈ ns →
              cbs_of (clear_cb_h a (heap s)) x = cbs_of (heap s) x).
    { intros x Hx. apply clear_cb_h_cbs_ne. by intros ->. }
    assert (Heq : cbs_of (clear_cb_h a (heap s)) <$> ns = cbs_of (heap s) <$> ns).
    { apply list_fmap_ext. intros i x Hx. apply Hsame.
      by apply list_elem_of_lookup_2 in Hx. }
    rewrite IH; [|done|].
    + f_equal. unfold upd_heap, add_fired. cbn -[cleared_h].
      by rewrite Heq, <- app_assoc.
    + intros x Hx. cbn [heap upd_heap add_fired]. rewrite Hsame by done.
      apply Hq. by right.
Qed.

Lemma cache_clear_spec s l :
  Inv s l →
  (∀ a, a ∈ l → List.find raises (cbs_of (heap s) a) = None) →
  ∃ s', cache_clear s = Returns tt s' ∧
        recency s' = [] ∧ cache s' = [] ∧ __len__ s' = 0%Z ∧
        fired s' = fired s ++ concat (cbs_of (heap s) <$> (cache s).*2) ∧
        metrics s' = (if TRACK_MEMORY_USAGE
                      then clear_memory_usage <$> metrics s else metrics s) ∧
        max_size s' = max_size s ∧
        Inv s' [].
Proof.
  intros Hwf Hq. pose proof Hwf as (HR & HIx & _ & Hres).
  set (s0 := upd_node list_root (set_prev_node list_root)
               (upd_node list_root (set_next_node list_root) s)).
  assert (Hcbs : ∀ x, cbs_of (heap s0) x = cbs_of (heap s) x).
  { intros x. unfold cbs_of, s0. cbn [heap upd_node upd_heap].
    by rewrite !callbacks_alter. }
  assert (Hclear : clear_callbacks (cache s).*2 s0
            = Returns tt (upd_heap (cleared_h (cache s).*2)
                (add_fired (concat (cbs_of (heap s) <$> (cache s).*2)) s0))).
  { rewrite clear_callbacks_eq.
    - assert (Heq : cbs_of (heap s0) <$> (cache s).*2
                    = cbs_of (heap s) <$> (cache s).*2).
      { apply list_fmap_ext. intros i x _. apply Hcbs. }
      by rewrite Heq.
    - by destruct HIx as (_ & ? & _).
    - intros a Ha. rewrite Hcbs. apply Hq.
      destruct HIx as (_ & _ & Hin & _). by apply (proj1 (Forall_forall _ _) Hin). }
  unfold cache_clear, bind, modify. fold s0.
  change (cache s0) with (cache s). rewrite Hclear.
  eexists. split; [reflexivity|].
  match goal with |- recency ?s1 = _ ∧ _ => set (s' := s1) end.
  assert (Hheap : heap s' = cleared_h (cache s).*2 (heap s0)).
  { unfold s'. by destruct TRACK_MEMORY_USAGE, size_callback. }
  assert (Hcache : cache s' = []).
  { unfold s'. by destruct TRACK_MEMORY_USAGE, size_callback. }
  assert (HI' : Inv s' []).
  { pose proof (Repr_root_valid _ _ HR) as H0. split_and!.
    - split_and!.
      + apply NoDup_singleton.
      + rewrite Hheap, cleared_h_length. unfold s0. cbn [heap upd_node upd_heap].
        rewrite !length_alter. by repeat constructor.
      + simpl. unfold nxt, prv. rewrite Hheap, cleared_h_next, cleared_h_prev.
        unfold s0. cbn [heap upd_node upd_heap].
        fold (nxt (alter (set_prev_node list_root) list_root
                     (alter (set_next_node list_root) list_root (heap s))) list_root).
        fold (prv (alter (set_prev_node list_root) list_root
                     (alter (set_next_node list_root) list_root (heap s))) list_root).
        rewrite nxt_set_prev, nxt_set_next, prv_set_prev.
        rewrite !decide_True; [done|by rewrite ?length_alter..].
    - rewrite Hcache. apply IndexOK_nil.
    - unfold CostOK, s'. destruct size_callback; [|done].
      by destruct TRACK_MEMORY_USAGE.
    - unfold s'. by destruct TRACK_MEMORY_USAGE, size_callback. }
  split_and!.
  - by apply Inv_recency.
  - done.
  - unfold __len__. rewrite (Inv_cache_len _ _ HI'). unfold len_of.
    by destruct size_callback.
  - unfold s'. by destruct TRACK_MEMORY_USAGE, size_callback.
  - unfold s'. by destruct TRACK_MEMORY_USAGE, size_callback.
  - unfold s'. by destruct TRACK_MEMORY_USAGE, size_callback.
  - done.
Qed.


(** [clear] where no stored callback raises: the callbacks of every entry
    are called, entry by entry in the order the keys were first stored; the
    list and the index end empty, [len()] is [0], every [get] misses, and
    the capacity is the one it was. *)
Theorem clear_empties_cache s :
  wf s →
  (∀ a, a ∈ recency s → List.find raises (cbs_of (heap s) a) = None) →
  ∃ s', cache_clear s = Returns tt s' ∧
        recency s' = [] ∧ cache s' = [] ∧ __len__ s' = 0%Z ∧
        fired s' = fired s ++ concat (cbs_of (heap s) <$> (cache s).*2) ∧
        metrics s' = (if TRACK_MEMORY_USAGE
                      then clear_memory_usage <$> metrics s else metrics s) ∧
        max_size s' = max_size s ∧
        (∀ k, __contains__ k s' = false) ∧
        wf s'.
Proof.
  intros Hwf Hq. apply wf_Inv in Hwf.
  destruct (cache_clear_spec s _ Hwf Hq)
    as (s' & Hs' & Hr & Hc & Hl & Hf & Hm & Hmax & HI').
  exists s'. split_and!; try done.
  - intros k. unfold __contains__, cache_contains. rewrite Hc.
    apply bool_decide_eq_false_2. by intros [? ?].
  - by apply Inv_wf in HI'.
Qed.

End Removal.

(** ** What every operation keeps *)

Section Preservation.
Implicit Types (h : list _Node) (a x : nat) (l : list nat) (s : LruCache)
  (k : K) (v : V).

(** The index is a [dict]. *)
Hypothesis dict_index : ∀ k1 k2, covers k1 k2 = bool_decide (k1 = k2).

Lemma evict_Returns_wf fuel s l s' :
  Inv s l → evict fuel s = Returns tt s' → (0 ≤ max_size s')%Z → wf s'.
Proof.
  intros HI Hev Hmax. rewrite (evict_max_size _ _ _ Hev) in Hmax.
  destruct (evict_Returns fuel s l s' (dict_refl dict_index) HI Hmax Hev)
    as (j & _ & HIj & _).
  by apply Inv_wf in HIj.
Qed.

Lemma delete_nodes_quiet ds s s' :
  NoDup ds → delete_nodes ds s = Returns tt s' →
  ∀ a, a ∈ ds → List.find raises (cbs_of (heap s) a) = None.
Proof.
  revert s; induction ds as [|b ds IH]; intros s Hnd Hdel a Ha;
    [by apply elem_of_nil in Ha|].
  apply NoDup_cons in Hnd as [Hb Hnd].
  cbn [delete_nodes] in Hdel. unfold bind in Hdel. rewrite delete_node_eq in Hdel.
  destruct (List.find raises (cbs_of (heap s) b)) eqn:Hfb; [done|].
  apply elem_of_cons in Ha as [->|Ha]; [done|].
  rewrite <- (IH _ Hnd Hdel a Ha). cbn [heap deleted].
  rewrite clear_cb_h_cbs_ne, unlink_h_cbs; [done|]. by intros ->.
Qed.

Lemma clear_callbacks_quiet ns s s' :
  NoDup ns → clear_callbacks ns s = Returns tt s' →
  ∀ a, a ∈ ns → List.find raises (cbs_of (heap s) a) = None.
Proof.
  revert s; induction ns as [|b ns IH]; intros s Hnd Hcl a Ha;
    [by apply elem_of_nil in Ha|].
  apply NoDup_cons in Hnd as [Hb Hnd].
  cbn [clear_callbacks] in Hcl. unfold bind in Hcl.
  rewrite run_and_clear_callbacks_eq in Hcl.
  destruct (List.find raises (cbs_of (heap s) b)) eqn:Hfb; [done|].
  apply elem_of_cons in Ha as [->|Ha]; [done|].
  rewrite <- (IH _ Hnd Hcl a Ha). cbn [heap upd_heap add_fired].
  rewrite clear_cb_h_cbs_ne; [done|]. by intros ->.
Qed.

Lemma del_multi_Inv k s l :
  Inv s l →
  let popped := List.filter (λ p, covers k p.1) (cache s) in
  (∀ a, a ∈ popped.*2 → List.find raises (cbs_of (heap s) a) = None) →
  ∃ s', cache_del_multi k s = Returns tt s' ∧
        Inv s' (filter (λ x, x ∉ popped.*2) l).
Proof.
  intros HI popped Hq. pose proof HI as (HR & HIx & HC & Hres).
  destruct popped as [|p popped'] eqn:Hpop.
  - exists s. split.
    + unfold cache_del_multi, index_pop. fold popped. by rewrite Hpop.
    + simpl. by rewrite filter_notin_nil.
  - rewrite <- Hpop in *.
    set (rest := List.filter (λ p, negb (covers k p.1)) (cache s)).
    assert (Hsub : ∀ a, a ∈ popped.*2 → a ∈ l).
    { intros a Ha. destruct HIx as (_ & _ & Hin & _).
      apply (proj1 (Forall_forall _ _) Hin).
      apply list_elem_of_fmap in Ha as (q & -> & Hq').
      apply list_elem_of_fmap. exists q. split; [done|].
      apply list_elem_of_In, filter_In in Hq' as [Hq' _]. by apply list_elem_of_In. }
    assert (Hndp : NoDup popped.*2).
    { destruct HIx as (_ & Hn & _). apply (sublist_NoDup _ (cache s).*2 Hn).
      apply fmap_sublist, filter_covers_sublist. }
    destruct (delete_nodes_spec popped.*2 (upd_cache (λ _, rest) s) l)
      as (s' & Hs' & HR' & HC' & Hc' & Hr' & Hm' & Hf' & Hk' & Hv' & Hcb'); try done.
    exists s'. split.
    + unfold cache_del_multi, index_pop. fold popped. fold rest.
      rewrite Hpop. rewrite <- Hpop. done.
    + split_and!; [done| |done|by rewrite Hr'].
      rewrite Hc'. cbn [cache upd_cache]. unfold rest.
      apply (IndexOK_remove (covers k) _ (heap s) _ l); [done|by intros|].
      intros x. by rewrite list_elem_of_filter, (and_comm (x ∉ _)).
Qed.

Lemma exec_Returns_wf fuel o s s' :
  wf s → exec fuel o s = Returns tt s' → (0 ≤ max_size s')%Z → wf s'.
Proof.
  intros Hwf Hex Hmax. apply wf_Inv in Hwf. set (l := recency s) in *.
  pose proof Hwf as (HR & HIx & HC & Hres).
  destruct o as [k cbs um|k v cbs|k v|k|k| |factor]; cbn [exec] in Hex.
  - unfold bind in Hex. rewrite cache_get_eq in Hex.
    destruct (index_get k (cache s)) as [a|] eqn:Hget; injection Hex as <-.
    + destruct (IndexOK_key _ _ _ _ _ HIx Hget) as [Ha _].
      by apply (Inv_wf _ _ (touched_Inv a cbs um s l Hwf Ha)).
    + destruct um; by apply (Inv_wf _ l).
  - rewrite cache_set_eq in Hex.
    destruct (index_get k (cache s)) as [a|] eqn:Hget.
    + destruct (IndexOK_key _ _ _ _ _ HIx Hget) as [Ha _].
      apply (evict_Returns_wf fuel _ _ s' (updated_Inv a v cbs s l Hwf Ha)); [|done].
      case_bool_decide; [|done]. by destruct (List.find raises _).
    + by apply (evict_Returns_wf fuel _ _ s'
                  (added_Inv k v (py_set cbs) s l (dict_flat dict_index) Hwf Hget)).
  - unfold bind, cache_set_default in Hex.
    destruct (index_get k (cache s)) as [a|] eqn:Hget.
    + injection Hex as <-. by apply (Inv_wf _ l).
    + unfold bind in Hex. rewrite add_node_eq in Hex.
      destruct (evict fuel (added k v [] s)) as [[] s1|e s1|] eqn:Hev; [|done..].
      injection Hex as <-.
      by apply (evict_Returns_wf fuel _ _ s1
                  (added_Inv k v [] s l (dict_flat dict_index) Hwf Hget)).
  - unfold bind in Hex. rewrite cache_pop_eq in Hex.
    destruct (index_get k (cache s)) as [a|] eqn:Hget;
      [|injection Hex as <-; by apply (Inv_wf _ l)].
    destruct (List.find raises _); [done|]. injection Hex as <-.
    destruct (IndexOK_key _ _ _ _ _ HIx Hget) as [Ha _].
    by apply (Inv_wf _ _ (removed_Inv a s l (dict_refl dict_index) Hwf Ha)).
  - destruct (del_multi_Inv k s l Hwf) as (s'' & Hs'' & HI'').
    + assert (Hnd : NoDup (List.filter (λ p, covers k p.1) (cache s)).*2).
      { destruct HIx as (_ & Hn & _). apply (sublist_NoDup _ (cache s).*2 Hn).
        apply fmap_sublist, filter_covers_sublist. }
      unfold cache_del_multi, index_pop in Hex. intros a Ha.
      destruct (List.filter (λ p, covers k p.1) (cache s)) as [|p popped];
        [by apply elem_of_nil in Ha|].
      apply (delete_nodes_quiet _ _ _ Hnd Hex a Ha).
    + rewrite Hs'' in Hex. injection Hex as <-. by apply (Inv_wf _ _ HI'').
  - destruct (cache_clear_spec s l Hwf) as (s'' & Hs'' & _ & _ & _ & _ & _ & _ & HI'').
    + unfold cache_clear, bind, modify in Hex.
      destruct (clear_callbacks _ _) as [[] s1|e s1|] eqn:Hcl; [|done..].
      intros a Ha.
      pose proof (clear_callbacks_quiet _ _ _ (proj1 (proj2 HIx)) Hcl a) as Hq.
      unfold cbs_of in *. cbn [heap upd_node upd_heap] in Hq.
      rewrite !callbacks_alter in Hq by done. apply Hq.
      destruct HIx as (_ & _ & _ & Hin & _). by apply (proj1 (Forall_forall _ _) Hin).
    + rewrite Hs'' in Hex. injection Hex as <-. by apply (Inv_wf _ _ HI'').
  - unfold bind, set_cache_factor in Hex.
    destruct (apply_cache_factor_from_config s); simpl in Hex;
      [|injection Hex as <-; by apply (Inv_wf _ l)].
    destruct (scaled_size _ _) as [e|n]; [done|].
    case_decide; [|injection Hex as <-; by apply (Inv_wf _ l)].
    unfold bind, modify in Hex.
    change (_on_resize (set_max_size n s)) with (_on_resize s) in Hex.
    rewrite Hres in Hex.
    destruct (evict fuel (set_max_size n s)) as [[] s1|e s1|] eqn:Hev; [|done..].
    injection Hex as <-.
    by apply (evict_Returns_wf fuel _ _ s1 (Inv_set_max_size n s l Hwf)).
Qed.

(** Every operation that returns, with the capacity not negative, leaves
    the cache well formed: the list is a circular doubly-linked list through
    [list_root], the index holds exactly the listed nodes under their keys,
    and [cached_cache_len] is the sum of the sizes of the listed values. *)
Theorem operations_preserve_wf fuel o s s' :
  wf s → exec fuel o s = Returns tt s' → (0 ≤ max_size s')%Z → wf s'.
Proof. apply exec_Returns_wf. Qed.

(** *** Caches that a run of operations has produced *)

(** [reached s0 s]: [s] comes from [s0] by operations that returned, the
    capacity not negative after any of them. *)
Inductive reached (s0 : LruCache) : LruCache → Prop :=
| reached_refl : reached s0 s0
| reached_step fuel o s s' :
    reached s0 s → exec fuel o s = Returns tt s' → (0 ≤ max_size s')%Z →
    reached s0 s'.

Lemma reached_wf size name af s0 s :
  __init__ size name af = inr s0 → reached s0 s → wf s.
Proof.
  intros Hinit Hr. induction Hr as [|fuel o s s' _ IH Hex Hmax].
  - destruct (init_Inv _ _ _ _ Hinit) as (HI & _). by apply Inv_wf in HI.
  - by apply (exec_Returns_wf fuel o s s').
Qed.

(** [len()] of a cache that the constructor and a run of operations that
    returned have produced, the capacity never negative on the way: the
    number of listed entries, which is the number of indexed keys, or with
    a [size_callback] the sum of the sizes of the listed values. *)
Theorem len_is_total_cost size name af s0 s :
  __init__ size name af = inr s0 → reached s0 s →
  length (cache s) = length (recency s) ∧
  __len__ s = match size_callback with
              | Some f => cost_sum f (heap s) (recency s)
              | None => Z.of_nat (length (recency s))
              end.
Proof.
  intros Hinit Hr. pose proof (reached_wf _ _ _ _ _ Hinit Hr) as Hwf.
  apply wf_Inv in Hwf. pose proof Hwf as (HR & HIx & _). split.
  - apply (IndexOK_length _ _ _ HIx). by apply Repr_NoDup in HR.
  - unfold __len__. by rewrite (Inv_cache_len _ _ Hwf).
Qed.

(** In a cache that the constructor and a run of operations that returned
    have produced, the capacity never negative on the way, no key is listed
    twice; [key in cache] holds exactly for the keys of the listed nodes;
    [get] of a listed key finds the value of the node listed under it, and
    [get] of any other key returns the default. *)
Theorem contains_iff_listed {D} size name af s0 s k (d : D) cbs um :
  __init__ size name af = inr s0 → reached s0 s →
  NoDup (recency_keys s) ∧
  (__contains__ k s = true ↔ Some k ∈ recency_keys s) ∧
  (Some k ∈ recency_keys s
   ↔ ∃ a s', a ∈ recency s ∧ key (node_at s a) = Some k ∧
             cache_get k d cbs um s = Returns (Found (value (node_at s a))) s') ∧
  (Some k ∉ recency_keys s
   ↔ ∃ s', cache_get k d cbs um s = Returns (Default d) s').
Proof.
  intros Hinit Hr. pose proof (reached_wf _ _ _ _ _ Hinit Hr) as Hwf.
  apply wf_Inv in Hwf. pose proof Hwf as (HR & HIx & _).
  assert (Hlisted : Some k ∈ recency_keys s ↔ is_Some (index_get k (cache s))).
  { unfold recency_keys, node_at. split.
    - intros (a & Hka & Ha)%list_elem_of_fmap.
      exists a. by apply (Inv_index_at s (recency s)).
    - intros [a Hget]. destruct (IndexOK_key _ _ _ _ _ HIx Hget) as [Ha Hka].
      apply list_elem_of_fmap. by exists a. }
  split_and!.
  - unfold recency_keys, node_at. apply NoDup_fmap_2_strong.
    + intros a b Ha Hb Hab.
      destruct (IndexOK_lookup _ _ _ _ HIx Ha) as (ka & Hka & Hga).
      destruct (IndexOK_lookup _ _ _ _ HIx Hb) as (kb & Hkb & Hgb).
      congruence.
    + by apply Repr_NoDup in HR.
  - unfold __contains__, cache_contains. by rewrite bool_decide_eq_true, Hlisted.
  - rewrite Hlisted, cache_get_eq. split.
    + intros [a Hget]. destruct (IndexOK_key _ _ _ _ _ HIx Hget) as [Ha Hka].
      exists a. rewrite Hget. by eexists.
    + intros (a & s' & Ha & Hka & Hg).
      exists a. by apply (Inv_index_at s (recency s)).
  - rewrite Hlisted, cache_get_eq. split.
    + intros Hn. destruct (index_get k (cache s)) as [a|]; [|by eexists].
      exfalso. by apply Hn.
    + intros [s' Hg] [a Hget]. by rewrite Hget in Hg.
Qed.

(** *** A negative capacity *)

(** With one unit per entry and callbacks that do not raise, a capacity
    below zero is never met: the loop of [evict] empties the cache and then
    goes on deleting [list_root], so [evict], every [set] and a resize to
    such a capacity, other than the current one, do not return. *)
Theorem negative_capacity_never_returns s :
  size_callback = None → (∀ c, raises c = false) → wf s →
  (∀ fuel, (max_size s < 0)%Z → evict fuel s = Diverges) ∧
  (∀ fuel k v cbs, (max_size s < 0)%Z → cache_set fuel k v cbs s = Diverges) ∧
  (∀ fuel factor n,
     apply_cache_factor_from_config s = true →
     scaled_size (_original_max_size s) factor = inr n →
     (n < 0)%Z → n ≠ max_size s →
     set_cache_factor fuel factor s = Diverges).
Proof.
  intros Hunit Hq Hwf. apply wf_Inv in Hwf. set (l := recency s) in *.
  pose proof Hwf as (HR & HIx & HC & Hres). split_and!.
  - intros fuel Hneg. by apply (evict_below_zero dict_index fuel s l).
  - intros fuel k v cbs Hneg. rewrite cache_set_eq.
    destruct (index_get k (cache s)) as [a|] eqn:Hget.
    + destruct (IndexOK_key _ _ _ _ _ HIx Hget) as [Ha _].
      rewrite find_never_raises by done.
      assert (Hev : evict fuel (updated a v cbs s) = Diverges).
      { by apply (evict_below_zero dict_index fuel _ _ Hunit Hq (updated_Inv a v cbs s l Hwf Ha)). }
      by case_bool_decide.
    + by apply (evict_below_zero dict_index fuel _ _ Hunit Hq
                  (added_Inv k v (py_set cbs) s l (dict_flat dict_index) Hwf Hget)).
  - intros fuel factor n Hflag Hscaled Hneg Hne.
    unfold set_cache_factor. rewrite Hflag, Hscaled. simpl.
    rewrite decide_True by done. unfold bind, modify.
    change (_on_resize (set_max_size n s)) with (_on_resize s). rewrite Hres.
    by rewrite (evict_below_zero dict_index fuel _ l Hunit Hq (Inv_set_max_size n s l Hwf)).
Qed.

(** *** The eviction counter *)

Lemma evict_counts fuel s l s' :
  Inv s l → (0 ≤ max_size s)%Z → evict fuel s = Returns tt s' →
  evicted_size <$> metrics s'
  = (λ m, evicted_size m + (cache_len s - cache_len s'))%Z <$> metrics s ∧
  hits <$> metrics s' = hits <$> metrics s ∧
  misses <$> metrics s' = misses <$> metrics s.
Proof.
  revert s l. induction fuel as [|fuel IH]; intros s l HI Hmax Hev.
  - destruct (decide (cache_len s > max_size s)%Z) as [Hgt|Hle].
    { by rewrite evict_out_of_fuel in Hev. }
    rewrite evict_done in Hev by done. injection Hev as <-.
    split; [|done]. destruct (metrics s) as [m|]; simpl; [|done]. f_equal. lia.
  - destruct (decide (cache_len s > max_size s)%Z) as [Hgt|Hle]; cycle 1.
    { rewrite evict_done in Hev by done. injection Hev as <-.
      split; [|done]. destruct (metrics s) as [m|]; simpl; [|done]. f_equal. lia. }
    rewrite evict_step in Hev by done.
    destruct (List.find raises _) eqn:Hfind; [done|].
    destruct l as [|a l0] using rev_ind.
    { rewrite (Inv_cache_len _ _ HI) in Hgt. unfold len_of in Hgt.
      destruct size_callback; simpl in Hgt; lia. }
    clear IHl0. pose proof HI as (HR & _).
    assert (Hlast : prv (heap s) list_root = a).
    { by rewrite (Repr_prv_root _ _ HR), last_last. }
    pose proof (evicted_Inv _ _ _ (dict_refl dict_index) HI) as HI1.
    destruct (IH _ _ HI1 Hmax Hev) as (He & Hh & Hm).
    assert (Hlen : cache_len (evicted s)
                   = (cache_len s - node_cost (heap s) a)%Z).
    { unfold evicted. rewrite Hlast.
      change (cache_len (upd_metrics ?g ?s0)) with (cache_len s0).
      apply (removed_len dict_index a s (l0 ++ [a])); [done|]. set_solver. }
    rewrite Hlen in He. rewrite He, Hh, Hm. unfold evicted. rewrite Hlast.
    cbn [metrics upd_metrics removed deleted upd_cache].
    destruct TRACK_MEMORY_USAGE, (metrics s) as [m|]; simpl; split_and!; try done;
      f_equal; lia.
Qed.

(** On a well formed cache whose capacity is not negative: when [evict]
    returns, the eviction counter of the metrics has grown by what [len()]
    has gone down, and the hit and miss counters are the ones they were. *)
Theorem evictions_metric_counts_cost fuel s s' :
  wf s → (0 ≤ max_size s)%Z → evict fuel s = Returns tt s' →
  evicted_size <$> metrics s'
  = (λ m, evicted_size m + (__len__ s - __len__ s'))%Z <$> metrics s ∧
  hits <$> metrics s' = hits <$> metrics s ∧
  misses <$> metrics s' = misses <$> metrics s.
Proof.
  intros Hwf Hmax Hev. apply wf_Inv in Hwf.
  by apply (evict_counts fuel s (recency s)).
Qed.

End Preservation.

(** ** Which entries go: the order of eviction *)

Section Order.
Implicit Types (h : list _Node) (a x : nat) (l : list nat) (s : LruCache)
  (k : K) (v : V).

(** The index is a [dict]. *)
Hypothesis dict_index : ∀ k1 k2, covers k1 k2 = bool_decide (k1 = k2).

(** [evict] on a well formed cache whose capacity is not negative, given
    fuel for every entry and callbacks that do not raise, returns; what it
    keeps is the longest prefix of the recency list whose cost fits the
    capacity, so the entries that go are the least recently used ones and no
    more of them than needed.  Their callbacks are called, least recently
    used entry first. *)
Theorem evict_keeps_longest_fitting_prefix fuel s :
  wf s → (0 ≤ max_size s)%Z →
  (∀ a, a ∈ recency s → List.find raises (cbs_of (heap s) a) = None) →
  length (recency s) ≤ fuel →
  ∃ s' j, evict fuel s = Returns tt s' ∧
          recency s' = take j (recency s) ∧
          (len_of (heap s) (take j (recency s)) ≤ max_size s)%Z ∧
          (j < length (recency s) →
           (len_of (heap s) (take (S j) (recency s)) > max_size s)%Z) ∧
          (∀ x, key (node_at s' x) = key (node_at s x) ∧
                value (node_at s' x) = value (node_at s x)) ∧
          fired s' = fired s
                     ++ concat (cbs_of (heap s) <$> reverse (drop j (recency s))) ∧
          wf s'.
Proof.
  intros Hwf Hmax Hq Hfuel. apply wf_Inv in Hwf. set (l := recency s) in *.
  destruct (evict_total fuel s l 0 (dict_refl dict_index) Hwf) as [s' Hev];
    try done.
  { unfold len_of. cbn [take]. destruct size_callback; simpl; lia. }
  destruct (evict_Returns fuel s l s' (dict_refl dict_index) Hwf Hmax Hev) as
    (j & Hj & HIj & Hle & Hmaxj & Hm & _ & _ & Hf & Hk & Hv & _).
  exists s', j. split_and!; try done.
  - by apply Inv_recency.
  - rewrite (Inv_cache_len _ _ HIj), Hm in Hle.
    by rewrite <- (len_of_ext (heap s) (heap s')).
  - intros x. unfold node_at. by rewrite Hk, Hv.
  - by apply Inv_wf in HIj.
Qed.

Lemma touched_length a cbs um s :
  length (heap (touched a cbs um s)) = length (heap s).
Proof. cbn [heap touched]. by rewrite length_alter, mtf_h_length. Qed.

Lemma contains_at s l a k :
  Inv s l → a ∈ l → key (heap s !!! a) = Some k → __contains__ k s = true.
Proof.
  intros HI Ha Hk. unfold __contains__, cache_contains.
  rewrite (Inv_index_at s l a k HI Ha Hk). by apply bool_decide_eq_true_2.
Qed.

(** Least recently used, with one unit per entry, callbacks that do not
    raise and room for at least two entries.  A [get] of a stored key
    followed by the [set] of a new key leaves both keys in the cache,
    whatever the position of the first one was.  Without the [get], when the
    cache is full and the key is the least recently used one, the same [set]
    evicts it. *)
Theorem get_protects_from_next_eviction {D} k (d : D) cbs um k' v' cbs' fuel s a :
  size_callback = None → (∀ c, raises c = false) → wf s →
  index_get k (cache s) = Some a → index_get k' (cache s) = None →
  (__len__ s ≤ max_size s)%Z → (2 ≤ max_size s)%Z → 1 ≤ fuel →
  (∃ s1 s2,
     cache_get k d cbs um s = Returns (Found (value (node_at s a))) s1 ∧
     cache_set fuel k' v' cbs' s1 = Returns tt s2 ∧
     recency s2 = take (Z.to_nat (max_size s))
                    (length (heap s) :: a :: filter (λ x, x ≠ a) (recency s)) ∧
     __contains__ k s2 = true ∧ __contains__ k' s2 = true) ∧
  (prv (heap s) list_root = a → __len__ s = max_size s →
   ∃ s3, cache_set fuel k' v' cbs' s = Returns tt s3 ∧
         recency s3 = length (heap s) :: filter (λ x, x ≠ a) (recency s) ∧
         __contains__ k s3 = false ∧ __contains__ k' s3 = true).
Proof.
  intros Hunit Hq Hwf Hget Hget' Hlen Hcap Hfuel. apply wf_Inv in Hwf.
  set (l := recency s) in *. pose proof Hwf as (HR & HIx & _).
  destruct (IndexOK_key _ _ _ _ _ HIx Hget) as [Ha Hka].
  pose proof (Repr_valid _ _ _ HR Ha) as Hlt.
  pose proof (Repr_NoDup _ _ HR) as Hnd.
  unfold __len__ in Hlen. rewrite (Inv_cache_len _ _ Hwf) in Hlen.
  unfold len_of in Hlen. rewrite Hunit in Hlen.
  assert (Hadd : ∀ s0 l0, Inv s0 l0 → index_get k' (cache s0) = None →
            max_size s0 = max_size s → (Z.of_nat (length l0) ≤ max_size s)%Z →
            ∃ s2, cache_set fuel k' v' cbs' s0 = Returns tt s2 ∧
                  Inv s2 (take (Z.to_nat (max_size s)) (length (heap s0) :: l0)) ∧
                  (∀ x, x < length (heap s0) →
                        key (heap s2 !!! x) = key (heap s0 !!! x)) ∧
                  key (heap s2 !!! length (heap s0)) = Some k').
  { intros s0 l0 HI0 Hget0 Hm0 Hlen0. rewrite cache_set_eq, Hget0.
    set (s1 := added k' v' (py_set cbs') s0). set (n1 := length (heap s0)).
    assert (HI1 : Inv s1 (n1 :: l0))
      by (by apply added_Inv; [apply (dict_flat dict_index)|..]).
    destruct (evict_total fuel s1 (n1 :: l0) (Z.to_nat (max_size s))
                (dict_refl dict_index) HI1) as [s2 Hev].
    { unfold len_of. rewrite Hunit, length_take.
      change (max_size s1) with (max_size s0). lia. }
    { intros x _. by apply find_never_raises. }
    { simpl. lia. }
    exists s2. split; [done|].
    destruct (evict_Returns fuel s1 (n1 :: l0) s2 (dict_refl dict_index) HI1) as
      (j & Hj & HIj & Hle & Hmaxj & Hm & _ & _ & _ & Hk' & _ & _); [|done|].
    { change (max_size s1) with (max_size s0). lia. }
    change (max_size s1) with (max_size s0) in Hm, Hmaxj.
    assert (Hpre : take j (n1 :: l0) = take (Z.to_nat (max_size s)) (n1 :: l0)).
    { apply unit_cost_prefix; [done|lia|done| |].
      - rewrite (Inv_cache_len _ _ HIj) in Hle. unfold len_of in Hle.
        rewrite Hunit in Hle. lia.
      - intros Hlt'. specialize (Hmaxj Hlt'). unfold len_of in Hmaxj.
        rewrite Hunit in Hmaxj. lia. }
    rewrite Hpre in HIj. split; [done|].
    set (nd := new_node list_root (nxt (heap s0) list_root) (Some k') (Some v')
                 (py_set cbs')).
    split.
    - intros x Hx. rewrite Hk'.
      destruct (add_h_lookup_old nd (heap s0) x Hx) as (Hko & _). exact Hko.
    - rewrite Hk'.
      destruct (add_h_lookup_new nd (heap s0)) as (Hkn & _). exact Hkn. }
  assert (Htake2 : ∀ (x y : nat) r,
            take (Z.to_nat (max_size s)) (x :: y :: r)
            = x :: y :: take (Z.to_nat (max_size s) - 2) r).
  { intros x y r. replace (Z.to_nat (max_size s))
      with (S (S (Z.to_nat (max_size s) - 2))) at 1 by lia. done. }
  split.
  - rewrite cache_get_eq, Hget.
    pose proof (touched_Inv a cbs um s l Hwf Ha) as HI1.
    destruct (Hadd (touched a cbs um s) _ HI1) as (s2 & Hs2 & HI2 & Hold & Hnew);
      [done|done| |].
    { simpl. rewrite <- (length_filter_ne l a) by done. done. }
    rewrite touched_length in *.
    exists (touched a cbs um s), s2. split_and!; try done.
    + by apply Inv_recency.
    + apply (contains_at s2 _ a k HI2).
      * rewrite Htake2. set_solver.
      * rewrite Hold by done.
        cbn [heap touched]. by rewrite key_alter, mtf_h_key.
    + apply (contains_at s2 _ (length (heap s)) k' HI2); [|done].
      rewrite Htake2. set_solver.
  - intros Hlast Hfull.
    unfold __len__ in Hfull. rewrite (Inv_cache_len _ _ Hwf) in Hfull.
    unfold len_of in Hfull. rewrite Hunit in Hfull.
    destruct (Hadd s l Hwf) as (s3 & Hs3 & HI3 & Hold & Hnew); [done|done|lia|].
    assert (Hsplit : ∃ l0, l = l0 ++ [a]).
    { rewrite (Repr_prv_root _ _ HR) in Hlast.
      destruct l as [|b l0] using rev_ind; [by apply elem_of_nil in Ha|].
      rewrite last_last in Hlast. subst b. by exists l0. }
    destruct Hsplit as [l0 Hl0].
    assert (Hfilter : filter (λ x, x ≠ a) l = l0).
    { rewrite Hl0. rewrite (filter_ne_split l0 a []); [by rewrite app_nil_r|].
      by rewrite <- Hl0. }
    assert (Hkeep : take (Z.to_nat (max_size s)) (length (heap s) :: l)
                    = length (heap s) :: l0).
    { replace (Z.to_nat (max_size s)) with (S (length l0)).
      - cbn [take]. f_equal. rewrite Hl0. by rewrite take_app_length.
      - rewrite Hl0, length_app in Hfull. simpl in Hfull. lia. }
    rewrite Hkeep in HI3. exists s3. split_and!; try done.
    + rewrite Hfilter. by apply Inv_recency.
    + unfold __contains__, cache_contains. apply bool_decide_eq_false_2.
      intros [a' Hget3]. pose proof HI3 as (HR3 & HIx3 & _).
      destruct (IndexOK_key _ _ _ _ _ HIx3 Hget3) as [Ha' Hka'].
      assert (Hlt' : a' < length (heap s) → False).
      { intros Hlt'. rewrite Hold in Hka' by done.
        apply elem_of_cons in Ha' as [->|Ha']; [lia|].
        assert (Hal : a' ∈ l) by (rewrite Hl0; set_solver).
        pose proof (Inv_index_at s l a' k Hwf Hal Hka') as Hg.
        assert (a' = a) as -> by congruence.
        rewrite Hl0 in Hnd. apply NoDup_app in Hnd as (_ & Hd & _).
        apply (Hd a Ha'). by left. }
      apply elem_of_cons in Ha' as [->|Ha'].
      * rewrite Hnew in Hka'. injection Hka' as ->. by rewrite Hget in Hget'.
      * apply Hlt'. apply (Repr_valid _ _ _ HR). rewrite Hl0. set_solver.
    + apply (contains_at s3 _ (length (heap s)) k' HI3); [by left|done].
Qed.


End Order.

(** ** The memory counter *)

Section Memory.
Implicit Types (h : list _Node) (a x : nat) (l : list nat) (s : LruCache)
  (k : K) (v : V).

(** The index is a [dict]. *)
Hypothesis dict_index : ∀ k1 k2, covers k1 k2 = bool_decide (k1 = k2).

(** The sum of the estimates that the nodes of a list carry. *)
Definition mem_sum (h : list _Node) (l : list nat) : Z :=
  foldr (λ a acc, memory (h !!! a) + acc)%Z 0%Z l.

(** Where there are metrics, their memory counter is that sum. *)
Definition MemOK (s : LruCache) (l : list nat) : Prop :=
  ∀ m, metrics s = Some m → memory_usage m = mem_sum (heap s) l.

Lemma mem_sum_app h l1 l2 :
  mem_sum h (l1 ++ l2) = (mem_sum h l1 + mem_sum h l2)%Z.
Proof. induction l1 as [|a l1 IH]; simpl; [done|]. rewrite IH. lia. Qed.

Lemma mem_sum_ext h h' l :
  (∀ a, a ∈ l → memory (h' !!! a) = memory (h !!! a)) →
  mem_sum h' l = mem_sum h l.
Proof.
  induction l as [|a l IH]; intros Hs; simpl; [done|].
  rewrite Hs by (by left). rewrite IH; [done|]. intros b Hb. apply Hs. by right.
Qed.

Lemma mem_sum_remove h l a :
  NoDup l → a ∈ l →
  mem_sum h (filter (λ x, x ≠ a) l) = (mem_sum h l - memory (h !!! a))%Z.
Proof.
  intros Hnd Ha. apply list_elem_of_split in Ha as (l1 & l2 & ->).
  rewrite filter_ne_split by done. rewrite !mem_sum_app. simpl. lia.
Qed.

Lemma mtf_h_memory a h x : memory (mtf_h a h !!! x) = memory (h !!! x).
Proof. unfold mtf_h. rewrite !memory_alter by done. apply unlink_h_memory. Qed.

Lemma add_h_memory_old nd h x :
  x < length h → memory (add_h nd h !!! x) = memory (h !!! x).
Proof.
  intros Hx. unfold add_h. rewrite !memory_alter by done.
  by rewrite lookup_total_app_l.
Qed.

Lemma MemOK_step s s' l l' (delta : Z) :
  MemOK s l →
  (∀ m', metrics s' = Some m' →
     ∃ m, metrics s = Some m ∧ memory_usage m' = (memory_usage m + delta)%Z) →
  mem_sum (heap s') l' = (mem_sum (heap s) l + delta)%Z →
  MemOK s' l'.
Proof.
  intros HM Hmet Hsum m' Hm'. destruct (Hmet m' Hm') as (m & Hm & ->).
  rewrite (HM m Hm). lia.
Qed.

Lemma MemOK_front s s' l a :
  Inv s l → a ∈ l → MemOK s l →
  (∀ m', metrics s' = Some m' →
     ∃ m, metrics s = Some m ∧ memory_usage m' = memory_usage m) →
  (∀ x, memory (heap s' !!! x) = memory (heap s !!! x)) →
  MemOK s' (a :: filter (λ x, x ≠ a) l).
Proof.
  intros (HR & _) Ha HM Hmet Hmem. apply (MemOK_step s s' l _ 0 HM).
  - intros m' Hm'. destruct (Hmet m' Hm') as (m & Hm & ->). exists m. split; [done|lia].
  - cbn [mem_sum foldr]. fold (mem_sum (heap s') (filter (λ x, x ≠ a) l)).
    rewrite (mem_sum_ext (heap s) (heap s')) by (intros; apply Hmem).
    rewrite mem_sum_remove; [|by apply Repr_NoDup in HR|done].
    rewrite Hmem. lia.
Qed.

Lemma touched_MemOK a cbs um s l :
  Inv s l → a ∈ l → MemOK s l →
  MemOK (touched a cbs um s) (a :: filter (λ x, x ≠ a) l).
Proof.
  intros HI Ha HM. apply (MemOK_front s); try done.
  - cbn [metrics touched]. intros m' Hm'. destruct um.
    + apply fmap_Some in Hm' as (m & Hm & ->). by exists m.
    + by exists m'.
  - intros x. cbn [heap touched]. by rewrite memory_alter, mtf_h_memory.
Qed.

Lemma updated_MemOK a v cbs s l :
  Inv s l → a ∈ l → MemOK s l →
  MemOK (updated a v cbs s) (a :: filter (λ x, x ≠ a) l).
Proof.
  intros HI Ha HM. apply (MemOK_front s); try done.
  - cbn [metrics updated]. intros m' Hm'. by exists m'.
  - intros x. cbn [heap updated].
    rewrite memory_alter, mtf_h_memory, memory_alter by done.
    case_bool_decide; by rewrite ?clear_cb_h_memory.
Qed.

Section Tracked.

(** [caches.TRACK_MEMORY_USAGE] is set. *)
Hypothesis tracked : TRACK_MEMORY_USAGE = true.

Lemma added_MemOK k v cbs s l :
  Inv s l → MemOK s l → MemOK (added k v cbs s) (length (heap s) :: l).
Proof.
  intros (HR & _) HM.
  set (nd := new_node list_root (nxt (heap s) list_root) (Some k) (Some v) cbs).
  apply (MemOK_step s _ l _ (memory nd) HM).
  - cbn [metrics added]. fold nd. rewrite tracked. intros m' Hm'.
    apply fmap_Some in Hm' as (m & Hm & ->). by exists m.
  - cbn [heap added mem_sum foldr]. fold nd.
    fold (mem_sum (add_h nd (heap s)) l).
    rewrite add_h_memory_new.
    rewrite (mem_sum_ext (heap s) (add_h nd (heap s))); [lia|].
    intros x Hx. apply add_h_memory_old. by apply (Repr_valid _ _ _ HR).
Qed.

Lemma deleted_MemOK a s l :
  Repr (heap s) l → a ∈ l → MemOK s l →
  MemOK (deleted a s) (filter (λ x, x ≠ a) l).
Proof.
  intros HR Ha HM.
  apply (MemOK_step s _ l _ (- memory (heap s !!! a)) HM).
  - cbn [metrics deleted]. rewrite tracked. intros m' Hm'.
    apply fmap_Some in Hm' as (m & Hm & ->). exists m. split; [done|]. simpl. lia.
  - cbn [heap deleted].
    rewrite (mem_sum_ext (heap s)).
    + rewrite mem_sum_remove; [lia|by apply Repr_NoDup in HR|done].
    + intros x _. by rewrite clear_cb_h_memory, unlink_h_memory.
Qed.

Lemma removed_MemOK a s l :
  Repr (heap s) l → a ∈ l → MemOK s l →
  MemOK (removed a s) (filter (λ x, x ≠ a) l).
Proof. intros HR Ha HM. by apply (deleted_MemOK a s l). Qed.

Lemma evict_MemOK fuel s l s' :
  Inv s l → MemOK s l → (0 ≤ max_size s)%Z →
  evict fuel s = Returns tt s' → MemOK s' (recency s').
Proof.
  revert s l. induction fuel as [|fuel IH]; intros s l HI HM Hmax Hev.
  - destruct (decide (cache_len s > max_size s)%Z) as [Hgt|Hle].
    { by rewrite evict_out_of_fuel in Hev. }
    rewrite evict_done in Hev by done. injection Hev as <-.
    by rewrite (Inv_recency _ _ HI).
  - destruct (decide (cache_len s > max_size s)%Z) as [Hgt|Hle]; cycle 1.
    { rewrite evict_done in Hev by done. injection Hev as <-.
      by rewrite (Inv_recency _ _ HI). }
    rewrite evict_step in Hev by done.
    destruct (List.find raises _) eqn:Hfind; [done|].
    destruct l as [|a l0] using rev_ind.
    { rewrite (Inv_cache_len _ _ HI) in Hgt. unfold len_of in Hgt.
      destruct size_callback; simpl in Hgt; lia. }
    clear IHl0. pose proof HI as (HR & _).
    assert (Hlast : prv (heap s) list_root = a).
    { by rewrite (Repr_prv_root _ _ HR), last_last. }
    apply (IH (evicted s) l0); [| |done..].
    + by apply (evicted_Inv _ _ a (dict_refl dict_index)).
    + assert (Hf : filter (λ x, x ≠ a) (l0 ++ [a]) = l0).
      { rewrite (filter_ne_split l0 a []), app_nil_r; [done|].
        by apply Repr_NoDup in HR. }
      pose proof (removed_MemOK a s _ HR) as Hrem. rewrite Hf in Hrem.
      intros m' Hm'. unfold evicted in Hm'. rewrite Hlast in Hm'.
      cbn [metrics upd_metrics] in Hm'.
      apply fmap_Some in Hm' as (m & Hm & ->).
      unfold evicted. rewrite Hlast.
      change (heap (upd_metrics ?g ?s0)) with (heap s0).
      rewrite <- (Hrem ltac:(set_solver) HM m Hm). done.
Qed.

Lemma delete_nodes_MemOK ds s l s' :
  Repr (heap s) l → MemOK s l → NoDup ds → (∀ a, a ∈ ds → a ∈ l) →
  delete_nodes ds s = Returns tt s' →
  MemOK s' (filter (λ x, x ∉ ds) l).
Proof.
  revert s l. induction ds as [|a ds IH]; intros s l HR HM Hnd Hsub Hdel.
  - injection Hdel as <-. by rewrite filter_notin_nil.
  - apply NoDup_cons in Hnd as [Ha Hnd].
    cbn [delete_nodes] in Hdel. unfold bind in Hdel. rewrite delete_node_eq in Hdel.
    destruct (List.find raises _); [done|].
    assert (Hal : a ∈ l) by (apply Hsub; by left).
    rewrite <- filter_filter_notin.
    apply (IH (deleted a s)); try done.
    + by apply deleted_Repr.
    + by apply deleted_MemOK.
    + intros x Hx. apply list_elem_of_filter. split; [by intros ->|].
      apply Hsub. by right.
Qed.

(** With memory tracking on, the memory counter of the metrics is the sum
    of the estimates stored in the nodes of the recency list: a new cache
    starts that way, and every operation that returns with a capacity that
    is not negative keeps it so. *)
Theorem memory_usage_is_sum_over_entries :
  (∀ size name af s0, __init__ size name af = inr s0 → MemOK s0 (recency s0)) ∧
  (∀ fuel o s s',
     wf s → MemOK s (recency s) →
     exec fuel o s = Returns tt s' → (0 ≤ max_size s')%Z →
     MemOK s' (recency s')).
Proof.
  split.
  - intros size name af s0 Hinit.
    destruct (init_Inv _ _ _ _ Hinit) as (HI & _). rewrite (Inv_recency _ _ HI).
    unfold __init__ in Hinit.
    destruct (if af then scaled_size size default_factor_size else inr size)
      as [e|n]; [done|].
    injection Hinit as <-. intros m Hm. cbn [metrics] in Hm.
    destruct name; [|done]. by injection Hm as <-.
  - intros fuel o s s' Hwf HM Hex Hmax. apply wf_Inv in Hwf.
    set (l := recency s) in *. pose proof Hwf as (HR & HIx & HC & Hres).
    destruct o as [k cbs um|k v cbs|k v|k|k| |factor]; cbn [exec] in Hex.
    + unfold bind in Hex. rewrite cache_get_eq in Hex.
      destruct (index_get k (cache s)) as [a|] eqn:Hget; injection Hex as <-.
      * destruct (IndexOK_key _ _ _ _ _ HIx Hget) as [Ha _].
        rewrite (Inv_recency _ _ (touched_Inv a cbs um s l Hwf Ha)).
        by apply touched_MemOK.
      * destruct um; [|done]. intros m' Hm'. cbn [metrics upd_metrics] in Hm'.
        apply fmap_Some in Hm' as (m & Hm & ->). exact (HM m Hm).
    + rewrite cache_set_eq in Hex.
      destruct (index_get k (cache s)) as [a|] eqn:Hget.
      * destruct (IndexOK_key _ _ _ _ _ HIx Hget) as [Ha _].
        assert (Hev : evict fuel (updated a v cbs s) = Returns tt s').
        { case_bool_decide; [|done]. by destruct (List.find raises _). }
        apply (evict_MemOK fuel _ _ s' (updated_Inv a v cbs s l Hwf Ha)); [|  |done].
        -- by apply updated_MemOK.
        -- rewrite <- (evict_max_size _ _ _ Hev). done.
      * apply (evict_MemOK fuel _ _ s'
                 (added_Inv k v (py_set cbs) s l (dict_flat dict_index) Hwf Hget));
          [by apply added_MemOK| |done].
        by rewrite <- (evict_max_size _ _ _ Hex).
    + unfold bind, cache_set_default in Hex.
      destruct (index_get k (cache s)) as [a|] eqn:Hget.
      * by injection Hex as <-.
      * unfold bind in Hex. rewrite add_node_eq in Hex.
        destruct (evict fuel (added k v [] s)) as [[] s1|e s1|] eqn:Hev; [|done..].
        injection Hex as <-.
        apply (evict_MemOK fuel _ _ s1
                 (added_Inv k v [] s l (dict_flat dict_index) Hwf Hget));
          [by apply added_MemOK| |done].
        by rewrite <- (evict_max_size _ _ _ Hev).
    + unfold bind in Hex. rewrite cache_pop_eq in Hex.
      destruct (index_get k (cache s)) as [a|] eqn:Hget;
        [|by injection Hex as <-].
      destruct (List.find raises _); [done|]. injection Hex as <-.
      destruct (IndexOK_key _ _ _ _ _ HIx Hget) as [Ha _].
      rewrite (Inv_recency _ _ (removed_Inv a s l (dict_refl dict_index) Hwf Ha)).
      by apply removed_MemOK.
    + assert (Hnd : NoDup (List.filter (λ p, covers k p.1) (cache s)).*2).
      { destruct HIx as (_ & Hn & _). apply (sublist_NoDup _ (cache s).*2 Hn).
        apply fmap_sublist, filter_covers_sublist. }
      assert (Hsub : ∀ a, a ∈ (List.filter (λ p, covers k p.1) (cache s)).*2 → a ∈ l).
      { intros a Ha. destruct HIx as (_ & _ & Hin & _).
        apply (proj1 (Forall_forall _ _) Hin).
        apply list_elem_of_fmap in Ha as (q & -> & Hq').
        apply list_elem_of_fmap. exists q. split; [done|].
        apply list_elem_of_In, filter_In in Hq' as [Hq' _]. by apply list_elem_of_In. }
      destruct (del_multi_Inv k s l Hwf) as (s'' & Hs'' & HI'').
      { unfold cache_del_multi, index_pop in Hex. intros a Ha.
        destruct (List.filter (λ p, covers k p.1) (cache s)) as [|p popped];
          [by apply elem_of_nil in Ha|].
        apply (delete_nodes_quiet _ _ _ Hnd Hex a Ha). }
      assert (s'' = s') as -> by congruence.
      rewrite (Inv_recency _ _ HI'').
      unfold cache_del_multi, index_pop in Hex.
      destruct (List.filter (λ p, covers k p.1) (cache s)) as [|p popped] eqn:Hpop.
      * injection Hex as <-. simpl. by rewrite filter_notin_nil.
      * by apply (delete_nodes_MemOK (p :: popped).*2
                    (upd_cache (λ _, List.filter (λ p, negb (covers k p.1)) (cache s)) s)
                    l s' HR HM Hnd Hsub Hex).
    + destruct (cache_clear_spec s l Hwf) as (s'' & Hs'' & Hr & _ & _ & _ & Hm & _).
      { unfold cache_clear, bind, modify in Hex.
        destruct (clear_callbacks _ _) as [[] s1|e s1|] eqn:Hcl; [|done..].
        intros a Ha.
        pose proof (clear_callbacks_quiet _ _ _ (proj1 (proj2 HIx)) Hcl a) as Hq.
        unfold cbs_of in *. cbn [heap upd_node upd_heap] in Hq.
        rewrite !callbacks_alter in Hq by done. apply Hq.
        destruct HIx as (_ & _ & _ & Hin & _). by apply (proj1 (Forall_forall _ _) Hin). }
      assert (s'' = s') as -> by congruence.
      rewrite Hr. intros m' Hm'. rewrite Hm, tracked in Hm'.
      by apply fmap_Some in Hm' as (m & _ & ->).
    + unfold bind, set_cache_factor in Hex.
      destruct (apply_cache_factor_from_config s); simpl in Hex;
        [|by injection Hex as <-].
      destruct (scaled_size _ _) as [e|n]; [done|].
      case_decide; [|by injection Hex as <-].
      unfold bind, modify in Hex.
      change (_on_resize (set_max_size n s)) with (_on_resize s) in Hex.
      rewrite Hres in Hex.
      destruct (evict fuel (set_max_size n s)) as [[] s1|e s1|] eqn:Hev; [|done..].
      injection Hex as <-.
      apply (evict_MemOK fuel _ _ s1 (Inv_set_max_size n s l Hwf)); [done| |done].
      by rewrite <- (evict_max_size _ _ _ Hev).
Qed.

End Tracked.

End Memory.

End LruCache.

Arguments Returns {K V A} a s.
Arguments Raises {K V A} e s.
Arguments Diverges {K V A}.

(** ** [enumerate_leaves] *)

Section Leaves.
Context {KT A : Type}.

(** Nested dictionaries with values of type [A] at the leaves.  A leaf is
    an object without a [values()] method. *)
Inductive pytree : Type :=
| Leaf (a : A)
| Dict (items : list (KT * pytree)).

(** What a generator does until it stops: the values it yields, and
    whether it stops by raising [AttributeError]. *)
Definition generated : Type := list pytree * bool.

(** One generator, and then another unless the first one raised. *)
Definition and_then (g1 g2 : generated) : generated :=
  if g1.2 then g1 else (g1.1 ++ g2.1, g2.2).

Fixpoint enumerate_leaves (node : pytree) (depth : Z) : generated :=
  if (depth =? 0)%Z then ([node], false)
  else
    match node with
    | Leaf _ => ([], true)
    | Dict items =>
        (fix values (ns : list (KT * pytree)) : generated :=
           match ns with
           | [] => ([], false)
           | p :: rest => and_then (enumerate_leaves p.2 (depth - 1)) (values rest)
           end) items
    end.

(** The values at the leaves, left to right. *)
Fixpoint flatten (t : pytree) : list A :=
  match t with
  | Leaf a => [a]
  | Dict items =>
      (fix values (ns : list (KT * pytree)) : list A :=
         match ns with
         | [] => []
         | p :: rest => flatten p.2 ++ values rest
         end) items
  end.

(** Every leaf of the tree is [d] levels down. *)
Fixpoint uniform (d : nat) (t : pytree) : Prop :=
  match d, t with
  | O, Leaf _ => True
  | S d', Dict items => Forall (λ p, uniform d' p.2) items
  | _, _ => False
  end.

(** The generators of a list of nodes, one after the other. *)
Definition each (depth : Z) (ns : list (KT * pytree)) : generated :=
  foldr (λ p g, and_then (enumerate_leaves p.2 depth) g) ([], false) ns.

Lemma enumerate_leaves_Dict items depth :
  depth ≠ 0%Z →
  enumerate_leaves (Dict items) depth = each (depth - 1) items.
Proof.
  intros Hd. cbn [enumerate_leaves].
  rewrite (proj2 (Z.eqb_neq _ _) Hd).
  unfold each. induction items as [|p items IH]; [done|].
  cbn [foldr]. by rewrite <- IH.
Qed.

Lemma flatten_Dict items :
  flatten (Dict items) = concat ((λ p, flatten p.2) <$> items).
Proof.
  cbn [flatten]. induction items as [|p items IH]; [done|].
  cbn [fmap list_fmap concat]. by rewrite <- IH.
Qed.

Lemma pytree_nested_ind (P : pytree → Prop) :
  (∀ a, P (Leaf a)) →
  (∀ items, Forall (λ p, P p.2) items → P (Dict items)) →
  ∀ t, P t.
Proof.
  intros HL HD. fix IH 1. intros [a|items]; [apply HL|].
  apply HD. revert items. fix IHi 1. intros [|p items].
  - constructor.
  - constructor; [apply IH|apply IHi].
Qed.

(** On a tree whose leaves are all [d] levels down, [enumerate_leaves] with
    depth [d] raises nothing and yields the leaves, left to right. *)
Theorem enumerate_leaves_uniform (d : nat) (t : pytree) :
  uniform d t →
  enumerate_leaves t (Z.of_nat d) = (Leaf <$> flatten t, false).
Proof.
  revert t. induction d as [|d IH]; intros [a|items] Hu; try done.
  rewrite enumerate_leaves_Dict by lia. rewrite flatten_Dict.
  replace (Z.of_nat (S d) - 1)%Z with (Z.of_nat d) by lia.
  cbn [uniform] in Hu.
  induction Hu as [|p items Hp Hu IHu]; [done|].
  cbn [each foldr fmap list_fmap concat]. fold (each (Z.of_nat d) items).
  rewrite IHu, (IH _ Hp). unfold and_then. cbn [fst snd].
  by rewrite fmap_app.
Qed.

(** With a negative depth nothing is yielded, and [AttributeError] is
    raised exactly when the tree has a leaf. *)
Theorem enumerate_leaves_negative_depth (t : pytree) (depth : Z) :
  (depth < 0)%Z →
  enumerate_leaves t depth = ([], bool_decide (flatten t ≠ [])).
Proof.
  revert depth. induction t as [a|items IH] using pytree_nested_ind; intros depth Hd.
  - cbn [enumerate_leaves]. by rewrite (proj2 (Z.eqb_neq _ _)) by lia.
  - rewrite enumerate_leaves_Dict by lia. rewrite flatten_Dict.
    induction IH as [|p items Hp _ IHi]; [done|].
    cbn [each foldr fmap list_fmap concat]. fold (each (depth - 1) items).
    rewrite IHi, Hp by lia. unfold and_then. cbn [fst snd].
    destruct (flatten p.2) as [|x xs].
    + by rewrite bool_decide_eq_false_2 by (by intros Hn; apply Hn).
    + by rewrite !bool_decide_eq_true_2 by (simpl; congruence).
Qed.

End Leaves.

(** ** [_Node.add_callbacks] *)

Lemma merged_cons (old : list Cb) (c : Cb) (cbs : list Cb) :
  merged old (c :: cbs)
  = merged (if decide (c ∈ old) then old else old ++ [c]) cbs.
Proof. done. Qed.

Lemma merged_prefix (old cbs : list Cb) : old `prefix_of` merged old cbs.
Proof.
  revert old; induction cbs as [|c cbs IH]; intros old; [done|].
  rewrite merged_cons. case_decide; [apply IH|].
  etrans; [|apply IH]. by apply prefix_app_r.
Qed.

Lemma elem_of_merged (old cbs : list Cb) (c : Cb) :
  c ∈ merged old cbs ↔ c ∈ old ∨ c ∈ cbs.
Proof.
  revert old; induction cbs as [|c' cbs IH]; intros old.
  - simpl. rewrite elem_of_nil. tauto.
  - rewrite merged_cons, IH, elem_of_cons. case_decide as Hc.
    + split; [tauto|]. intros [?|[->|?]]; tauto.
    + rewrite elem_of_app, elem_of_cons, elem_of_nil. tauto.
Qed.

Lemma NoDup_merged (old cbs : list Cb) : NoDup old → NoDup (merged old cbs).
Proof.
  revert old; induction cbs as [|c cbs IH]; intros old Hnd; [done|].
  rewrite merged_cons. apply IH. case_decide as Hc; [done|].
  apply NoDup_app. split_and!; [done| |apply NoDup_singleton].
  intros x Hx [->|Hn]%elem_of_cons; [done|by apply elem_of_nil in Hn].
Qed.

Lemma merged_absorb (old cbs : list Cb) :
  (∀ c, c ∈ cbs → c ∈ old) → merged old cbs = old.
Proof.
  revert old; induction cbs as [|c cbs IH]; intros old Hin; [done|].
  rewrite merged_cons, decide_True by (apply Hin; by left).
  apply IH. intros c' Hc'. apply Hin. by right.
Qed.

(** [add_callbacks] keeps what the node holds, in place, appends the
    callbacks that are new, stores none of them twice, and does nothing
    when it is given the same callbacks again. *)
Theorem add_callbacks_is_union_without_duplicates
    (cur : option (list Cb)) (cbs : list Cb) :
  NoDup (default [] cur) →
  NoDup (default [] (merge_callbacks cur cbs)) ∧
  default [] cur `prefix_of` default [] (merge_callbacks cur cbs) ∧
  (∀ c, c ∈ default [] (merge_callbacks cur cbs) ↔ c ∈ default [] cur ∨ c ∈ cbs) ∧
  merge_callbacks (merge_callbacks cur cbs) cbs = merge_callbacks cur cbs.
Proof.
  intros Hnd. rewrite merge_callbacks_default. split_and!.
  - by apply NoDup_merged.
  - apply merged_prefix.
  - intros c. apply elem_of_merged.
  - destruct cbs as [|c0 cbs]; [done|]. cbn [merge_callbacks]. f_equal.
    apply (merged_absorb _ (c0 :: cbs)). intros c Hc.
    apply (elem_of_merged _ (c0 :: cbs)). by right.
Qed.

(** ** [synapse/util/iterutils.py]: [chunk_seq] and [batch_iter] *)

Module IterUtils.

Section Chunks.
Context {T : Type}.

(** [range(0, stop, step)] for a [stop] that is a length. *)
Definition py_range0 (stop : nat) (step : Z) : exn + list Z :=
  if (step =? 0)%Z then inl ValueError
  else if (0 <? step)%Z
       then inr ((λ q, q * step)%Z <$> seqZ 0 ((Z.of_nat stop + step - 1) `div` step))
       else inr [].

(** [seq[i:j]] for bounds that are not negative: they are clipped to the
    length, and the slice is empty when [j ≤ i]. *)
Definition py_slice (l : list T) (i j : Z) : list T :=
  take (Z.to_nat (j - i)) (drop (Z.to_nat i) l).

(** [chunk_seq]: the call evaluates [range(0, len(iseq), maxlen)], which
    raises for a step of zero; the slices are what the generator yields. *)
Definition chunk_seq (iseq : list T) (maxlen : Z) : exn + list (list T) :=
  match py_range0 (length iseq) maxlen with
  | inl e => inl e
  | inr starts => inr ((λ i, py_slice iseq i (i + maxlen)) <$> starts)
  end.

(** [iter(lambda: tuple(islice(sourceiter, size)), ())]: batches are taken
    off the source until one comes out empty. *)
Fixpoint batches (fuel : nat) (source : list T) (size : nat) : list (list T) :=
  match fuel with
  | O => []
  | S fuel' =>
      match take size source with
      | [] => []
      | batch => batch :: batches fuel' (drop size source) size
      end
  end.

(** [sys.maxsize]: the largest stop [islice] takes, a positive number
    that depends on the platform. *)
Variable maxsize : positive.

(** [batch_iter] on a finite iterable.  [islice] refuses a size that is
    negative or above [sys.maxsize], with a [ValueError] that comes out of
    the first step of the iterator.  One step per element and one more is
    all the loop can take. *)
Definition batch_iter (iterable : list T) (size : Z) : exn + list (list T) :=
  if (size <? 0)%Z || (Z.pos maxsize <? size)%Z then inl ValueError
  else inr (batches (S (length iterable)) iterable (Z.to_nat size)).

(** [c] chunks of [m] elements off the front of a list. *)
Fixpoint chunks (c m : nat) (l : list T) : list (list T) :=
  match c with
  | O => []
  | S c' => take m l :: chunks c' m (drop m l)
  end.

(** How many chunks of [m] a list of [n] elements makes. *)
Definition count (n m : nat) : nat := (n + m - 1) / m.

Lemma count_0 m : 0 < m → count 0 m = 0.
Proof. intros Hm. unfold count. apply Nat.div_small. lia. Qed.

Lemma count_S n m : 0 < m → 0 < n → count n m = S (count (n - m) m).
Proof.
  intros Hm Hn. unfold count. destruct (decide (m ≤ n)) as [Hle|Hgt].
  - replace (n + m - 1) with ((n - m + m - 1) + 1 * m) by lia.
    rewrite Nat.div_add by lia. lia.
  - replace (n - m) with 0 by lia.
    rewrite (Nat.div_small (0 + m - 1)) by lia.
    symmetry. apply (Nat.div_unique _ _ _ (n - 1)); lia.
Qed.

Lemma starts_chunks (c m : nat) (l : list T) :
  (λ q, take m (drop (q * m) l)) <$> seq 0 c = chunks c m l.
Proof.
  revert l. induction c as [|c IH]; intros l; [done|].
  cbn [seq chunks fmap list_fmap]. f_equal. rewrite <- fmap_S_seq, <- list_fmap_compose.
  rewrite <- IH. apply list_fmap_ext. intros i q _. simpl.
  by rewrite drop_drop, (Nat.add_comm m).
Qed.

Lemma chunk_seq_chunks (l : list T) (m : Z) :
  (0 < m)%Z →
  chunk_seq l m = inr (chunks (count (length l) (Z.to_nat m)) (Z.to_nat m) l).
Proof.
  intros Hm. unfold chunk_seq, py_range0.
  rewrite (proj2 (Z.eqb_neq _ _)) by lia. rewrite (proj2 (Z.ltb_lt _ _)) by done.
  f_equal. rewrite <- starts_chunks. unfold seqZ.
  rewrite <- !list_fmap_compose.
  assert (Hc : Z.to_nat ((Z.of_nat (length l) + m - 1) `div` m)
               = count (length l) (Z.to_nat m)).
  { unfold count. rewrite Z2Nat.inj_div by lia. f_equal; lia. }
  rewrite Hc. apply list_fmap_ext. intros i q _. simpl. unfold py_slice.
  f_equal; [lia|]. f_equal. lia.
Qed.

Lemma batches_chunks (fuel m : nat) (l : list T) :
  0 < m → length l < fuel →
  batches fuel l m = chunks (count (length l) m) m l.
Proof.
  intros Hm. revert l. induction fuel as [|fuel IH]; intros l Hf; [lia|].
  cbn [batches]. destruct l as [|x l].
  - rewrite take_nil. simpl. by rewrite count_0.
  - rewrite count_S by (simpl; lia). cbn [chunks].
    destruct m as [|m]; [lia|]. cbn [take]. f_equal.
    rewrite IH; [by rewrite length_drop|].
    rewrite length_drop. simpl in *. lia.
Qed.

Lemma concat_chunks (c m : nat) (l : list T) :
  length l ≤ c * m → concat (chunks c m l) = l.
Proof.
  revert l. induction c as [|c IH]; intros l Hl.
  - destruct l; [done|simpl in Hl; lia].
  - cbn [chunks concat]. rewrite IH; [apply take_drop|].
    rewrite length_drop. lia.
Qed.

Lemma count_covers n m : 0 < m → n ≤ count n m * m.
Proof.
  intros Hm. unfold count.
  pose proof (Nat.div_mod (n + m - 1) m ltac:(lia)) as Hd.
  pose proof (Nat.mod_upper_bound (n + m - 1) m ltac:(lia)) as Hu. nia.
Qed.

Lemma count_tight n m : 0 < m → 0 < n → (count n m - 1) * m < n.
Proof.
  intros Hm Hn. unfold count.
  pose proof (Nat.div_mod (n + m - 1) m ltac:(lia)) as Hd.
  pose proof (Nat.mod_upper_bound (n + m - 1) m ltac:(lia)) as Hu. nia.
Qed.

Lemma chunks_lookup (c m : nat) (l : list T) i ch :
  chunks c m l !! i = Some ch → ch = take m (drop (i * m) l) ∧ i < c.
Proof.
  rewrite <- starts_chunks. rewrite list_lookup_fmap.
  intros Hl. apply fmap_Some in Hl as (q & Hq & ->).
  apply lookup_seq in Hq as [-> Hq]. split; [done|lia].
Qed.

Lemma chunks_length (c m : nat) (l : list T) : length (chunks c m l) = c.
Proof. rewrite <- starts_chunks. by rewrite length_fmap, length_seq. Qed.

(** [chunk_seq] with a positive [maxlen] cuts the sequence into consecutive
    chunks: put together they are the sequence; none is empty or longer
    than [maxlen]; all but the last one have [maxlen] elements; an empty
    sequence makes no chunk. *)
Theorem chunk_seq_partitions (l : list T) (maxlen : Z) :
  (0 < maxlen)%Z →
  ∃ cs, chunk_seq l maxlen = inr cs ∧
        concat cs = l ∧
        Forall (λ ch, 0 < length ch ≤ Z.to_nat maxlen) cs ∧
        (∀ i ch, cs !! i = Some ch → S i < length cs →
                 length ch = Z.to_nat maxlen) ∧
        (l = [] → cs = []).
Proof.
  intros Hm. rewrite chunk_seq_chunks by done.
  set (m := Z.to_nat maxlen). assert (Hm' : 0 < m) by lia.
  eexists. split; [done|]. split_and!.
  - apply concat_chunks, count_covers. lia.
  - apply Forall_lookup. intros i ch Hi.
    apply chunks_lookup in Hi as [-> Hi]. rewrite length_take, length_drop.
    destruct (decide (length l = 0)) as [H0|H0].
    { rewrite H0, count_0 in Hi by done. lia. }
    pose proof (count_tight (length l) m Hm' ltac:(lia)).
    assert (i * m ≤ (count (length l) m - 1) * m) by (apply Nat.mul_le_mono_r; lia).
    lia.
  - intros i ch Hi Hlast. rewrite chunks_length in Hlast.
    apply chunks_lookup in Hi as [-> Hi]. rewrite length_take, length_drop.
    destruct (decide (length l = 0)) as [H0|H0].
    { rewrite H0, count_0 in Hi by done. lia. }
    pose proof (count_tight (length l) m Hm' ltac:(lia)).
    assert (S i * m ≤ (count (length l) m - 1) * m) by (apply Nat.mul_le_mono_r; lia).
    lia.
  - intros ->. simpl. by rewrite count_0.
Qed.

(** On a finite iterable and with a positive size that [islice] takes,
    one up to [sys.maxsize], [batch_iter] yields the chunks that
    [chunk_seq] yields.  Above [sys.maxsize] the two part: [batch_iter]
    raises [ValueError], and [chunk_seq] yields the sequence as one chunk,
    or nothing when it is empty. *)
Theorem batch_iter_is_chunk_seq (l : list T) (size : Z) :
  (0 < size)%Z →
  ((size ≤ Z.pos maxsize)%Z → batch_iter l size = chunk_seq l size) ∧
  ((Z.pos maxsize < size)%Z →
   batch_iter l size = inl ValueError ∧
   ((Z.of_nat (length l) ≤ Z.pos maxsize)%Z →
    chunk_seq l size = inr (if decide (l = []) then [] else [l]))).
Proof.
  intros Hs. split.
  - intros Hle. rewrite chunk_seq_chunks by done. unfold batch_iter.
    rewrite (proj2 (Z.ltb_ge size 0)) by lia.
    rewrite (proj2 (Z.ltb_ge (Z.pos maxsize) size)) by lia.
    cbn [orb]. f_equal. apply batches_chunks; lia.
  - intros Hgt. split.
    { unfold batch_iter. rewrite (proj2 (Z.ltb_lt (Z.pos maxsize) size)) by done.
      by rewrite orb_true_r. }
    intros Hlen. rewrite chunk_seq_chunks by done.
    f_equal. case_decide as Hnil.
    + subst l. simpl. by rewrite count_0 by lia.
    + assert (Hpos : 0 < length l) by (destruct l; [done|simpl; lia]).
      rewrite count_S by lia.
      replace (length l - Z.to_nat size) with 0 by lia.
      rewrite count_0 by lia. cbn [chunks]. f_equal.
      apply firstn_all2. lia.
Qed.

(** A size that is not positive.  Zero: [chunk_seq] raises [ValueError],
    [batch_iter] yields nothing.  Negative: [chunk_seq] yields nothing,
    whatever the sequence holds, and [batch_iter] raises [ValueError]. *)
Theorem chunking_by_nonpositive_size (l : list T) (size : Z) :
  (size ≤ 0)%Z →
  chunk_seq l size = (if decide (size = 0%Z) then inl ValueError else inr []) ∧
  batch_iter l size = (if decide (size = 0%Z) then inr [] else inl ValueError).
Proof.
  intros Hs. unfold chunk_seq, py_range0, batch_iter. case_decide as Hz.
  - subst size. split; [done|]. simpl. by destruct l.
  - rewrite (proj2 (Z.eqb_neq _ _)) by done.
    rewrite (proj2 (Z.ltb_ge 0 size)) by lia.
    by rewrite (proj2 (Z.ltb_lt size 0)) by lia.
Qed.

End Chunks.

End IterUtils.

(** ** Scenarios *)

Module Scenario.

Open Scope string_scope.

(** Flat caches of strings; no memory tracking. *)
Definition no_size : option string → option string → option (list Cb) → Z :=
  λ _ _ _, 0%Z.

Definition init (factor : float) (size : Z) : exn + @LruCache string string :=
  __init__ false no_size factor size (Some "cache") true.

Definition empty_object : @LruCache string string :=
  mkLru [] [] 0 0 0 false false None [].

(** A new cache of the given capacity (scale factor one). *)
Definition fresh (size : Z) : @LruCache string string :=
  match init 1%float size with
  | inr s => s
  | inl _ => empty_object
  end.

Definition state_of {K V A} (o : @outcome K V A) (dflt : @LruCache K V)
  : @LruCache K V :=
  match o with
  | Returns _ s => s
  | Raises _ s => s
  | Diverges => dflt
  end.

(** No callback raises; or callback 7 does. *)
Definition quiet : Cb → bool := λ _, false.
Definition raises7 : Cb → bool := λ c, Nat.eqb c 7.

Lemma find_quiet (cbs : list Cb) : List.find quiet cbs = None.
Proof. induction cbs; [done|]. by simpl. Qed.

(** [size_callback=len]. *)
Definition length_cost : option string → Z :=
  λ ov, match ov with
        | Some v => Z.of_nat (String.length v)
        | None => 0%Z
        end.

Lemma length_cost_nonneg ov : (0 ≤ length_cost ov)%Z.
Proof. destruct ov; simpl; lia. Qed.

Lemma dict_covers_spec {K} `{EqDecision K} (k1 k2 : K) :
  dict_covers k1 k2 = bool_decide (k1 = k2).
Proof. done. Qed.

(** *** Capacity 2; "a", "b", "c" are set in this order *)

Definition abc : list (string * string) := [("a", "1"); ("b", "2"); ("c", "3")].

Definition after_abc : outcome unit :=
  set_all dict_covers None quiet remove_dups false no_size 5 abc (fresh 2).

Example abc_evicts_a :
  ∃ s, after_abc = Returns tt s ∧
       recency_keys s = [Some "c"; Some "b"] ∧
       cache s = [("b", 2); ("c", 3)] ∧
       cache_len None s = 2%Z ∧
       evicted_size <$> metrics s = Some 1%Z.
Proof. eexists. split; [vm_compute; reflexivity|]. by vm_compute. Qed.


(** *** A value that costs more than the capacity *)

Definition sized_set :=
  cache_set (K:=string) (V:=string) dict_covers (Some length_cost) quiet
            remove_dups false no_size.

(** Capacity 2, [size_callback=len]: after [set("a", "xyz")] the cache is
    empty, the entry of cost 3 was evicted. *)
Lemma C2_counterexample :
  ∃ s', sized_set 5 "a" "xyz" [] (fresh 2) = Returns tt s' ∧
        recency s' = [] ∧
        __contains__ "a" s' = false ∧
        __len__ (Some length_cost) s' = 0%Z.
Proof. eexists. split; [vm_compute; reflexivity|]. by vm_compute. Qed.

Lemma C2_witness :
  wf dict_covers (Some length_cost) (fresh 2) ∧
  ∃ s', sized_set 5 "a" "xyz" [] (fresh 2) = Returns tt s' ∧
        (cache_len (Some length_cost) s' ≤ max_size s')%Z ∧
        recency s' = [] ∧ cache s' = [].
Proof.
  assert (Hwf : wf dict_covers (Some length_cost) (fresh 2)).
  { apply (bool_decide_unpack _). by vm_compute. }
  split; [exact Hwf|].
  exists (state_of (sized_set 5 "a" "xyz" [] (fresh 2)) empty_object).
  split; [vm_compute; reflexivity|].
  destruct (C2_len_within_capacity dict_covers (Some length_cost) quiet
              remove_dups false no_size dict_covers_spec length_cost
              (fresh 2)
              (state_of (sized_set 5 "a" "xyz" [] (fresh 2)) empty_object)
              (OpSet "a" "xyz" []) 5 eq_refl length_cost_nonneg Hwf)
    as (Hev & _ & _ & Hbig).
  - vm_compute. reflexivity.
  - split; [exact (Hev eq_refl)|].
    destruct (Hbig "a" "xyz" [] eq_refl) as (Hr & Hc & _).
    + vm_compute. discriminate.
    + vm_compute. reflexivity.
    + by split.
Defined.

(** Capacity -1: [pop] and [clear] return with [len()] = 0, above the
    capacity as it was before them. *)
Example len_above_negative_capacity :
  wf dict_covers (Some length_cost) (fresh (-1)) ∧
  ∃ s1 s2,
    cache_pop dict_covers (Some length_cost) quiet false "a" tt (fresh (-1))
    = Returns (Default tt) s1 ∧
    cache_clear (Some length_cost) quiet false (fresh (-1)) = Returns tt s2 ∧
    __len__ (Some length_cost) s1 = 0%Z ∧ max_size s1 = (-1)%Z ∧
    __len__ (Some length_cost) s2 = 0%Z ∧ max_size s2 = (-1)%Z.
Proof.
  split; [apply (bool_decide_unpack _); by vm_compute|].
  eexists _, _. split; [vm_compute; reflexivity|].
  split; [vm_compute; reflexivity|]. by vm_compute.
Qed.

(** *** A callback that raises *)

(** "a" is stored with callback 7, which raises. *)
Definition with_raiser : @LruCache string string :=
  state_of (cache_set dict_covers None raises7 remove_dups false no_size
              5 "a" "1" [7] (fresh 5)) (fresh 5).

(** [pop("a")] raises out of the callback; the node is off the list,
    "a" is still in the index and [len()] is still 1. *)
Lemma C3_counterexample :
  ∃ s', cache_pop dict_covers None raises7 false "a" tt with_raiser
        = Raises (CallbackError 7) s' ∧
        recency s' = [] ∧
        __contains__ "a" s' = true ∧
        index_get "a" (cache s') = Some 1.
Proof. eexists. split; [vm_compute; reflexivity|]. by vm_compute. Qed.

Lemma C3_witness :
  wf dict_covers None with_raiser ∧
  index_get "a" (cache with_raiser) = Some 1 ∧
  List.find raises7 (cbs_of (heap with_raiser) 1) = Some 7 ∧
  cache_pop dict_covers None raises7 false "a" tt with_raiser
  = Raises (CallbackError 7) (interrupted None raises7 1 with_raiser) ∧
  index_get "a" (cache (interrupted None raises7 1 with_raiser)) = Some 1 ∧
  cache_len None (interrupted None raises7 1 with_raiser)
  = cache_len None with_raiser.
Proof.
  assert (Hwf : wf dict_covers None with_raiser).
  { apply (bool_decide_unpack _). by vm_compute. }
  assert (Hget : index_get "a" (cache with_raiser) = Some 1) by reflexivity.
  assert (Hfind : List.find raises7 (cbs_of (heap with_raiser) 1) = Some 7)
    by reflexivity.
  destruct (C3_raising_callback_leaves_partial_state dict_covers None raises7
              remove_dups false no_size with_raiser "a" 1 7 Hwf Hget Hfind)
    as ((_ & Hlen & _ & Hidx & _) & Hpop & _).
  split_and!; [exact Hwf|exact Hget|exact Hfind|apply Hpop|exact Hidx|exact Hlen].
Defined.

(** *** [get] right after [set] *)



(** "a" and "b" stored, "b" most recent; "a" holds callbacks 3 and 4. *)
Definition two : @LruCache string string :=
  state_of (cache_set dict_covers None quiet remove_dups false no_size
              5 "b" "2" []
              (state_of (cache_set dict_covers None quiet remove_dups false
                           no_size 5 "a" "1" [3; 4] (fresh 5)) (fresh 5)))
           (fresh 5).

Lemma two_wf : wf dict_covers None two.
Proof. apply (bool_decide_unpack _). by vm_compute. Qed.




(** *** [set] on a stored key *)

Definition set_plain :=
  cache_set (K:=string) (V:=string) dict_covers None quiet remove_dups false
            no_size.

(** [set("a", "2")] over the stored "1" calls 3 and 4, once each;
    [set("a", "1")] calls nothing. *)
Example set_other_value_fires_once :
  fired (state_of (set_plain 5 "a" "2" [5] two) two) = [3; 4] ∧
  cbs_of (heap (state_of (set_plain 5 "a" "2" [5] two) two)) 1 = [5] ∧
  fired (state_of (set_plain 5 "a" "1" [5] two) two) = [] ∧
  cbs_of (heap (state_of (set_plain 5 "a" "1" [5] two) two)) 1 = [3; 4; 5].
Proof. by vm_compute. Qed.


(** *** [setdefault] *)




(** [two] under capacity 2: a third entry does not fit. *)
Definition two_tight : @LruCache string string := set_max_size 2 two.


Definition setdefault :=
  cache_set_default (K:=string) (V:=string) dict_covers None quiet false no_size.

(** [setdefault("c", "3")] on [two_tight] evicts "a", the least recently
    used entry, and calls its callbacks 3 and 4. *)
Example setdefault_evicts_a :
  ∃ s', setdefault 5 "c" "3" two_tight = Returns (Some "3") s' ∧
        recency_keys s' = [Some "c"; Some "b"] ∧
        fired s' = [3; 4].
Proof. eexists. split; [vm_compute; reflexivity|]. by vm_compute. Qed.


Lemma negative_wf : wf dict_covers None (fresh (-1)).
Proof. apply (bool_decide_unpack _). by vm_compute. Qed.


(** *** Resizing *)

Definition ten : list (string * string) :=
  [("k0", "0"); ("k1", "1"); ("k2", "2"); ("k3", "3"); ("k4", "4");
   ("k5", "5"); ("k6", "6"); ("k7", "7"); ("k8", "8"); ("k9", "9")].

(** Nominal size 10, ten entries. *)
Definition full : @LruCache string string :=
  state_of (set_all dict_covers None quiet remove_dups false no_size 5 ten
              (fresh 10)) (fresh 10).

Definition resize := set_cache_factor (K:=string) (V:=string) dict_covers None quiet false.

(** Factor 0.5: the five least recently used entries go and the call
    returns [True]; the same call again returns [False]. *)
Example halving_evicts_five :
  recency_keys full
  = Some <$> ["k9"; "k8"; "k7"; "k6"; "k5"; "k4"; "k3"; "k2"; "k1"; "k0"] ∧
  ∃ s', resize 10 0.5%float full = Returns true s' ∧
        max_size s' = 5%Z ∧
        recency_keys s' = Some <$> ["k9"; "k8"; "k7"; "k6"; "k5"] ∧
        evicted_size <$> metrics s' = Some 5%Z ∧
        resize 10 0.5%float s' = Returns false s'.
Proof.
  split; [by vm_compute|]. eexists. split; [vm_compute; reflexivity|].
  by vm_compute.
Qed.

Lemma full_wf : wf dict_covers None full.
Proof. apply (bool_decide_unpack _). by vm_compute. Qed.



(** *** The scaled capacity *)

(** 0.55 as a binary64 float. *)
Definition f055 : float := 0x1.199999999999ap-1%float.

(** Nominal size 10 under factor 0.55: the product is 5.5, the capacity 5. *)
Example capacity_10_055 :
  float_value (PrimFloat.mul (float_of_int 10) f055)
  = Some (6192449487634432, 2 ^ 50)%Z ∧
  (2 * 6192449487634432 = 11 * 2 ^ 50)%Z ∧
  scaled_size 10 f055 = inr 5%Z ∧
  max_size <$> (match init f055 10 with inr s => Some s | inl _ => None end)
  = Some 5%Z.
Proof. by vm_compute. Qed.


(** Built with factor 0.55 from nominal size 10. *)
Definition scaled_055 : @LruCache string string :=
  match init f055 10 with inr s => s | inl _ => empty_object end.

Lemma full_is_resized : 5%Z ≠ max_size full.
Proof. vm_compute. discriminate. Qed.

Lemma dict_covers_refl {K} `{EqDecision K} (k : K) : dict_covers k k = true.
Proof. by apply bool_decide_eq_true_2. Qed.

Lemma C10_witness :
  max_size scaled_055 = 5%Z ∧
  (∃ q, float_value (PrimFloat.mul (float_of_int 10) f055) = Some q ∧
        max_size scaled_055 = truncate q) ∧
  (∃ q, float_value (PrimFloat.mul (float_of_int (_original_max_size full)) f055)
        = Some q ∧ 5%Z = truncate q) ∧
  ∃ s', resize 10 f055 full = Returns true s' ∧ max_size s' = 5%Z ∧
        (cache_len None s' ≤ 5)%Z.
Proof.
  split; [reflexivity|].
  assert (Hinit : init f055 10 = inr scaled_055) by reflexivity.
  assert (Hflag : apply_cache_factor_from_config full = true) by reflexivity.
  assert (Hres : _on_resize full = true) by reflexivity.
  assert (Hsc : scaled_size (_original_max_size full) f055 = inr 5%Z) by reflexivity.
  destruct (C10_capacity_is_truncated_product dict_covers None quiet remove_dups
              false no_size f055 10 (Some "cache") scaled_055 full f055 10 5
              Hinit Hflag Hres Hsc) as (H1 & H2 & _ & _ & Hret & _ & Htot).
  split_and!; [exact H1|exact H2|].
  destruct Htot as (s' & Hs' & Hm).
  - exact full_wf.
  - apply dict_covers_refl.
  - lia.
  - intros a _. apply find_quiet.
  - vm_compute. lia.
  - rewrite (bool_decide_eq_true_2 _ full_is_resized) in Hs'.
    exists s'. split_and!; [exact Hs'|exact Hm|].
    by apply (Hret true s' Hs').
Defined.

(** *** A hierarchical cache *)

Definition tree_size : option (list string) → option string → option (list Cb) → Z :=
  λ _ _ _, 0%Z.

Definition fresh_tree : @LruCache (list string) string :=
  match __init__ false tree_size 1%float 5 (Some "tree") true with
  | inr s => s
  | inl _ => mkLru [] [] 0 0 0 false false None []
  end.

Definition tree_set :=
  cache_set (K:=list string) (V:=string) tree_covers None quiet remove_dups
            false tree_size.

(** [set(("a","1"), "x")], [set(("a","2"), "y")], [set(("b","1"), "z")],
    with callbacks 1, 2 and 3. *)
Definition three_leaves : @LruCache (list string) string :=
  state_of (tree_set 5 ["b"; "1"] "z" [3]
    (state_of (tree_set 5 ["a"; "2"] "y" [2]
       (state_of (tree_set 5 ["a"; "1"] "x" [1] fresh_tree) fresh_tree))
       fresh_tree)) fresh_tree.

Definition tree_invalidate :=
  invalidate (K:=list string) (V:=string) tree_covers None quiet false.

Example invalidate_prefix_a :
  ∃ s', tree_invalidate ["a"] three_leaves = Returns tt s' ∧
        recency_keys s' = [Some ["b"; "1"]] ∧
        fired s' = [1; 2] ∧
        (∃ s2, cache_get ["a"; "1"] "default" [] true s' = Returns (Default "default") s2) ∧
        (∃ s2, cache_get ["b"; "1"] "default" [] true s' = Returns (Found (Some "z")) s2).
Proof.
  eexists. split; [vm_compute; reflexivity|].
  split_and!; [by vm_compute..| |]; eexists; vm_compute; reflexivity.
Qed.



End Scenario.

(** ** Runs of the other operations *)

Module Examples.
Import Scenario.
Open Scope string_scope.

Lemma add_callbacks_witness :
  NoDup (default [] (Some [1; 2])) ∧
  merge_callbacks (Some [1; 2]) [2; 3; 3] = Some [1; 2; 3] ∧
  NoDup (default [] (merge_callbacks (Some [1; 2]) [2; 3; 3])) ∧
  merge_callbacks (merge_callbacks (Some [1; 2]) [2; 3; 3]) [2; 3; 3]
  = merge_callbacks (Some [1; 2]) [2; 3; 3].
Proof.
  assert (Hnd : NoDup (default [] (Some [1; 2]))).
  { apply (bool_decide_unpack _). by vm_compute. }
  destruct (add_callbacks_is_union_without_duplicates (Some [1; 2]) [2; 3; 3] Hnd)
    as (H1 & _ & _ & H4).
  split_and!; [exact Hnd|reflexivity|exact H1|exact H4].
Defined.

(** In [two] the node of "a" is at address 1 and holds callbacks 3, 4. *)
Lemma two_a_valid : 1 < length (heap two).
Proof. vm_compute. lia. Qed.

Lemma callbacks_run_once_witness :
  1 < length (heap two) ∧
  ∃ s1, run_and_clear_callbacks quiet 1 two = Returns tt s1 ∧
        fired s1 = (fired two ++ [3; 4])%list ∧
        cbs_of (heap s1) 1 = [] ∧
        run_and_clear_callbacks quiet 1 s1 = Returns tt s1.
Proof.
  split; [exact two_a_valid|].
  exact (callbacks_run_once quiet 1 two two_a_valid (find_quiet _)).
Defined.

(** Capacity 9, [size_callback=len]: "a" of cost 2 and "b" of cost 3. *)
Definition sized_two : @LruCache string string :=
  state_of (sized_set 5 "b" "xyz" []
              (state_of (sized_set 5 "a" "xy" [] (fresh 9)) (fresh 9)))
           (fresh 9).

Lemma sized_two_wf : wf dict_covers (Some length_cost) sized_two.
Proof. apply (bool_decide_unpack _). by vm_compute. Qed.

(** [sized_two] and [two] come from new caches by two calls of [set]. *)
Definition sized_reached :=
  reached (K:=string) (V:=string) dict_covers (Some length_cost) quiet
          remove_dups false no_size.

Lemma sized_two_reached : sized_reached (fresh 9) sized_two.
Proof.
  apply (reached_step _ _ _ _ _ _ _ 5 (OpSet "b" "xyz" [])
           (state_of (sized_set 5 "a" "xy" [] (fresh 9)) (fresh 9))).
  - apply (reached_step _ _ _ _ _ _ _ 5 (OpSet "a" "xy" []) (fresh 9)).
    + apply reached_refl.
    + vm_compute. reflexivity.
    + vm_compute. discriminate.
  - vm_compute. reflexivity.
  - vm_compute. discriminate.
Qed.

Definition plain_reached :=
  reached (K:=string) (V:=string) dict_covers None quiet remove_dups false
          no_size.

Lemma two_reached : plain_reached (fresh 5) two.
Proof.
  apply (reached_step _ _ _ _ _ _ _ 5 (OpSet "b" "2" [])
           (state_of (cache_set dict_covers None quiet remove_dups false
                        no_size 5 "a" "1" [3; 4] (fresh 5)) (fresh 5))).
  - apply (reached_step _ _ _ _ _ _ _ 5 (OpSet "a" "1" [3; 4]) (fresh 5)).
    + apply reached_refl.
    + vm_compute. reflexivity.
    + vm_compute. discriminate.
  - vm_compute. reflexivity.
  - vm_compute. discriminate.
Qed.

Lemma len_is_total_cost_witness :
  init 1%float 9 = inr (fresh 9) ∧
  sized_reached (fresh 9) sized_two ∧
  length (cache sized_two) = length (recency sized_two) ∧
  __len__ (Some length_cost) sized_two
  = cost_sum length_cost (heap sized_two) (recency sized_two) ∧
  cost_sum length_cost (heap sized_two) (recency sized_two) = 5%Z.
Proof.
  assert (Hinit : init 1%float 9 = inr (fresh 9)) by reflexivity.
  split; [exact Hinit|]. split; [exact sized_two_reached|].
  destruct (len_is_total_cost dict_covers (Some length_cost) quiet remove_dups
              false no_size 1%float dict_covers_spec 9 (Some "cache") true
              (fresh 9) sized_two Hinit sized_two_reached)
    as [H1 H2].
  split_and!; [exact H1|exact H2|reflexivity].
Defined.

Lemma contains_iff_listed_witness :
  init 1%float 5 = inr (fresh 5) ∧
  plain_reached (fresh 5) two ∧
  NoDup (recency_keys two) ∧
  Some "a" ∈ recency_keys two ∧
  (∃ a s', a ∈ recency two ∧ key (node_at two a) = Some "a" ∧
           cache_get "a" "default" [] true two
           = Returns (Found (value (node_at two a))) s') ∧
  (∃ s', cache_get "z" "default" [] true two = Returns (Default "default") s').
Proof.
  assert (Hinit : init 1%float 5 = inr (fresh 5)) by reflexivity.
  split; [exact Hinit|]. split; [exact two_reached|].
  destruct (contains_iff_listed dict_covers None quiet remove_dups false no_size
              1%float dict_covers_spec 5 (Some "cache") true (fresh 5) two
              "a" "default" [] true Hinit two_reached)
    as (Hnd & Hin & Hget & _).
  destruct (contains_iff_listed dict_covers None quiet remove_dups false no_size
              1%float dict_covers_spec 5 (Some "cache") true (fresh 5) two
              "z" "default" [] true Hinit two_reached)
    as (_ & Hinz & _ & Hmiss).
  assert (Hc : __contains__ "a" two = true) by reflexivity.
  assert (Hz : __contains__ "z" two ≠ true) by (vm_compute; discriminate).
  split_and!; [exact Hnd|by apply Hin|by apply Hget, Hin|].
  apply Hmiss. intros Hl. apply Hz. by apply Hinz.
Defined.

Lemma getitem_witness :
  wf dict_covers None two ∧
  __getitem__ "z" two = Raises KeyError (upd_metrics inc_misses two) ∧
  ∃ s', __getitem__ "a" two = Returns (value (node_at two 1)) s' ∧
        recency s' = 1 :: filter (λ x, x ≠ 1) (recency two) ∧
        metrics s' = inc_hits <$> metrics two.
Proof.
  split; [exact two_wf|].
  destruct (getitem_KeyError_iff_absent dict_covers None quiet remove_dups "z" two two_wf)
    as [Habs _].
  destruct (getitem_KeyError_iff_absent dict_covers None quiet remove_dups "a" two two_wf)
    as [_ Hpres].
  split; [by apply Habs|].
  destruct (Hpres 1) as (s' & Hs' & Hr & _ & Hm & _); [reflexivity|].
  exists s'. by split_and!.
Defined.

Lemma new_cache_witness :
  init 1%float 5 = inr (fresh 5) ∧
  wf dict_covers None (fresh 5) ∧
  recency (fresh 5) = [] ∧
  __len__ None (fresh 5) = 0%Z ∧
  _original_max_size (fresh 5) = 5%Z.
Proof.
  assert (Hinit : init 1%float 5 = inr (fresh 5)) by reflexivity.
  split; [exact Hinit|].
  destruct (new_cache_is_empty dict_covers None quiet remove_dups false no_size
              1%float 5 (Some "cache") true (fresh 5) Hinit)
    as (H1 & H2 & H3 & _ & _ & H6).
  by split_and!.
Defined.

Lemma pop_witness :
  wf dict_covers None two ∧
  cache_pop dict_covers None quiet false "z" tt two = Returns (Default tt) two ∧
  ∃ s', cache_pop dict_covers None quiet false "a" tt two
        = Returns (Found (value (node_at two 1))) s' ∧
        recency s' = filter (λ x, x ≠ 1) (recency two) ∧
        fired s' = (fired two ++ cbs_of (heap two) 1)%list ∧
        __contains__ "a" s' = false ∧
        wf dict_covers None s'.
Proof.
  split; [exact two_wf|].
  destruct (pop_removes_entry dict_covers None quiet remove_dups false
              dict_covers_spec "z" tt two two_wf) as [Habs _].
  destruct (pop_removes_entry dict_covers None quiet remove_dups false
              dict_covers_spec "a" tt two two_wf) as [_ Hpres].
  split; [by apply Habs|].
  destruct (Hpres 1) as (s' & Hs' & Hr & Hf & Hc & _ & _ & Hwf');
    [reflexivity|apply find_quiet|].
  exists s'. by split_and!.
Defined.

(** [set("a", "1")] with callback 3 on a new cache of capacity 5. *)
Definition one : @LruCache string string :=
  state_of (cache_set dict_covers None quiet remove_dups false no_size
              5 "a" "1" [3] (fresh 5)) (fresh 5).

Lemma fresh_wf : wf dict_covers None (fresh 5).
Proof. apply (bool_decide_unpack _). by vm_compute. Qed.

Lemma set_a_on_fresh :
  cache_set dict_covers None quiet remove_dups false no_size 5 "a" "1" [3] (fresh 5)
  = Returns tt one.
Proof. vm_compute. reflexivity. Qed.

Lemma pop_after_set_witness :
  wf dict_covers None (fresh 5) ∧
  cache_set dict_covers None quiet remove_dups false no_size 5 "a" "1" [3] (fresh 5)
  = Returns tt one ∧
  ∃ s2, cache_pop dict_covers None quiet false "a" tt one
        = Returns (Found (Some "1")) s2 ∧
        __contains__ "a" s2 = false ∧
        wf dict_covers None s2.
Proof.
  split; [exact fresh_wf|]. split; [exact set_a_on_fresh|].
  destruct (pop_after_set_returns_value dict_covers None quiet remove_dups false
              no_size dict_covers_spec "a" "1" [3] tt 5 (fresh 5) one fresh_wf)
    as (s2 & Hs2 & Hc & _ & Hwf2).
  - done.
  - vm_compute. discriminate.
  - vm_compute. discriminate.
  - exact set_a_on_fresh.
  - exists s2. by split_and!.
Defined.

Lemma clear_witness :
  wf dict_covers None two ∧
  ∃ s', cache_clear None quiet false two = Returns tt s' ∧
        recency s' = [] ∧ cache s' = [] ∧ __len__ None s' = 0%Z ∧
        fired s' = (fired two ++ concat (cbs_of (heap two) <$> (cache two).*2))%list ∧
        wf dict_covers None s'.
Proof.
  split; [exact two_wf|].
  destruct (clear_empties_cache dict_covers None quiet remove_dups false two two_wf)
    as (s' & Hs' & Hr & Hc & Hl & Hf & _ & _ & _ & Hwf').
  - intros a _. apply find_quiet.
  - exists s'. by split_and!.
Defined.

Definition two_then_c : @LruCache string string :=
  state_of (exec dict_covers None quiet remove_dups false no_size 5
              (OpSet "c" "3" [8]) two) two.

Lemma exec_set_c :
  exec dict_covers None quiet remove_dups false no_size 5 (OpSet "c" "3" [8]) two
  = Returns tt two_then_c.
Proof. vm_compute. reflexivity. Qed.

Lemma operations_preserve_wf_witness :
  wf dict_covers None two ∧
  exec dict_covers None quiet remove_dups false no_size 5 (OpSet "c" "3" [8]) two
  = Returns tt two_then_c ∧
  (0 ≤ max_size two_then_c)%Z ∧
  wf dict_covers None two_then_c.
Proof.
  assert (Hmax : (0 ≤ max_size two_then_c)%Z) by (vm_compute; discriminate).
  split_and!; [exact two_wf|exact exec_set_c|exact Hmax|].
  exact (operations_preserve_wf dict_covers None quiet remove_dups false no_size
           dict_covers_spec 5 (OpSet "c" "3" [8]) two two_then_c two_wf exec_set_c Hmax).
Defined.

Lemma negative_capacity_witness :
  wf dict_covers None (fresh (-1)) ∧
  max_size (fresh (-1)) = (-1)%Z ∧
  evict dict_covers None quiet false 100 (fresh (-1)) = Diverges ∧
  cache_set dict_covers None quiet remove_dups false no_size 100 "a" "1" []
    (fresh (-1)) = Diverges.
Proof.
  assert (Hneg : (max_size (fresh (-1)) < 0)%Z) by (vm_compute; reflexivity).
  destruct (negative_capacity_never_returns dict_covers None quiet remove_dups
              false no_size dict_covers_spec (fresh (-1)) eq_refl (λ _, eq_refl)
              negative_wf) as (H1 & H2 & _).
  split_and!; [exact negative_wf|reflexivity|by apply H1|by apply H2].
Defined.

(** [full] with its capacity set to 5, which [evict] has yet to meet. *)
Definition over : @LruCache string string := set_max_size 5 full.

Definition over_evicted : @LruCache string string :=
  state_of (evict dict_covers None quiet false 10 over) over.

Lemma over_wf : wf dict_covers None over.
Proof. apply (bool_decide_unpack _). by vm_compute. Qed.

Lemma evict_over :
  evict dict_covers None quiet false 10 over = Returns tt over_evicted.
Proof. vm_compute. reflexivity. Qed.

Lemma evictions_metric_witness :
  wf dict_covers None over ∧
  evict dict_covers None quiet false 10 over = Returns tt over_evicted ∧
  evicted_size <$> metrics over = Some 0%Z ∧
  __len__ None over = 10%Z ∧ __len__ None over_evicted = 5%Z ∧
  evicted_size <$> metrics over_evicted
  = (λ m, evicted_size m + (__len__ None over - __len__ None over_evicted))%Z
    <$> metrics over.
Proof.
  assert (Hmax : (0 ≤ max_size over)%Z) by (vm_compute; discriminate).
  destruct (evictions_metric_counts_cost dict_covers None quiet remove_dups false
              dict_covers_spec 10 over over_evicted over_wf Hmax evict_over)
    as (H1 & _ & _).
  split_and!; [exact over_wf|exact evict_over|reflexivity|reflexivity|reflexivity|exact H1].
Defined.

(** [sized_two] with its capacity set to 4: "b" costs 3 and "a" 2. *)
Definition sized_over : @LruCache string string := set_max_size 4 sized_two.

Lemma sized_over_wf : wf dict_covers (Some length_cost) sized_over.
Proof. apply (bool_decide_unpack _). by vm_compute. Qed.

Lemma evict_prefix_witness :
  wf dict_covers (Some length_cost) sized_over ∧
  recency sized_over = [2; 1] ∧
  ∃ s' j, evict dict_covers (Some length_cost) quiet false 5 sized_over
          = Returns tt s' ∧
          recency s' = take j (recency sized_over) ∧
          (len_of (Some length_cost) (heap sized_over) (take j (recency sized_over))
           ≤ max_size sized_over)%Z ∧
          wf dict_covers (Some length_cost) s'.
Proof.
  split; [exact sized_over_wf|]. split; [reflexivity|].
  destruct (evict_keeps_longest_fitting_prefix dict_covers (Some length_cost) quiet
              remove_dups false dict_covers_spec 5 sized_over sized_over_wf)
    as (s' & j & Hs' & Hr & Hfit & _ & _ & _ & Hwf').
  - vm_compute. discriminate.
  - intros a _. apply find_quiet.
  - vm_compute. lia.
  - exists s', j. by split_and!.
Defined.

(** Capacity 2; "a", then "b": "a" is the least recently used entry. *)
Definition ab : @LruCache string string :=
  state_of (set_all dict_covers None quiet remove_dups false no_size 5
              [("a", "1"); ("b", "2")] (fresh 2)) (fresh 2).

Lemma ab_wf : wf dict_covers None ab.
Proof. apply (bool_decide_unpack _). by vm_compute. Qed.

Lemma get_protects_witness :
  wf dict_covers None ab ∧
  index_get "a" (cache ab) = Some 1 ∧
  prv (heap ab) list_root = 1 ∧
  (∃ s1 s2,
     cache_get "a" tt [] true ab = Returns (Found (value (node_at ab 1))) s1 ∧
     cache_set dict_covers None quiet remove_dups false no_size 1 "c" "3" [] s1
     = Returns tt s2 ∧
     __contains__ "a" s2 = true ∧ __contains__ "c" s2 = true) ∧
  (∃ s3,
     cache_set dict_covers None quiet remove_dups false no_size 1 "c" "3" [] ab
     = Returns tt s3 ∧
     __contains__ "a" s3 = false ∧ __contains__ "c" s3 = true).
Proof.
  assert (Ha : index_get "a" (cache ab) = Some 1) by reflexivity.
  assert (Hc : index_get "c" (cache ab) = None) by reflexivity.
  assert (Hlast : prv (heap ab) list_root = 1) by reflexivity.
  assert (Hlen : (__len__ None ab ≤ max_size ab)%Z) by (vm_compute; discriminate).
  assert (Hcap : (2 ≤ max_size ab)%Z) by (vm_compute; discriminate).
  assert (Hfull : __len__ None ab = max_size ab) by (vm_compute; reflexivity).
  destruct (get_protects_from_next_eviction dict_covers None quiet remove_dups
              false no_size dict_covers_spec "a" tt [] true "c" "3" [] 1 ab 1
              eq_refl (λ _, eq_refl) ab_wf Ha Hc Hlen Hcap (le_n 1)) as [Hget Hno].
  split_and!; [exact ab_wf|exact Ha|exact Hlast| |].
  - destruct Hget as (s1 & s2 & H1 & H2 & _ & H3 & H4).
    exists s1, s2. by split_and!.
  - destruct (Hno Hlast Hfull) as (s3 & H1 & _ & H2 & H3).
    exists s3. by split_and!.
Defined.




(** *** Memory tracking on *)

(** An estimate: 16 bytes and one per character of the value. *)
Definition sizer : option string → option string → option (list Cb) → Z :=
  λ _ v _, (16 + length_cost v)%Z.

Definition tracked_fresh : @LruCache string string :=
  match __init__ true sizer 1%float 5 (Some "cache") true with
  | inr s => s
  | inl _ => empty_object
  end.

Definition tracked_exec :=
  exec (K:=string) (V:=string) dict_covers None quiet remove_dups true sizer.

Definition tracked_one : @LruCache string string :=
  state_of (tracked_exec 5 (OpSet "a" "xyz" []) tracked_fresh) tracked_fresh.

Lemma tracked_fresh_wf : wf dict_covers None tracked_fresh.
Proof. apply (bool_decide_unpack _). by vm_compute. Qed.

Lemma tracked_set_a :
  tracked_exec 5 (OpSet "a" "xyz" []) tracked_fresh = Returns tt tracked_one.
Proof. vm_compute. reflexivity. Qed.

Lemma memory_usage_witness :
  MemOK tracked_fresh (recency tracked_fresh) ∧
  tracked_exec 5 (OpSet "a" "xyz" []) tracked_fresh = Returns tt tracked_one ∧
  MemOK tracked_one (recency tracked_one) ∧
  memory_usage <$> metrics tracked_one = Some 19%Z ∧
  mem_sum (heap tracked_one) (recency tracked_one) = 19%Z.
Proof.
  destruct (memory_usage_is_sum_over_entries dict_covers None quiet remove_dups
              true sizer 1%float dict_covers_spec eq_refl) as [Hinit Hstep].
  assert (H0 : MemOK tracked_fresh (recency tracked_fresh)).
  { apply (Hinit 5%Z (Some "cache") true). reflexivity. }
  split_and!; [exact H0|exact tracked_set_a| |reflexivity|reflexivity].
  apply (Hstep 5 (OpSet "a" "xyz" []) tracked_fresh tracked_one tracked_fresh_wf H0
           tracked_set_a).
  vm_compute. discriminate.
Defined.

(** *** A tree two levels deep *)

Definition two_levels : @pytree string nat :=
  Dict [("a", Dict [("x", Leaf 1); ("y", Leaf 2)]); ("b", Dict [("z", Leaf 3)])].

Lemma two_levels_uniform : uniform 2 two_levels.
Proof. repeat constructor. Qed.

Lemma enumerate_leaves_uniform_witness :
  uniform 2 two_levels ∧
  enumerate_leaves two_levels 2 = ([Leaf 1; Leaf 2; Leaf 3], false).
Proof.
  split; [exact two_levels_uniform|].
  exact (enumerate_leaves_uniform 2 two_levels two_levels_uniform).
Defined.

Lemma enumerate_leaves_negative_witness :
  (-1 < 0)%Z ∧ enumerate_leaves two_levels (-1) = ([], true).
Proof.
  assert (Hneg : (-1 < 0)%Z) by lia.
  split; [exact Hneg|].
  exact (enumerate_leaves_negative_depth two_levels (-1) Hneg).
Defined.

(** *** Chunks *)

Lemma chunk_seq_witness :
  (0 < 2)%Z ∧
  IterUtils.chunk_seq [1; 2; 3; 4; 5] 2 = inr [[1; 2]; [3; 4]; [5]] ∧
  ∃ cs, IterUtils.chunk_seq [1; 2; 3; 4; 5] 2 = inr cs ∧
        concat cs = [1; 2; 3; 4; 5] ∧
        Forall (λ ch, 0 < length ch ≤ Z.to_nat 2) cs.
Proof.
  assert (Hpos : (0 < 2)%Z) by lia.
  split; [exact Hpos|]. split; [reflexivity|].
  destruct (IterUtils.chunk_seq_partitions [1; 2; 3; 4; 5] 2 Hpos)
    as (cs & Hcs & Hcat & Hlen & _).
  exists cs. by split_and!.
Defined.

(** [sys.maxsize] where [Py_ssize_t] has 64 bits. *)
Definition maxsize64 : positive := (2 ^ 63 - 1)%positive.

Lemma batch_iter_witness :
  (0 < 2)%Z ∧
  IterUtils.batch_iter maxsize64 [1; 2; 3; 4; 5] 2
  = IterUtils.chunk_seq [1; 2; 3; 4; 5] 2 ∧
  IterUtils.batch_iter maxsize64 [1; 2; 3; 4; 5] 2 = inr [[1; 2]; [3; 4]; [5]] ∧
  IterUtils.batch_iter maxsize64 [1; 2; 3] (2 ^ 63) = inl ValueError ∧
  IterUtils.chunk_seq [1; 2; 3] (2 ^ 63) = inr [[1; 2; 3]].
Proof.
  assert (Hpos : (0 < 2)%Z) by lia.
  assert (Hbig : (0 < 2 ^ 63)%Z) by lia.
  destruct (IterUtils.batch_iter_is_chunk_seq maxsize64 [1; 2; 3; 4; 5] 2 Hpos)
    as [Hsame _].
  destruct (IterUtils.batch_iter_is_chunk_seq maxsize64 [1; 2; 3] (2 ^ 63) Hbig)
    as [_ Habove].
  destruct Habove as [Hraise Hone]; [vm_compute; reflexivity|].
  split_and!; [exact Hpos| |reflexivity|exact Hraise|].
  - apply Hsame. vm_compute. discriminate.
  - apply Hone. vm_compute. discriminate.
Defined.

Lemma nonpositive_size_witness :
  (-1 ≤ 0)%Z ∧
  IterUtils.chunk_seq [1; 2; 3] (-1) = inr [] ∧
  IterUtils.batch_iter maxsize64 [1; 2; 3] (-1) = inl ValueError.
Proof.
  assert (Hneg : (-1 ≤ 0)%Z) by lia.
  split; [exact Hneg|].
  exact (IterUtils.chunking_by_nonpositive_size maxsize64 [1; 2; 3] (-1) Hneg).
Defined.

End Examples.
